(** * Ant Colony Game: tile grid, world generation, path finding, agents

    A shallow embedding of the simulation core of
    [src/ant-colony-game/game.js] (the multi-faction variant, the third
    and most developed one in that file: classes [Colony], [Game], [Ant],
    [WorkerAnt], [Queen], [EnemyAnt], [FoodSource]).

    Number model.  JavaScript numbers are modelled by exact rationals [Q];
    [Math.floor] is [Qfloor].  A comparison [Math.sqrt(dx*dx + dy*dy) < r]
    with a non-negative literal [r] is modelled by the equivalent
    [dx*dx + dy*dy < r*r].  [undefined] / [NaN] fields are [option]s.
    Cosmetic effects (particles, screen shake, console output) do not feed
    back into the simulation state and are left out. *)

From Stdlib Require Import ZArith QArith Qround Qminmax Qabs Lia Lqa Bool.
From stdpp Require Import base option list gmap.

Local Open Scope Z_scope.

(** ** Numbers *)

Definition Qlt_bool (a b : Q) : bool := negb (Qle_bool b a).

(** [Math.sqrt(dx*dx + dy*dy) < r] for a literal [r >= 0]. *)
Definition distLt (dx dy r : Q) : bool :=
  Qlt_bool (dx * dx + dy * dy) (r * r).

(** ** Tiles and the grid (class [Game], tile part) *)

Inductive TileType := air | dirt.

Definition isAir (k : TileType) : bool :=
  match k with air => true | dirt => false end.
Definition isDirt (k : TileType) : bool :=
  match k with dirt => true | air => false end.

(** A tile object.  Sky tiles are created without [hardness]; no tile has
    a [digProgress] until it is first dug at. *)
Record Tile := mkTile {
  type : TileType;
  dug : bool;
  hardness : option Q;
  digProgress : option Q
}.

Record World := mkWorld {
  worldWidth : Z;
  worldHeight : Z;
  tiles : list (list Tile)
}.

(** [tiles[i][j]], row first. *)
Definition tileIx (ts : list (list Tile)) (i j : nat) : option Tile :=
  ts !! i ≫= (λ row, row !! j).

Definition tileAt (w : World) (tx ty : Z) : option Tile :=
  tileIx (tiles w) (Z.to_nat ty) (Z.to_nat tx).

(** [tiles[ty][tx] = t] on an existing cell. *)
Definition setTile (w : World) (tx ty : Z) (t : Tile) : World :=
  mkWorld (worldWidth w) (worldHeight w)
          (alter (λ row, <[Z.to_nat tx := t]> row) (Z.to_nat ty) (tiles w)).

Definition isValidTile (w : World) (x y : Z) : bool :=
  (0 <=? x) && (x <? worldWidth w) && (0 <=? y) && (y <? worldHeight w).

(** [getTile]: floors the coordinates; [None] is the [null] sentinel. *)
Definition getTile (w : World) (x y : Q) : option Tile :=
  let tx := Qfloor x in
  let ty := Qfloor y in
  if isValidTile w tx ty then tileAt w tx ty else None.

Definition canMove (w : World) (x y : Q) : bool :=
  match getTile w x y with
  | Some tile => dug tile || isAir (type tile)
  | None => false
  end.

(** [tile.digProgress || 0] *)
Definition progressOf (t : Tile) : Q := default 0%Q (digProgress t).

(** [progress >= tile.hardness]; false when [hardness] is undefined. *)
Definition reaches (progress : Q) (h : option Q) : bool :=
  match h with
  | Some hd => Qle_bool hd progress
  | None => false
  end.

Definition withProgress (t : Tile) (q : Q) : Tile :=
  mkTile (type t) (dug t) (hardness t) (Some q).

Definition opened (t : Tile) : Tile :=
  mkTile air true (hardness t) (digProgress t).

(** [digTile(x, y, digPower)]: the new world and the returned boolean. *)
Definition digTile (w : World) (x y digPower : Q) : World * bool :=
  let tx := Qfloor x in
  let ty := Qfloor y in
  if isValidTile w tx ty then
    match tileAt w tx ty with
    | Some tile =>
        if negb (dug tile) && isDirt (type tile) then
          let tile1 := withProgress tile (progressOf tile + digPower)%Q in
          if reaches (progressOf tile1) (hardness tile1)
          then (setTile w tx ty (opened tile1), true)
          else (setTile w tx ty tile1, false)
        else (w, false)
    | None => (w, false)
    end
  else (w, false).

(** Repeated calls on the same coordinates, one per power in [ps]; the
    returned booleans are collected in call order. *)
Fixpoint digRepeat (w : World) (x y : Q) (ps : list Q) : World * list bool :=
  match ps with
  | [] => (w, [])
  | p :: ps' =>
      let '(w1, b) := digTile w x y p in
      let '(w2, bs) := digRepeat w1 x y ps' in
      (w2, b :: bs)
  end.

(** Any sequence of [digTile] calls, each with its own arguments. *)
Fixpoint digAll (w : World) (calls : list (Q * Q * Q)) : World :=
  match calls with
  | [] => w
  | (x, y, p) :: rest => digAll (fst (digTile w x y p)) rest
  end.

(** Accumulated progress after the first [S k] powers of [ps]. *)
Definition accumulated (q0 : Q) (ps : list Q) (k : nat) : Q :=
  fold_left Qplus (take (S k) ps) q0.

(** ** World generation ([Game.generateWorld] and the carving helpers) *)

(** The tile written by the initialisation loop at row [y]. *)
Definition initTile (height y : Z) : Tile :=
  let depth := (inject_Z y / inject_Z height)%Q in
  if y <? 5 then mkTile air true None None
  else mkTile dirt false (Some ((1 # 2) + depth * (1 # 2))%Q) None.

Definition initTiles (width height : Z) : list (list Tile) :=
  (λ y, replicate (Z.to_nat width) (initTile height y)) <$> seqZ 0 height.

Definition initWorld (width height : Z) : World :=
  mkWorld width height (initTiles width height).

(** [tiles[ty][tx].dug = true; tiles[ty][tx].type = 'air'] *)
Definition openAt (w : World) (tx ty : Z) : World :=
  match tileAt w tx ty with
  | Some t => setTile w tx ty (opened t)
  | None => w
  end.

(** The guarded write shared by [carveTunnel] and [generateCave]. *)
Definition carveCell (w : World) (tx ty : Z) : World :=
  if isValidTile w tx ty && (10 <=? ty) then openAt w tx ty else w.

(** The disk of radius [width] rasterised around [(x, y)]. *)
Definition carveDisk (w : World) (x y width : Z) : World :=
  foldl (λ w1 oy,
    foldl (λ w2 ox,
      if ox * ox + oy * oy <=? width * width
      then carveCell w2 (x + ox) (y + oy) else w2)
    w1 (seqZ (- width) (2 * width + 1)))
  w (seqZ (- width) (2 * width + 1)).

(** [carveTunnel(x1, y1, x2, y2, width)].  [steps] is
    [Math.ceil(Math.sqrt(dx*dx + dy*dy))]; when it is [0] the parameter
    [t = 0/0] is [NaN], no coordinate is valid and nothing is carved. *)
Definition carveTunnel (w : World) (x1 y1 x2 y2 : Q) (width : Z) : World :=
  let dx := (x2 - x1)%Q in
  let dy := (y2 - y1)%Q in
  let steps := Z.sqrt_up (Qceiling (dx * dx + dy * dy)) in
  if steps =? 0 then w
  else
    foldl (λ w1 i,
      let t := (inject_Z i / inject_Z steps)%Q in
      carveDisk w1 (Qfloor (x1 + dx * t)) (Qfloor (y1 + dy * t)) width)
    w (seqZ 0 (steps + 1)).

(** [grid[y][x]] of the temporary cave grid (cells are [0] or [1]). *)
Definition cell (grid : list (list Z)) (x y : Z) : Z :=
  default 0 (grid !! Z.to_nat y ≫= (λ row, row !! Z.to_nat x)).

Definition gridWidth (grid : list (list Z)) : Z :=
  Z.of_nat (length (default [] (grid !! 0%nat))).

Definition countNeighbors (grid : list (list Z)) (x y : Z) : Z :=
  foldl (λ count dy,
    foldl (λ count1 dx,
      if (dx =? 0) && (dy =? 0) then count1
      else
        let nx := x + dx in
        let ny := y + dy in
        if (ny <? 0) || (Z.of_nat (length grid) <=? ny)
           || (nx <? 0) || (gridWidth grid <=? nx)
        then count1 + 1
        else count1 + cell grid nx ny)
    count [-1; 0; 1])
  0 [-1; 0; 1].

(** One pass of the cellular automaton over a [size] x [size] grid. *)
Definition smooth (size : Z) (grid : list (list Z)) : list (list Z) :=
  (λ y, (λ x,
     let neighbors := countNeighbors grid x y in
     if cell grid x y =? 1
     then (if 4 <=? neighbors then 1 else 0)
     else (if 5 <=? neighbors then 1 else 0)) <$> seqZ 0 size) <$> seqZ 0 size.

(** [generateCave(centerX, centerY, radius)].  [noise] is the grid of
    [Math.random() < 0.45] draws, [fade x y] the outcome of the draw
    [Math.random() < fadeChance] made at grid cell [(x, y)]. *)
Definition generateCave (w : World) (centerX centerY : Q) (radius : Z)
    (noise : list (list Z)) (fade : Z → Z → bool) : World :=
  let size := radius * 2 + 4 in
  let grid := smooth size (smooth size (smooth size (smooth size noise))) in
  foldl (λ w1 y,
    foldl (λ w2 x,
      if cell grid x y =? 1 then
        let worldX := Qfloor (centerX - inject_Z radius - 2 + inject_Z x) in
        let worldY := Qfloor (centerY - inject_Z radius - 2 + inject_Z y) in
        let dx := x - (radius + 2) in
        let dy := y - (radius + 2) in
        if (0 <? radius) && (dx * dx + dy * dy <? radius * radius)
           && isValidTile w2 worldX worldY && (10 <=? worldY)
        then (if fade x y then openAt w2 worldX worldY else w2)
        else w2
      else w2)
    w1 (seqZ 0 size))
  w (seqZ 0 size).

(** [generateCaveSystems] and its helpers ([generateTunnelCave],
    [generateVerticalCave], [generateComplexCave], [generateShaft],
    [generateConnectingTunnel]) choose their parameters with
    [Math.random], [Math.cos] and [Math.sin] and touch the tiles only
    through [generateCave] and [carveTunnel]; a run is the list of those
    calls in program order. *)
Inductive CarveOp :=
| OpTunnel (x1 y1 x2 y2 : Q) (width : Z)
| OpCave (centerX centerY : Q) (radius : Z)
         (noise : list (list Z)) (fade : Z → Z → bool).

Definition runCarve (w : World) (op : CarveOp) : World :=
  match op with
  | OpTunnel x1 y1 x2 y2 width => carveTunnel w x1 y1 x2 y2 width
  | OpCave cx cy r noise fade => generateCave w cx cy r noise fade
  end.

Definition generateCaveSystems (w : World) (script : list CarveOp) : World :=
  foldl runCarve w script.

(** The starting chamber: 4 rows from row 10, 7 columns around the middle. *)
Definition startChamber (w : World) : World :=
  let startX := worldWidth w / 2 in
  let startY := 10 in
  foldl (λ w1 y,
    foldl (λ w2 x, if isValidTile w2 x y then openAt w2 x y else w2)
          w1 (seqZ (startX - 3) 7))
  w (seqZ startY 4).

(** The tile part of [generateWorld] (food and nests are placed
    afterwards and do not write tiles). *)
Definition generateWorld (width height : Z) (script : list CarveOp) : World :=
  startChamber (generateCaveSystems (initWorld width height) script).

(** ** Path finding ([Game.findPath], [heuristic], [reconstructPath]) *)

(** Scores are JavaScript numbers that may be [Infinity]. *)
Inductive Num := Fin (q : Q) | Inf.

(** [v || Infinity] on the result of [Map.get]: [undefined] and [0] are
    falsy. *)
Definition orInfinity (v : option Num) : Num :=
  match v with
  | Some (Fin q) => if Qeq_bool q 0 then Inf else Fin q
  | Some Inf => Inf
  | None => Inf
  end.

Definition numAdd (a : Num) (c : Q) : Num :=
  match a with Fin q => Fin (q + c) | Inf => Inf end.

Definition numLt (a b : Num) : bool :=
  match a, b with
  | Fin p, Fin q => Qlt_bool p q
  | Fin _, Inf => true
  | Inf, _ => false
  end.

Definition Node : Type := Z * Z.

Definition nodeEqb (a b : Node) : bool :=
  (a.1 =? b.1) && (a.2 =? b.2).

(** Manhattan distance. *)
Definition heuristic (x1 y1 x2 y2 : Z) : Q :=
  inject_Z (Z.abs (x1 - x2) + Z.abs (y1 - y2)).

(** The three [Map]s are keyed by the string [`${x},${y}`], which
    determines the integer pair; the pair itself is the key here. *)
Record Search := mkSearch {
  openSet : list Node;
  cameFrom : gmap Node Node;
  gScore : gmap Node Num;
  fScore : gmap Node Num
}.

(** The scan for the open node of lowest [fScore], from index [i] on. *)
Fixpoint lowest (fs : gmap Node Num) (rest : list Node) (i : nat)
    (current : Node) (currentIdx : nat) : Node * nat :=
  match rest with
  | [] => (current, currentIdx)
  | n :: rest' =>
      let currentF := orInfinity (fs !! n) in
      let lowestF := orInfinity (fs !! current) in
      if numLt currentF lowestF
      then lowest fs rest' (S i) n i
      else lowest fs rest' (S i) current currentIdx
  end.

Definition neighbors (c : Node) : list Node :=
  [ (c.1 + 1, c.2); (c.1 - 1, c.2); (c.1, c.2 + 1); (c.1, c.2 - 1);
    (c.1 + 1, c.2 + 1); (c.1 + 1, c.2 - 1);
    (c.1 - 1, c.2 + 1); (c.1 - 1, c.2 - 1) ].

Definition canMoveNode (w : World) (n : Node) : bool :=
  canMove w (inject_Z n.1) (inject_Z n.2).

(** The body of the neighbour loop. *)
Definition relax (w : World) (goal current : Node) (st : Search)
    (neighbor : Node) : Search :=
  if negb (canMoveNode w neighbor) then st
  else
    let isDiagonal := negb (neighbor.1 =? current.1)
                      && negb (neighbor.2 =? current.2) in
    let tentativeG :=
      numAdd (orInfinity (gScore st !! current))
             (if isDiagonal then 14 # 10 else 1)%Q in
    if numLt tentativeG (orInfinity (gScore st !! neighbor)) then
      mkSearch
        (if existsb (nodeEqb neighbor) (openSet st)
         then openSet st else openSet st ++ [neighbor])
        (<[neighbor := current]> (cameFrom st))
        (<[neighbor := tentativeG]> (gScore st))
        (<[neighbor := numAdd tentativeG
             (heuristic neighbor.1 neighbor.2 goal.1 goal.2)]> (fScore st))
    else st.

Definition center (n : Node) : Q * Q :=
  ((inject_Z n.1 + (1 # 2))%Q, (inject_Z n.2 + (1 # 2))%Q).

(** The [while (cameFrom.has(...))] loop of [reconstructPath], which
    prepends one way point per parent.  The loop does not terminate on a
    cyclic [cameFrom]; [None] after [fuel] rounds stands for that. *)
Fixpoint walkBack (fuel : nat) (cf : gmap Node Node) (current : Node)
    (path : list (Q * Q)) : option (list (Q * Q)) :=
  match cf !! current with
  | None => Some path
  | Some parent =>
      match fuel with
      | O => None
      | S fuel' => walkBack fuel' cf parent (center parent :: path)
      end
  end.

(** A chain without repetition has at most [size cameFrom] links. *)
Definition reconstructPath (cf : gmap Node Node) (current : Node)
    : option (list (Q * Q)) :=
  walkBack (size cf) cf current [center current].

Inductive PathResult :=
| Found (path : list (Q * Q))   (* an array of way points *)
| NoPath                        (* [null] *)
| Diverges.                     (* [reconstructPath] never returns *)

(** One round of the main loop on a non-empty open set: either the goal
    is taken from the open set, or the search goes on. *)
Definition expand (w : World) (goal : Node) (st : Search)
    : PathResult + Search :=
  match openSet st with
  | [] => inl NoPath
  | first :: rest =>
      let '(current, currentIdx) := lowest (fScore st) rest 1 first 0 in
      if nodeEqb current goal then
        inl (match reconstructPath (cameFrom st) current with
             | Some p => Found p
             | None => Diverges
             end)
      else
        let st1 := mkSearch (delete currentIdx (openSet st))
                            (cameFrom st) (gScore st) (fScore st) in
        inr (foldl (relax w goal current) st1 (neighbors current))
  end.

(** [while (openSet.length > 0 && iterations < maxIterations)];
    [budget] is [maxIterations - iterations]. *)
Fixpoint search (budget : nat) (w : World) (goal : Node) (st : Search)
    : PathResult :=
  match budget with
  | O => NoPath
  | S budget' =>
      match expand w goal st with
      | inl r => r
      | inr st' => search budget' w goal st'
      end
  end.

Definition maxIterations : nat := 500.

Definition findPath (w : World) (startX startY endX endY : Q) : PathResult :=
  let start : Node := (Qfloor startX, Qfloor startY) in
  let goal : Node := (Qfloor endX, Qfloor endY) in
  if negb (canMoveNode w start) || negb (canMoveNode w goal) then NoPath
  else
    search maxIterations w goal
      (mkSearch [start] ∅
         {[ start := Fin 0 ]}
         {[ start := Fin (heuristic start.1 start.2 goal.1 goal.2) ]}).

(** ** Agents, food and colonies *)

Module FoodSource.
Record t := mk {
  x : Q;
  y : Q;
  amount : Q;
  maxAmount : Q
}.
End FoodSource.

(** [new FoodSource(x, y, amount)] *)
Definition newFoodSource (x y amount : Q) : FoodSource.t :=
  FoodSource.mk x y amount amount.

Inductive AntState := idle | seeking | carrying | fighting.

(** An object of class [Ant] or of one of its subclasses.  The fields
    after [alive] are those of [WorkerAnt] (and [EnemyAnt]); on a queen
    object they are [undefined], which reads as [false] / [null].
    [targetFood] refers to an element of [game.foodSources], by index.
    Fields that the methods below neither read nor write ([speed],
    [size], [color], [pathIndex], [pathRecalcTimer], the wander target)
    are left out, as are [pulseTimer] of a food source and the colours
    and [queenX], [queenY] of a colony. *)
Module Ant.
Record t := mk {
  x : Q;
  y : Q;
  isPlayer : bool;
  health : Q;
  maxHealth : Q;
  alive : bool;
  carryingFood : bool;
  foodAmount : Q;
  targetFood : option nat;
  state : AntState;
  digCooldown : Q;
  attackCooldown : Q;
  stateTimer : Q;
  path : option (list (Q * Q))
}.
End Ant.

(** [new WorkerAnt(x, y, isPlayer)] *)
Definition newWorkerAnt (x y : Q) (isPlayer : bool) : Ant.t :=
  Ant.mk x y isPlayer 100 100 true false 0 None idle 0 0 0 None.

Module Queen.
Record t := mk {
  ant : Ant.t;
  spawnTimer : option Q;     (* [None]: [NaN] or [undefined] *)
  spawnCooldown : Q;
  foodPerWorker : Q
}.
End Queen.

(** [new Queen(x, y, colony)] *)
Definition newQueen (x y : Q) : Queen.t :=
  Queen.mk (Ant.mk x y false 200 200 true false 0 None idle 0 0 0 None)
           (Some 0%Q) 10 20.

(** A colony owns its queen and its workers; [worker.colony] and
    [queen.colony] point back to the owner and are represented by the
    position of the colony in [game.colonies]. *)
Module Colony.
Record t := mk {
  factionId : nat;
  isPlayer : bool;
  queen : option Queen.t;
  workers : list Ant.t;
  food : Q
}.
End Colony.

Module Game.
Record t := mk {
  world : World;
  colonies : list Colony.t;
  enemies : list Ant.t;
  foodSources : list FoodSource.t
}.
End Game.

(** *** Field updates on the shared objects *)

Definition setVitals (a : Ant.t) (h : Q) (al : bool) : Ant.t :=
  Ant.mk (Ant.x a) (Ant.y a) (Ant.isPlayer a) h (Ant.maxHealth a) al
         (Ant.carryingFood a) (Ant.foodAmount a) (Ant.targetFood a)
         (Ant.state a) (Ant.digCooldown a) (Ant.attackCooldown a)
         (Ant.stateTimer a) (Ant.path a).

Definition setAttackCooldown (a : Ant.t) (c : Q) : Ant.t :=
  Ant.mk (Ant.x a) (Ant.y a) (Ant.isPlayer a) (Ant.health a)
         (Ant.maxHealth a) (Ant.alive a)
         (Ant.carryingFood a) (Ant.foodAmount a) (Ant.targetFood a)
         (Ant.state a) (Ant.digCooldown a) c
         (Ant.stateTimer a) (Ant.path a).

Definition setAmount (f : FoodSource.t) (q : Q) : FoodSource.t :=
  FoodSource.mk (FoodSource.x f) (FoodSource.y f) q (FoodSource.maxAmount f).

Definition setQueenAnt (q : Queen.t) (a : Ant.t) : Queen.t :=
  Queen.mk a (Queen.spawnTimer q) (Queen.spawnCooldown q)
           (Queen.foodPerWorker q).

Definition setSpawnTimer (q : Queen.t) (t : Q) : Queen.t :=
  Queen.mk (Queen.ant q) (Some t) (Queen.spawnCooldown q)
           (Queen.foodPerWorker q).

Definition setQueen (c : Colony.t) (q : Queen.t) : Colony.t :=
  Colony.mk (Colony.factionId c) (Colony.isPlayer c) (Some q)
            (Colony.workers c) (Colony.food c).

Definition setWorkers (c : Colony.t) (ws : list Ant.t) : Colony.t :=
  Colony.mk (Colony.factionId c) (Colony.isPlayer c) (Colony.queen c)
            ws (Colony.food c).

Definition setFood (c : Colony.t) (f : Q) : Colony.t :=
  Colony.mk (Colony.factionId c) (Colony.isPlayer c) (Colony.queen c)
            (Colony.workers c) f.

Definition setColonies (g : Game.t) (cs : list Colony.t) : Game.t :=
  Game.mk (Game.world g) cs (Game.enemies g) (Game.foodSources g).

Definition setEnemies (g : Game.t) (es : list Ant.t) : Game.t :=
  Game.mk (Game.world g) (Game.colonies g) es (Game.foodSources g).

Definition setFoodSources (g : Game.t) (fs : list FoodSource.t) : Game.t :=
  Game.mk (Game.world g) (Game.colonies g) (Game.enemies g) fs.

(** *** [Ant.takeDamage(amount, game)] *)

Definition takeDamage (a : Ant.t) (amount : Q) (foods : list FoodSource.t)
    : Ant.t * list FoodSource.t :=
  let h := (Ant.health a - amount)%Q in
  if Qle_bool h 0 then
    (setVitals a 0 false,
     if Ant.carryingFood a && Qlt_bool 0 (Ant.foodAmount a)
     then foods ++ [newFoodSource (Ant.x a) (Ant.y a) (Ant.foodAmount a)]
     else foods)
  else (setVitals a h (Ant.alive a), foods).

(** A run of [takeDamage] calls on one ant. *)
Fixpoint takeDamages (a : Ant.t) (amounts : list Q)
    (foods : list FoodSource.t) : Ant.t * list FoodSource.t :=
  match amounts with
  | [] => (a, foods)
  | d :: rest =>
      let '(a1, foods1) := takeDamage a d foods in
      takeDamages a1 rest foods1
  end.

(** The states an ant object passes through: it is built by a
    constructor ([health = maxHealth], alive), and afterwards [health]
    and [alive] are written by [takeDamage] only (every call site passes
    a positive constant). *)
Inductive lives : Ant.t → Prop :=
| lives_new a :
    Ant.alive a = true → (0 < Ant.maxHealth a)%Q →
    (Ant.health a == Ant.maxHealth a)%Q → lives a
| lives_damage a d foods :
    lives a → (0 <= d)%Q → lives (takeDamage a d foods).1
| lives_other a b :
    lives a → Ant.health b = Ant.health a →
    Ant.maxHealth b = Ant.maxHealth a → Ant.alive b = Ant.alive a →
    lives b.

(** *** Food hand-over in [WorkerAnt.updateAI] *)

Definition workerAt (g : Game.t) (ci wi : nat) : option Ant.t :=
  Game.colonies g !! ci ≫= (λ c, Colony.workers c !! wi).

Definition setWorkerAt (g : Game.t) (ci wi : nat) (a : Ant.t) : Game.t :=
  setColonies g
    (alter (λ c, setWorkers c (<[wi := a]> (Colony.workers c))) ci
           (Game.colonies g)).

(** [Math.min(5, ...)]: what an AI worker carries. *)
Definition carryCapacity : Q := 5.

(** The worker after the pick-up assignments. *)
Definition loaded (a : Ant.t) (taken : Q) : Ant.t :=
  Ant.mk (Ant.x a) (Ant.y a) (Ant.isPlayer a) (Ant.health a)
         (Ant.maxHealth a) (Ant.alive a)
         true taken (Ant.targetFood a)
         carrying (Ant.digCooldown a) (Ant.attackCooldown a)
         (Ant.stateTimer a) (Ant.path a).

(** The worker after the delivery assignments. *)
Definition unloaded (a : Ant.t) : Ant.t :=
  Ant.mk (Ant.x a) (Ant.y a) (Ant.isPlayer a) (Ant.health a)
         (Ant.maxHealth a) (Ant.alive a)
         false 0 None
         idle (Ant.digCooldown a) (Ant.attackCooldown a)
         (Ant.stateTimer a) None.

(** The statement [if (dist < 1 && this.targetFood.amount > 0) {...}] of
    the food-seeking branch, at the position [moveTowards] has left the
    worker in. *)
Definition pickup (g : Game.t) (ci wi : nat) : Game.t :=
  match workerAt g ci wi with
  | Some me =>
      match Ant.targetFood me ≫= (λ fi, (fi,.) <$> Game.foodSources g !! fi) with
      | Some (fi, f) =>
          if distLt (FoodSource.x f - Ant.x me) (FoodSource.y f - Ant.y me) 1
             && Qlt_bool 0 (FoodSource.amount f)
          then
            let taken := Qmin carryCapacity (FoodSource.amount f) in
            let g1 := setFoodSources g
                        (<[fi := setAmount f (FoodSource.amount f - taken)]>
                           (Game.foodSources g)) in
            setWorkerAt g1 ci wi (loaded me taken)
          else g
      | None => g
      end
  | None => g
  end.

(** The statement [if (this.colony && this.colony.queen) { ... if (dist <
    2.5) {...} }] that closes the carrying branch. *)
Definition deliver (g : Game.t) (ci wi : nat) : Game.t :=
  match Game.colonies g !! ci with
  | Some c =>
      match Colony.workers c !! wi, Colony.queen c with
      | Some me, Some q =>
          if distLt (Ant.x (Queen.ant q) - Ant.x me)
                    (Ant.y (Queen.ant q) - Ant.y me) (5 # 2)
          then
            let c1 := setFood c (Colony.food c + Ant.foodAmount me) in
            let c2 := setWorkers c1 (<[wi := unloaded me]> (Colony.workers c1)) in
            setColonies g (<[ci := c2]> (Game.colonies g))
          else g
      | _, _ => g
      end
  | None => g
  end.

(** The two food statements of [updateAI], selected as the method does by
    [this.carryingFood]. *)
Definition updateAI_food (g : Game.t) (ci wi : nat) : Game.t :=
  match workerAt g ci wi with
  | Some me => if Ant.carryingFood me then deliver g ci wi else pickup g ci wi
  | None => g
  end.

Definition sumQ (l : list Q) : Q := foldr Qplus 0%Q l.

Definition colonyFood (c : Colony.t) : Q :=
  (Colony.food c + sumQ (Ant.foodAmount <$> Colony.workers c))%Q.

(** Food lying in sources, carried by ants and stored by colonies. *)
Definition totalFood (g : Game.t) : Q :=
  (sumQ (FoodSource.amount <$> Game.foodSources g)
   + sumQ (colonyFood <$> Game.colonies g)
   + sumQ (Ant.foodAmount <$> Game.enemies g))%Q.

(** *** [Colony.spawnWorker] and [Queen.update] *)

(** The position tested at one attempt, from its two [Math.random] draws. *)
Definition testPos (qx qy : Q) (draw : Q * Q) : Q * Q :=
  ((qx + (draw.1 - (1 # 2)) * 2)%Q, (qy + (draw.2 - (1 # 2)) * 2)%Q).

(** [for (attempt = 0; attempt < 10; attempt++)] with [left] attempts to
    go; [rnd attempt] are the draws of that attempt. *)
Fixpoint trySpawn (w : World) (qx qy : Q) (rnd : nat → Q * Q)
    (attempt left : nat) : Q * Q :=
  match left with
  | O => (qx, qy)
  | S left' =>
      let p := testPos qx qy (rnd attempt) in
      if canMove w p.1 p.2 then p
      else trySpawn w qx qy rnd (S attempt) left'
  end.

Definition Colony_spawnWorker (rnd : nat → Q * Q) (w : World) (c : Colony.t)
    : Colony.t :=
  match Colony.queen c with
  | None => c
  | Some q =>
      if negb (Ant.alive (Queen.ant q)) then c
      else
        let p := trySpawn w (Ant.x (Queen.ant q)) (Ant.y (Queen.ant q))
                          rnd 0 10 in
        setWorkers c (Colony.workers c ++ [newWorkerAnt p.1 p.2 false])
  end.

(** [Queen.update(dt, game)] for the queen of colony [ci]
    ([this.colony] is that colony). *)
Definition Queen_update (dt : Q) (rnd : nat → Q * Q) (g : Game.t) (ci : nat)
    : Game.t :=
  match Game.colonies g !! ci with
  | Some c =>
      match Colony.queen c with
      | Some q =>
          let timer := (default 0 (Queen.spawnTimer q) + dt)%Q in
          if Qle_bool (Queen.spawnCooldown q) timer
             && Qle_bool (Queen.foodPerWorker q) (Colony.food c)
          then
            let c1 := setFood c (Colony.food c - Queen.foodPerWorker q) in
            let c2 := Colony_spawnWorker rnd (Game.world g) c1 in
            setColonies g (<[ci := setQueen c2 (setSpawnTimer q 0)]>
                             (Game.colonies g))
          else
            setColonies g (<[ci := setQueen c (setSpawnTimer q timer)]>
                             (Game.colonies g))
      | None => g
      end
  | None => g
  end.

(** The only call site, in [Colony.update]:
    [if (this.queen && this.queen.alive) this.queen.update(dt, game)]. *)
Definition Colony_updateQueen (dt : Q) (rnd : nat → Q * Q) (g : Game.t)
    (ci : nat) : Game.t :=
  match Game.colonies g !! ci ≫= Colony.queen with
  | Some q => if Ant.alive (Queen.ant q) then Queen_update dt rnd g ci else g
  | None => g
  end.

(** *** Combat: [WorkerAnt.update], [WorkerAnt.checkCombat] *)

(** Whom a blow lands on: an element of [game.enemies], a worker of a
    colony, or a colony's queen. *)
Inductive Target :=
| TEnemy (i : nat)
| TWorker (cj wj : nat)
| TQueen (cj : nat).

(** [dist < 1.5] *)
Definition inReach (me other : Ant.t) : bool :=
  distLt (Ant.x other - Ant.x me) (Ant.y other - Ant.y me) (3 # 2).

(** [this.attackCooldown <= 0] *)
Definition ready (me : Ant.t) : bool := Qle_bool (Ant.attackCooldown me) 0.

(** One [for (const enemy of ...)] loop: the index of the first ant that
    is alive, is not the attacker itself, and is struck. *)
Fixpoint scanAnts (me : Ant.t) (isMe : nat → bool) (l : list Ant.t)
    (i : nat) : option nat :=
  match l with
  | [] => None
  | enemy :: rest =>
      if negb (Ant.alive enemy) || isMe i then scanAnts me isMe rest (S i)
      else if inReach me enemy && ready me then Some i
      else scanAnts me isMe rest (S i)
  end.

(** The loop over [game.colonies]; the attacker is worker [wi] of colony
    [ci], whose faction is [myFaction]. *)
Fixpoint scanColonies (me : Ant.t) (ci wi myFaction : nat)
    (cs : list Colony.t) (cj : nat) : option Target :=
  match cs with
  | [] => None
  | colony :: rest =>
      if Nat.eqb (Colony.factionId colony) myFaction
      then scanColonies me ci wi myFaction rest (S cj)
      else
        match scanAnts me (λ wj, Nat.eqb cj ci && Nat.eqb wj wi)
                       (Colony.workers colony) 0 with
        | Some wj => Some (TWorker cj wj)
        | None =>
            match Colony.queen colony with
            | Some q =>
                if Ant.alive (Queen.ant q)
                   && (inReach me (Queen.ant q) && ready me)
                then Some (TQueen cj)
                else scanColonies me ci wi myFaction rest (S cj)
            | None => scanColonies me ci wi myFaction rest (S cj)
            end
        end
  end.

(** The target of the one blow of a [checkCombat] call, in scan order. *)
Definition firstTarget (g : Game.t) (ci wi : nat) : option Target :=
  match Game.colonies g !! ci with
  | Some myColony =>
      match Colony.workers myColony !! wi with
      | Some me =>
          match scanAnts me (λ _, false) (Game.enemies g) 0 with
          | Some i => Some (TEnemy i)
          | None =>
              scanColonies me ci wi (Colony.factionId myColony)
                           (Game.colonies g) 0
          end
      | None => None
      end
  | None => None
  end.

(** [workerDamage] for ants, [queenDamage] for queens; the player deals
    double. *)
Definition damageOn (me : Ant.t) (tgt : Target) : Q :=
  match tgt with
  | TQueen _ => if Ant.isPlayer me then 20 else 10
  | _ => if Ant.isPlayer me then 30 else 15
  end.

Definition antAt (g : Game.t) (tgt : Target) : option Ant.t :=
  match tgt with
  | TEnemy i => Game.enemies g !! i
  | TWorker cj wj => workerAt g cj wj
  | TQueen cj => Queen.ant <$> (Game.colonies g !! cj ≫= Colony.queen)
  end.

(** [target.takeDamage(amount, game)] on the object in the game state. *)
Definition damageAt (g : Game.t) (tgt : Target) (amount : Q) : Game.t :=
  match tgt with
  | TEnemy i =>
      match Game.enemies g !! i with
      | Some e =>
          let r := takeDamage e amount (Game.foodSources g) in
          setFoodSources (setEnemies g (<[i := r.1]> (Game.enemies g))) r.2
      | None => g
      end
  | TWorker cj wj =>
      match workerAt g cj wj with
      | Some e =>
          let r := takeDamage e amount (Game.foodSources g) in
          setFoodSources (setWorkerAt g cj wj r.1) r.2
      | None => g
      end
  | TQueen cj =>
      match Game.colonies g !! cj with
      | Some c =>
          match Colony.queen c with
          | Some q =>
              let r := takeDamage (Queen.ant q) amount (Game.foodSources g) in
              setFoodSources
                (setColonies g (<[cj := setQueen c (setQueenAnt q r.1)]>
                                  (Game.colonies g))) r.2
          | None => g
          end
      | None => g
      end
  end.

(** [this.attackCooldown = 0.5] on the attacker. *)
Definition rearm (g : Game.t) (ci wi : nat) : Game.t :=
  match workerAt g ci wi with
  | Some me => setWorkerAt g ci wi (setAttackCooldown me (1 # 2))
  | None => g
  end.

Definition checkCombat (g : Game.t) (ci wi : nat) : Game.t :=
  match workerAt g ci wi, firstTarget g ci wi with
  | Some me, Some tgt => rearm (damageAt g tgt (damageOn me tgt)) ci wi
  | _, _ => g
  end.



(** ** Vocabulary of the statements about tiles *)

(** Dimensions of a world: the two bounds and the length of every row. *)
Definition shape (w : World) : Z * Z * list nat :=
  (worldWidth w, worldHeight w, length <$> tiles w).

(** Cell [(i, j)] turned from solid dirt into open air between [w] and [w']. *)
Definition flipped (w w' : World) (i j : nat) : Prop :=
  ∃ t t', tileIx (tiles w) i j = Some t ∧ tileIx (tiles w') i j = Some t'
    ∧ dug t = false ∧ type t = dirt ∧ dug t' = true ∧ type t' = air.

(** The tile invariant: a dug tile is air. *)
Definition tileOk (t : Tile) : Prop := dug t = true → type t = air.

Definition worldOk (w : World) : Prop :=
  ∀ i j t, tileIx (tiles w) i j = Some t → tileOk t.

(** What world generation and digging keep: the invariant on every cell
    and the dimensions [s]. *)
Definition sound (s : Z * Z * list nat) (w : World) : Prop :=
  worldOk w ∧ shape w = s.

(** The three ways a call can go. *)
Inductive DigCase (w : World) (px py p : Q) : Prop :=
| dig_skip :
    (getTile w px py = None
     ∨ ∃ t, getTile w px py = Some t ∧ (dug t = true ∨ type t = air)) →
    digTile w px py p = (w, false) → DigCase w px py p
| dig_progress t :
    getTile w px py = Some t → dug t = false → type t = dirt →
    reaches (progressOf t + p) (hardness t) = false →
    digTile w px py p
    = (setTile w (Qfloor px) (Qfloor py)
               (withProgress t (progressOf t + p)), false) →
    DigCase w px py p
| dig_through t :
    getTile w px py = Some t → dug t = false → type t = dirt →
    reaches (progressOf t + p) (hardness t) = true →
    digTile w px py p
    = (setTile w (Qfloor px) (Qfloor py)
               (opened (withProgress t (progressOf t + p))), true) →
    DigCase w px py p.

(** The hardness formula [0.5 + depth * 0.5] with [depth = y / height]. *)
Definition rowHardness (height y : Z) : Q :=
  ((1 # 2) + (inject_Z y / inject_Z height) * (1 # 2))%Q.

(** ** Vocabulary of the statements about paths *)

(** Each node of [chain] is the [cameFrom] parent of the next. *)
Definition links (cf : gmap Node Node) (chain : list Node) : Prop :=
  ∀ i a b, chain !! i = Some a → chain !! S i = Some b → cf !! b = Some a.

(** The state after [n] rounds of the main loop, none of which returned. *)
Fixpoint after (n : nat) (w : World) (goal : Node) (st : Search)
    : option Search :=
  match n with
  | O => Some st
  | S n' =>
      match expand w goal st with
      | inr st' => after n' w goal st'
      | inl _ => None
      end
  end.

(** A fully open 5 by 5 grid. *)
Definition openGrid5 : World :=
  mkWorld 5 5 (replicate 5 (replicate 5 (mkTile air true None None))).

(** An open set of 501 nodes that carry no score. *)
Definition crowded : Search :=
  mkSearch ((λ i, (Z.of_nat i, 0)) <$> seq 0 501) ∅ ∅ ∅.

(** ** Vocabulary of the statements about agents *)

(** How many calls of a run of [takeDamage] turn [alive] from true to
    false. *)
Fixpoint deaths (a : Ant.t) (amounts : list Q) (foods : list FoodSource.t)
    : nat :=
  match amounts with
  | [] => 0
  | d :: rest =>
      let r := takeDamage a d foods in
      ((if Ant.alive a && negb (Ant.alive r.1) then 1 else 0)
       + deaths r.1 rest r.2)%nat
  end.

(** The two draws of an attempt are results of [Math.random]. *)
Definition unitDraw (d : Q * Q) : Prop :=
  (0 <= d.1 < 1)%Q ∧ (0 <= d.2 < 1)%Q.


(** [tgt] is a living ant of another faction (or of [game.enemies])
    within the attack range of [me], whose colony has faction [mine]. *)
Definition hostile (g : Game.t) (me : Ant.t) (mine : nat) (tgt : Target)
    : Prop :=
  match tgt with
  | TEnemy i =>
      ∃ e, Game.enemies g !! i = Some e
           ∧ Ant.alive e = true ∧ inReach me e = true
  | TWorker cj wj =>
      ∃ c e, Game.colonies g !! cj = Some c ∧ Colony.factionId c ≠ mine
             ∧ Colony.workers c !! wj = Some e
             ∧ Ant.alive e = true ∧ inReach me e = true
  | TQueen cj =>
      ∃ c q, Game.colonies g !! cj = Some c ∧ Colony.factionId c ≠ mine
             ∧ Colony.queen c = Some q
             ∧ Ant.alive (Queen.ant q) = true
             ∧ inReach me (Queen.ant q) = true
  end.

(** ** Small concrete worlds *)

(** Three columns, eight rows: rows 0-4 are sky, rows 5-7 are dirt. *)
Definition smallWorld : World := initWorld 3 8.

(** A generated world with one tunnel and the starting chamber. *)
Definition tunnelWorld : World :=
  generateWorld 8 14 [OpTunnel 1 11 5 11 1].

(** A colony at work: its queen at (1,1); worker 0 next to food source
    0, which it targets; worker 1 carrying 5 units next to the queen. *)
Definition forager : Ant.t :=
  Ant.mk 10 10 false 100 100 true false 0 (Some 0%nat) seeking 0 0 0 None.

Definition porter : Ant.t :=
  Ant.mk 1 2 false 100 100 true true 5 (Some 0%nat) carrying 0 0 0 None.

Definition foragingGame : Game.t :=
  Game.mk smallWorld
          [Colony.mk 0 true (Some (newQueen 1 1)) [forager; porter] 7]
          []
          [newFoodSource (21 # 2) 10 50].

(** Two colonies at war: the player's worker at (0,0) and a worker of
    faction 1 at (1,0), whose queen sits at (5,5). *)
Definition duel : Game.t :=
  Game.mk smallWorld
          [Colony.mk 0 true (Some (newQueen 9 9)) [newWorkerAnt 0 0 true] 0;
           Colony.mk 1 false (Some (newQueen 5 5)) [newWorkerAnt 1 0 false] 0]
          [] [].


(** * More of the game *)

(** Where the value of [Math.sqrt] itself is used (to normalise a
    direction, to rank distances) the function is a parameter [sqrt] of
    the model: the statements below hold for whatever it returns. *)

(** ** Movement ([WorkerAnt.updatePlayer], [moveTowards]) *)

(** [this.speed] of a worker, set by the [Ant] constructor. *)
Definition workerSpeed : Q := 3.

(** [this.speed] of an [EnemyAnt]. *)
Definition enemySpeed : Q := 2.

Definition setPos (a : Ant.t) (px py : Q) : Ant.t :=
  Ant.mk px py (Ant.isPlayer a) (Ant.health a) (Ant.maxHealth a)
         (Ant.alive a) (Ant.carryingFood a) (Ant.foodAmount a)
         (Ant.targetFood a) (Ant.state a) (Ant.digCooldown a)
         (Ant.attackCooldown a) (Ant.stateTimer a) (Ant.path a).

(** The body shared, word for word up to the constants, by the movement
    part of [updatePlayer] and by the two [moveTowards] methods: step to
    the new position when it is passable, otherwise stay and dig at the
    blocking tiles, both axis neighbours first when the direction is
    diagonal.  [diag] and [main] are the factors of [dt] in the dig
    powers. *)
Definition stepOrDig (w : World) (me : Ant.t) (dirX dirY speed dt : Q)
    (diag main : Q) : World * Ant.t :=
  let newX := (Ant.x me + dirX * speed * dt)%Q in
  let newY := (Ant.y me + dirY * speed * dt)%Q in
  if canMove w newX newY then (w, setPos me newX newY)
  else
    let w1 :=
      if Qlt_bool (1 # 10) (Qabs dirX) && Qlt_bool (1 # 10) (Qabs dirY)
      then
        let wa := (digTile w (Ant.x me + dirX * (6 # 10)) (Ant.y me)
                           (dt * diag)).1 in
        (digTile wa (Ant.x me) (Ant.y me + dirY * (6 # 10)) (dt * diag)).1
      else w in
    ((digTile w1 (Ant.x me + dirX * (6 # 10)) (Ant.y me + dirY * (6 # 10))
              (dt * main)).1, me).

(** The movement part of [updatePlayer(dt, input, game)]. *)
Definition updatePlayer_move (w : World) (me : Ant.t) (input : Q * Q) (dt : Q)
    : World * Ant.t :=
  if negb (Qeq_bool input.1 0) || negb (Qeq_bool input.2 0)
  then stepOrDig w me input.1 input.2 workerSpeed dt 8 10
  else (w, me).

(** [WorkerAnt.moveTowards(targetX, targetY, dt, game)]. *)
Definition moveTowards (sqrt : Q → Q) (w : World) (me : Ant.t)
    (targetX targetY dt : Q) : World * Ant.t :=
  let dx := (targetX - Ant.x me)%Q in
  let dy := (targetY - Ant.y me)%Q in
  let dist := sqrt (dx * dx + dy * dy)%Q in
  if Qlt_bool (1 # 10) dist
  then stepOrDig w me (dx / dist) (dy / dist) workerSpeed dt 8 10
  else (w, me).

(** [EnemyAnt.moveTowards]: the same with speed 2 and weaker digging. *)
Definition EnemyAnt_moveTowards (sqrt : Q → Q) (w : World) (me : Ant.t)
    (targetX targetY dt : Q) : World * Ant.t :=
  let dx := (targetX - Ant.x me)%Q in
  let dy := (targetY - Ant.y me)%Q in
  let dist := sqrt (dx * dx + dy * dy)%Q in
  if Qlt_bool (1 # 10) dist
  then stepOrDig w me (dx / dist) (dy / dist) enemySpeed dt 6 8
  else (w, me).

(** ** The player's colony ([Game.createColony]) *)

(** [createColony]: faction 0, its queen at the middle of row 12 and the
    player's worker one tile to the right. *)
Definition createColony (g : Game.t) : Game.t :=
  let startX := (inject_Z (worldWidth (Game.world g)) / 2)%Q in
  let startY := 12%Q in
  setColonies g
    (Game.colonies g
     ++ [Colony.mk 0 true (Some (newQueen startX startY))
                   [newWorkerAnt (startX + 1) startY true] 0]).

(** ** Food: target selection and the player's hand-over *)

(** The scan of [updateAI] for the nearest source that still holds food;
    [i] is the index of the head of [foods]. *)
Fixpoint nearestScan (sqrt : Q → Q) (me : Ant.t) (foods : list FoodSource.t)
    (i : nat) (nearest : option nat) (nearestDist : Num) : option nat :=
  match foods with
  | [] => nearest
  | food :: rest =>
      if Qlt_bool 0 (FoodSource.amount food) then
        let dx := (FoodSource.x food - Ant.x me)%Q in
        let dy := (FoodSource.y food - Ant.y me)%Q in
        let dist := Fin (sqrt (dx * dx + dy * dy)%Q) in
        if numLt dist nearestDist
        then nearestScan sqrt me rest (S i) (Some i) dist
        else nearestScan sqrt me rest (S i) nearest nearestDist
      else nearestScan sqrt me rest (S i) nearest nearestDist
  end.

Definition nearestFood (sqrt : Q → Q) (me : Ant.t)
    (foods : list FoodSource.t) : option nat :=
  nearestScan sqrt me foods 0 None Inf.

(** What the player carries at most: [Math.min(15, ...)]. *)
Definition playerCapacity : Q := 15.

(** The index of the first source within 1.5 that holds food: the source
    at which the pick-up loop of [updatePlayer] breaks. *)
Fixpoint firstInRange (me : Ant.t) (foods : list FoodSource.t) (i : nat)
    : option nat :=
  match foods with
  | [] => None
  | food :: rest =>
      if distLt (FoodSource.x food - Ant.x me) (FoodSource.y food - Ant.y me)
                (3 # 2)
         && Qlt_bool 0 (FoodSource.amount food)
      then Some i
      else firstInRange me rest (S i)
  end.

Definition setCarried (a : Ant.t) (carry : bool) (amount : Q) : Ant.t :=
  Ant.mk (Ant.x a) (Ant.y a) (Ant.isPlayer a) (Ant.health a)
         (Ant.maxHealth a) (Ant.alive a) carry amount (Ant.targetFood a)
         (Ant.state a) (Ant.digCooldown a) (Ant.attackCooldown a)
         (Ant.stateTimer a) (Ant.path a).

(** [if (!this.carryingFood) { for (let food of game.foodSources) ... }] *)
Definition playerPickup (g : Game.t) (ci wi : nat) : Game.t :=
  match workerAt g ci wi with
  | Some me =>
      if Ant.carryingFood me then g
      else
        match firstInRange me (Game.foodSources g) 0 with
        | Some fi =>
            match Game.foodSources g !! fi with
            | Some f =>
                let taken := Qmin playerCapacity (FoodSource.amount f) in
                setWorkerAt
                  (setFoodSources g
                     (<[fi := setAmount f (FoodSource.amount f - taken)]>
                        (Game.foodSources g)))
                  ci wi (setCarried me true taken)
            | None => g
            end
        | None => g
        end
  | None => g
  end.

(** [if (this.carryingFood && this.colony && this.colony.queen) ...] *)
Definition playerDeliver (g : Game.t) (ci wi : nat) : Game.t :=
  match Game.colonies g !! ci with
  | Some c =>
      match Colony.workers c !! wi, Colony.queen c with
      | Some me, Some q =>
          if Ant.carryingFood me
             && distLt (Ant.x (Queen.ant q) - Ant.x me)
                       (Ant.y (Queen.ant q) - Ant.y me) (5 # 2)
          then
            let c1 := setFood c (Colony.food c + Ant.foodAmount me) in
            let c2 := setWorkers c1 (<[wi := setCarried me false 0]>
                                       (Colony.workers c1)) in
            setColonies g (<[ci := c2]> (Game.colonies g))
          else g
      | _, _ => g
      end
  | None => g
  end.

(** The two food statements of [updatePlayer], in program order. *)
Definition updatePlayer_food (g : Game.t) (ci wi : nat) : Game.t :=
  playerDeliver (playerPickup g ci wi) ci wi.

(** ** The player's update ([WorkerAnt.updatePlayer]) *)



(** ** The sweeps that end an update *)

(** [this.workers = this.workers.filter(w => w.alive)] in [Colony.update]. *)
Definition sweepWorkers (c : Colony.t) : Colony.t :=
  setWorkers c (filter (λ a, Ant.alive a = true) (Colony.workers c)).

(** The three filters of [Game.update]: dead enemies, colonies without a
    living queen, depleted food sources. *)
Definition sweepGame (g : Game.t) : Game.t :=
  Game.mk (Game.world g)
    (filter (λ c, (Ant.alive ∘ Queen.ant <$> Colony.queen c) = Some true)
            (Game.colonies g))
    (filter (λ e, Ant.alive e = true) (Game.enemies g))
    (filter (λ f, Qlt_bool 0 (FoodSource.amount f) = true)
            (Game.foodSources g)).

(** ** Placing food and nests ([spawnFoodInCaves], [spawnEnemiesInCaves]) *)

(** The count of dug tiles in the square of half-width [r] around
    [(x, y)], tiles outside the grid not counting. *)
Definition openCount (w : World) (x y r : Z) : Z :=
  foldl (λ count dy,
    foldl (λ count1 dx,
      match getTile w (inject_Z (x + dx)) (inject_Z (y + dy)) with
      | Some checkTile => if dug checkTile then count1 + 1 else count1
      | None => count1
      end)
    count (seqZ (- r) (2 * r + 1)))
  0 (seqZ (- r) (2 * r + 1)).

(** The scan of [spawnFoodInCaves] for cave spots, in scan order. *)
Definition caveSpots (w : World) : list (Q * Q) :=
  y ← seqZ 12 (worldHeight w - 5 - 12);
  x ← seqZ 5 (worldWidth w - 5 - 5);
  match tileAt w x y with
  | Some tile =>
      if dug tile && isAir (type tile)
         && (8 <? openCount w x y 2)
         && Qlt_bool 5 (Qabs (inject_Z x - inject_Z (worldWidth w) / 2))
      then [((inject_Z x + (1 # 2))%Q, (inject_Z y + (1 # 2))%Q)]
      else []
  | None => []
  end.

(** [Math.floor(Math.random() * n)] *)
Definition randomIndex (draw : Q) (n : nat) : nat :=
  Z.to_nat (Qfloor (draw * inject_Z (Z.of_nat n))).

(** The spawning loop of [spawnFoodInCaves], with [left] rounds to go;
    [rnd i] are the two draws of round [i], for the spot and for the
    amount.  Outside its range an index has no spot and the loop cannot
    go on. *)
Fixpoint spawnFoodLoop (spots : list (Q * Q)) (rnd : nat → Q * Q)
    (i left : nat) (foods : list FoodSource.t) : list FoodSource.t :=
  match left with
  | O => foods
  | S left' =>
      let k := randomIndex (rnd i).1 (length spots) in
      match spots !! k with
      | Some spot =>
          let amount := (50 + inject_Z (Qfloor ((rnd i).2 * 100)))%Q in
          spawnFoodLoop (delete k spots) rnd (S i) left'
                        (foods ++ [newFoodSource spot.1 spot.2 amount])
      | None => foods
      end
  end.

Definition spawnFoodInCaves (w : World) (count : nat) (rnd : nat → Q * Q)
    (foods : list FoodSource.t) : list FoodSource.t :=
  let spots := caveSpots w in
  spawnFoodLoop spots rnd 0 (Nat.min count (length spots)) foods.

(** The spawning loop of [spawnEnemiesInCaves]:
    [for (i = 0; i < Math.min(count, nestSpots.length); i++)], where the
    list shrinks by one spot per round.  [left] is [count - i]; [rnd i]
    are the three draws of round [i], for the spot and for the two
    offsets of the worker. *)
Fixpoint spawnEnemyLoop (spots : list (Q * Q)) (rnd : nat → Q * (Q * Q))
    (i left : nat) (colonies : list Colony.t) : list Colony.t :=
  match left with
  | O => colonies
  | S left' =>
      if (i <? length spots)%nat then
        let k := randomIndex (rnd i).1 (length spots) in
        match spots !! k with
        | Some spot =>
            let worker :=
              newWorkerAnt (spot.1 + ((rnd i).2.1 - (1 # 2)) * 4)%Q
                           (spot.2 + ((rnd i).2.2 - (1 # 2)) * 4)%Q false in
            spawnEnemyLoop (delete k spots) rnd (S i) left'
              (colonies
               ++ [Colony.mk (i + 1) false (Some (newQueen spot.1 spot.2))
                             [worker] 0])
        | None => colonies
        end
      else colonies
  end.

(** ** Vocabulary of the further statements *)

(** [P] holds of every tile of the grid, [P i] for the tiles of row [i]. *)
Definition cellwise (P : nat → Tile → Prop) (w : World) : Prop :=
  ∀ i j t, tileIx (tiles w) i j = Some t → P i t.

(** The progress of a solid tile has not reached its hardness. *)
Definition progressBelow (t : Tile) : Prop :=
  dug t = false →
  ∀ h q, hardness t = Some h → digProgress t = Some q → (q < h)%Q.

(** The cell at column [x], row [y] exists and is dug. *)
Definition isOpen (w : World) (x y : Z) : Prop :=
  ∃ t, tileAt w x y = Some t ∧ dug t = true.

(** The rows above row [n] of [w] are those of [w0]. *)
Definition sameAbove (n : nat) (w0 w : World) : Prop :=
  ∀ i j, (i < n)%nat → tileIx (tiles w) i j = tileIx (tiles w0) i j.




(** Every cell of the grid is [0] or [1]. *)
Definition binary (grid : list (list Z)) : Prop :=
  ∀ x y, cell grid x y = 0 ∨ cell grid x y = 1.

(** What the neighbour at [(nx, ny)] adds to the count of
    [countNeighbors]. *)
Definition neighborTerm (grid : list (list Z)) (nx ny : Z) : Z :=
  if (ny <? 0) || (Z.of_nat (length grid) <=? ny)
     || (nx <? 0) || (gridWidth grid <=? nx)
  then 1 else cell grid nx ny.

(** The open set lists no tile twice and only passable tiles. *)
Definition tidy (w : World) (st : Search) : Prop :=
  NoDup (openSet st) ∧ ∀ n, n ∈ openSet st → canMoveNode w n = true.

(** [a <= b] on scores, as the negation of the test [b < a]. *)
Definition numLe (a b : Num) : Prop := numLt b a = false.

(** The distance [Math.sqrt(dx*dx + dy*dy)] from an ant to a source. *)
Definition distTo (sqrt : Q → Q) (me : Ant.t) (food : FoodSource.t) : Q :=
  sqrt ((FoodSource.x food - Ant.x me) * (FoodSource.x food - Ant.x me)
        + (FoodSource.y food - Ant.y me) * (FoodSource.y food - Ant.y me))%Q.

(** [r] is the first of the nearest sources of [foods] that hold food,
    or [None] when none holds any. *)
Definition nearestOk (sqrt : Q → Q) (me : Ant.t) (foods : list FoodSource.t)
    (r : option nat) : Prop :=
  match r with
  | None => ∀ f, f ∈ foods → (FoodSource.amount f <= 0)%Q
  | Some i =>
      ∃ f, foods !! i = Some f ∧ (0 < FoodSource.amount f)%Q
        ∧ (∀ j f', foods !! j = Some f' → (0 < FoodSource.amount f')%Q →
             (distTo sqrt me f <= distTo sqrt me f')%Q)
        ∧ (∀ j f', (j < i)%nat → foods !! j = Some f' →
             (0 < FoodSource.amount f')%Q →
             (distTo sqrt me f < distTo sqrt me f')%Q)
  end.

(** A source the player can take from: within 1.5 and not empty. *)
Definition takeable (me : Ant.t) (food : FoodSource.t) : Prop :=
  distLt (FoodSource.x food - Ant.x me) (FoodSource.y food - Ant.y me)
         (3 # 2) = true
  ∧ (0 < FoodSource.amount food)%Q.

(** An ant that does not carry holds no food, and no ant holds less than
    none. *)
Definition tidyLoad (a : Ant.t) : Prop :=
  (0 <= Ant.foodAmount a)%Q
  ∧ (Ant.carryingFood a = false → (Ant.foodAmount a == 0)%Q).

(** The outcome [r] of a movement statement on the ant [me] in [w]:
    either the ant has stepped onto a passable tile and the world is as
    it was, or the ant is where it was and at most three [digTile] calls
    have been made. *)
Definition stepsOrDigs (w : World) (me : Ant.t) (r : World * Ant.t) : Prop :=
  (r.1 = w ∧ r.2 = setPos me (Ant.x r.2) (Ant.y r.2)
   ∧ canMove w (Ant.x r.2) (Ant.y r.2) = true)
  ∨ (r.2 = me ∧ ∃ calls, (length calls <= 3)%nat ∧ r.1 = digAll w calls).

(** What a living ant carries. *)
Definition liveLoad (a : Ant.t) : Q :=
  if Ant.alive a then Ant.foodAmount a else 0.

Definition colonyLiveFood (c : Colony.t) : Q :=
  (Colony.food c + sumQ (liveLoad <$> Colony.workers c)
   + default 0 (liveLoad ∘ Queen.ant <$> Colony.queen c))%Q.

(** Food lying in sources, stored by colonies and carried by the
    living. *)
Definition liveFood (g : Game.t) : Q :=
  (sumQ (FoodSource.amount <$> Game.foodSources g)
   + sumQ (colonyLiveFood <$> Game.colonies g)
   + sumQ (liveLoad <$> Game.enemies g))%Q.

(** The stock of a colony and the loads of its workers are not
    negative. *)
Definition frugal (c : Colony.t) : Prop :=
  (0 <= Colony.food c)%Q
  ∧ Forall (λ a, 0 <= Ant.foodAmount a)%Q (Colony.workers c).

(** No source, no stockpile and no worker or enemy ant holds a negative
    amount of food. *)
Definition stocked (g : Game.t) : Prop :=
  Forall (λ f, 0 <= FoodSource.amount f)%Q (Game.foodSources g)
  ∧ Forall frugal (Game.colonies g)
  ∧ Forall (λ a, 0 <= Ant.foodAmount a)%Q (Game.enemies g).

(** Where a source lies. *)
Definition place (f : FoodSource.t) : Q * Q :=
  (FoodSource.x f, FoodSource.y f).

(** Where the queen of a colony sits. *)
Definition seat (c : Colony.t) : Q * Q :=
  default (0, 0)%Q
    ((λ q, (Ant.x (Queen.ant q), Ant.y (Queen.ant q))) <$> Colony.queen c).

(** ** Further worlds and games for the examples *)

(** The player at (0,0) beside its queen, with three sources: the first
    out of reach, the third nearer than the second. *)
Definition pantry : Game.t :=
  Game.mk smallWorld
          [Colony.mk 0 true (Some (newQueen 1 1)) [newWorkerAnt 0 0 true] 0]
          []
          [newFoodSource 5 0 20; newFoodSource 1 0 40;
           newFoodSource (1 # 2) 0 10].

(** A raid: the player's worker at (0,0) beside a worker of faction 1
    that carries 5 units and has 30 points of health left. *)
Definition raid : Game.t :=
  Game.mk smallWorld
          [Colony.mk 0 true (Some (newQueen 9 9)) [newWorkerAnt 0 0 true] 0;
           Colony.mk 1 false (Some (newQueen 5 5))
                     [Ant.mk 1 0 false 30 100 true true 5 None carrying
                             0 0 0 None] 0]
          [] [].

(** A world 30 tiles wide and 24 high with one wide tunnel left of the
    middle. *)
Definition caveWorld : World := generateWorld 30 24 [OpTunnel 4 15 9 15 2].



(** A loop state of [findPath] on [smallWorld]: the tile at column 1 of
    the lowest sky row is open, with score 1. *)
Definition underway : Search :=
  mkSearch [(1, 4)] ∅ {[ ((1, 4) : Node) := Fin 1 ]}
           {[ ((1, 4) : Node) := Fin 1 ]}.

(** * Properties *)

(** ** Numbers *)

Lemma Qlt_bool_iff (a b : Q) : Qlt_bool a b = true ↔ (a < b)%Q.
Proof.
  unfold Qlt_bool. rewrite negb_true_iff. split.
  - intros H. apply Qnot_le_lt. intros Hle.
    apply Qle_bool_iff in Hle. congruence.
  - intros H. destruct (Qle_bool b a) eqn:E; [|done].
    apply Qle_bool_iff in E. lra.
Qed.

Lemma Qlt_bool_false (a b : Q) : Qlt_bool a b = false ↔ (b <= a)%Q.
Proof.
  unfold Qlt_bool. rewrite negb_false_iff. apply Qle_bool_iff.
Qed.

Lemma Qle_bool_false (a b : Q) : Qle_bool a b = false ↔ (b < a)%Q.
Proof.
  rewrite <- Qlt_bool_iff. unfold Qlt_bool. by rewrite negb_true_iff.
Qed.

(** ** The grid as a two-level array *)

Lemma tileIx_set_eq ts i j t t0 :
  tileIx ts i j = Some t0 →
  tileIx (alter (λ row, <[j := t]> row) i ts) i j = Some t.
Proof.
  unfold tileIx. intros H. rewrite list_lookup_alter_eq.
  destruct (ts !! i) as [row|]; simpl in *; [|done].
  apply list_lookup_insert_eq. by eapply lookup_lt_Some.
Qed.

Lemma tileIx_set_ne ts i j i' j' t :
  (i', j') ≠ (i, j) →
  tileIx (alter (λ row, <[j := t]> row) i ts) i' j' = tileIx ts i' j'.
Proof.
  unfold tileIx. intros Hne. destruct (decide (i = i')) as [<-|Hi].
  - rewrite list_lookup_alter_eq.
    destruct (ts !! i) as [row|]; simpl; [|done].
    apply list_lookup_insert_ne. congruence.
  - by rewrite list_lookup_alter_ne.
Qed.

Lemma isValidTile_setTile w tx ty t a b :
  isValidTile (setTile w tx ty t) a b = isValidTile w a b.
Proof. reflexivity. Qed.

Lemma isValidTile_nonneg w a b : isValidTile w a b = true → 0 <= a ∧ 0 <= b.
Proof. unfold isValidTile. lia. Qed.

Lemma getTile_Some_inv w px py t :
  getTile w px py = Some t →
  isValidTile w (Qfloor px) (Qfloor py) = true
  ∧ tileAt w (Qfloor px) (Qfloor py) = Some t.
Proof.
  unfold getTile. by destruct (isValidTile w (Qfloor px) (Qfloor py)).
Qed.

Lemma getTile_setTile w px py t t0 :
  getTile w px py = Some t0 →
  getTile (setTile w (Qfloor px) (Qfloor py) t) px py = Some t.
Proof.
  intros [Hv Ht]%getTile_Some_inv. unfold getTile.
  rewrite isValidTile_setTile, Hv. unfold tileAt, setTile; simpl.
  by eapply tileIx_set_eq.
Qed.

(** ** [digTile], one call *)

Lemma digTile_case w px py p : DigCase w px py p.
Proof.
  destruct (isValidTile w (Qfloor px) (Qfloor py)) eqn:Hv.
  2:{ apply dig_skip; [left|]; unfold digTile, getTile; by rewrite Hv. }
  destruct (tileAt w (Qfloor px) (Qfloor py)) as [t|] eqn:Ht.
  2:{ apply dig_skip; [left|]; unfold digTile, getTile; by rewrite Hv, ?Ht. }
  assert (Hg : getTile w px py = Some t) by (unfold getTile; by rewrite Hv).
  destruct (dug t) eqn:Hd.
  { apply dig_skip; [right; eauto|]. unfold digTile. by rewrite Hv, Ht, Hd. }
  destruct (type t) eqn:Hk.
  { apply dig_skip; [right; eauto|]. unfold digTile. by rewrite Hv, Ht, Hd, Hk. }
  destruct (reaches (progressOf t + p) (hardness t)) eqn:Hr.
  - eapply dig_through; eauto.
    unfold digTile. rewrite Hv, Ht, Hd, Hk; simpl.
    change (progressOf (withProgress t (progressOf t + p)))
      with (progressOf t + p)%Q. by rewrite Hr.
  - eapply dig_progress; eauto.
    unfold digTile. rewrite Hv, Ht, Hd, Hk; simpl.
    change (progressOf (withProgress t (progressOf t + p)))
      with (progressOf t + p)%Q. by rewrite Hr.
Qed.

Lemma reaches_iff q ho :
  reaches q ho = true ↔ ∃ h, ho = Some h ∧ (h <= q)%Q.
Proof.
  destruct ho as [h|]; simpl.
  - rewrite Qle_bool_iff. split; [eauto|]. by intros (? & [= ->] & ?).
  - split; [done|]. by intros (? & ? & ?).
Qed.

Lemma digTile_skip w px py p :
  (getTile w px py = None
   ∨ ∃ t, getTile w px py = Some t ∧ (dug t = true ∨ type t ≠ dirt)) →
  digTile w px py p = (w, false).
Proof.
  intros H. destruct (digTile_case w px py p) as [_ E|t Ht Hd Hk _ _|t Ht Hd Hk _ _];
    [done| |]; destruct H as [H|(t' & H & [H'|H'])]; congruence.
Qed.

Lemma digTile_live w px py p t :
  getTile w px py = Some t → dug t = false → type t = dirt →
  ∃ t', getTile (digTile w px py p).1 px py = Some t'
    ∧ digProgress t' = Some (progressOf t + p)%Q
    ∧ hardness t' = hardness t
    ∧ ((digTile w px py p).2 = true
       ↔ ∃ h, hardness t = Some h ∧ (h <= progressOf t + p)%Q)
    ∧ (if (digTile w px py p).2
       then dug t' = true ∧ type t' = air
       else dug t' = false ∧ type t' = dirt).
Proof.
  intros Ht Hd Hk.
  destruct (digTile_case w px py p) as [[H|(t0 & H & [H'|H'])] _|t0 Ht0 _ _ Hr E|t0 Ht0 _ _ Hr E];
    try congruence.
  - assert (t0 = t) as -> by congruence. rewrite E; simpl.
    eexists. split; [by eapply getTile_setTile|]. simpl.
    rewrite <- reaches_iff, Hr. by repeat split.
  - assert (t0 = t) as -> by congruence. rewrite E; simpl.
    eexists. split; [by eapply getTile_setTile|]. simpl.
    rewrite <- reaches_iff, Hr. by repeat split.
Qed.

Lemma digTile_progress_mono w px py p t :
  (0 <= p)%Q → getTile w px py = Some t →
  ∃ t', getTile (digTile w px py p).1 px py = Some t'
    ∧ (progressOf t <= progressOf t')%Q.
Proof.
  intros Hp Ht.
  destruct (digTile_case w px py p) as [_ E|t0 Ht0 _ _ _ E|t0 Ht0 _ _ _ E].
  - rewrite E. exists t. split; [done|lra].
  - assert (t0 = t) as -> by congruence. rewrite E; simpl.
    eexists. split; [by eapply getTile_setTile|].
    change (progressOf t <= progressOf t + p)%Q. lra.
  - assert (t0 = t) as -> by congruence. rewrite E; simpl.
    eexists. split; [by eapply getTile_setTile|].
    change (progressOf t <= progressOf t + p)%Q. lra.
Qed.

(** ** [digTile], repeated on one cell *)

Lemma digRepeat_dug px py ps : ∀ w t,
  getTile w px py = Some t → dug t = true →
  digRepeat w px py ps = (w, replicate (length ps) false).
Proof.
  induction ps as [|p ps IH]; intros w t Ht Hd; simpl; [done|].
  rewrite (digTile_skip w px py p) by (right; exists t; eauto).
  by rewrite (IH w t).
Qed.

Lemma accumulated_cons q p ps k :
  accumulated q (p :: ps) (S k) = accumulated (q + p) ps k.
Proof. reflexivity. Qed.

Lemma accumulated_first q p ps : accumulated q (p :: ps) 0 = (q + p)%Q.
Proof. reflexivity. Qed.

Lemma digRepeat_trace px py ps : ∀ w t h,
  getTile w px py = Some t → dug t = false → type t = dirt →
  hardness t = Some h →
  length (digRepeat w px py ps).2 = length ps
  ∧ (∀ k, (k < length ps)%nat →
       (digRepeat w px py ps).2 !! k = Some true
       ↔ (h <= accumulated (progressOf t) ps k)%Q
         ∧ ∀ j, (j < k)%nat → (accumulated (progressOf t) ps j < h)%Q)
  ∧ ∃ t', getTile (digRepeat w px py ps).1 px py = Some t'
      ∧ (dug t' = true
         ↔ ∃ j, (j < length ps)%nat
                ∧ (h <= accumulated (progressOf t) ps j)%Q)
      ∧ (if dug t' then type t' = air else type t' = dirt).
Proof.
  induction ps as [|p ps IH]; intros w t h Ht Hd Hk Hh.
  { simpl. split; [done|]. split; [intros k Hlt; simpl in Hlt; lia|].
    exists t. split; [done|]. rewrite Hd. split; [|done].
    split; [done|]. intros (j & Hj & _). simpl in Hj. lia. }
  destruct (digTile_case w px py p)
    as [[H|(t0 & H & [H'|H'])] _|t0 Ht0 _ _ Hr E|t0 Ht0 _ _ Hr E];
    try congruence; assert (t0 = t) as -> by congruence.
  - (* still digging *)
    rewrite Hh in Hr; simpl in Hr. apply Qle_bool_false in Hr.
    set (t1 := withProgress t (progressOf t + p)) in *.
    assert (Ht1 : getTile (setTile w (Qfloor px) (Qfloor py) t1) px py = Some t1)
      by (by eapply getTile_setTile).
    destruct (IH _ t1 h Ht1 Hd Hk Hh) as (IHlen & IHk & t' & IHt' & IHdug & IHty).
    change (progressOf t1) with (progressOf t + p)%Q in *.
    simpl. rewrite E.
    destruct (digRepeat (setTile w (Qfloor px) (Qfloor py) t1) px py ps)
      as [w2 bs] eqn:Er; simpl in *.
    split; [by rewrite IHlen|]. split.
    + intros [|k] Hlt.
      * rewrite accumulated_first. simpl. split; [done|]. intros [? _]. lra.
      * rewrite accumulated_cons. simpl. rewrite IHk by lia. split.
        -- intros [H1 H2]. split; [done|]. intros [|j] Hj.
           ++ by rewrite accumulated_first.
           ++ rewrite accumulated_cons. apply H2. lia.
        -- intros [H1 H2]. split; [done|]. intros j Hj.
           rewrite <- accumulated_cons. apply H2. lia.
    + exists t'. split; [done|]. split; [|done]. rewrite IHdug. split.
      * intros (j & Hj & Hacc). exists (S j). split; [lia|done].
      * intros ([|j] & Hj & Hacc).
        -- rewrite accumulated_first in Hacc. lra.
        -- exists j. split; [lia|done].
  - (* breakthrough *)
    rewrite Hh in Hr; simpl in Hr. apply Qle_bool_iff in Hr.
    set (t1 := opened (withProgress t (progressOf t + p))) in *.
    assert (Ht1 : getTile (setTile w (Qfloor px) (Qfloor py) t1) px py = Some t1)
      by (by eapply getTile_setTile).
    simpl. rewrite E. rewrite (digRepeat_dug px py ps _ t1 Ht1 eq_refl). simpl.
    split; [by rewrite length_replicate|]. split.
    + intros [|k] Hlt.
      * rewrite accumulated_first. simpl. split; [|done].
        intros _. split; [done|]. intros j Hj. lia.
      * simpl. rewrite lookup_replicate_2 by lia. split; [done|].
        intros [_ H2]. specialize (H2 0%nat ltac:(lia)).
        rewrite accumulated_first in H2. lra.
    + exists t1. split; [done|]. split; [|done]. split; [|done].
      intros _. exists 0%nat. split; [lia|]. by rewrite accumulated_first.
Qed.

(** ** Frame of a cell write *)

Lemma shape_setTile w tx ty t : shape (setTile w tx ty t) = shape w.
Proof.
  unfold shape, setTile; simpl. f_equal.
  apply list_eq; intros i. rewrite !list_lookup_fmap.
  destruct (decide (Z.to_nat ty = i)) as [<-|Hne].
  - rewrite list_lookup_alter_eq.
    destruct (tiles w !! Z.to_nat ty); simpl; [|done].
    by rewrite length_insert.
  - by rewrite list_lookup_alter_ne.
Qed.

Lemma tileIx_setTile_ne w tx ty t i j :
  (i, j) ≠ (Z.to_nat ty, Z.to_nat tx) →
  tileIx (tiles (setTile w tx ty t)) i j = tileIx (tiles w) i j.
Proof. intros H. by apply tileIx_set_ne. Qed.

Lemma tileIx_setTile_inv w tx ty t i j t' :
  tileIx (tiles (setTile w tx ty t)) i j = Some t' →
  t' = t ∨ tileIx (tiles w) i j = Some t'.
Proof.
  destruct (decide ((i, j) = (Z.to_nat ty, Z.to_nat tx))) as [[= -> ->]|Hne].
  - unfold setTile, tileIx; simpl. rewrite list_lookup_alter_eq.
    destruct (tiles w !! Z.to_nat ty) as [row|]; simpl; [|done].
    intros [[_ [? ?]]|[? _]]%list_lookup_insert_Some; [by left|done].
  - rewrite tileIx_setTile_ne by done. by right.
Qed.

Lemma digTile_frame w px py p :
  shape (digTile w px py p).1 = shape w
  ∧ ∀ i j, (i, j) ≠ (Z.to_nat (Qfloor py), Z.to_nat (Qfloor px)) →
      tileIx (tiles (digTile w px py p).1) i j = tileIx (tiles w) i j.
Proof.
  destruct (digTile_case w px py p) as [_ E|t _ _ _ _ E|t _ _ _ _ E];
    rewrite E; cbn [fst]; (split; [|intros i j Hne]);
    auto using shape_setTile, tileIx_setTile_ne.
Qed.

(** ** The tile invariant *)

Lemma foldl_keeps {A B} (P : A → Prop) (f : A → B → A) (l : list B) :
  (∀ a b, P a → P (f a b)) → ∀ a, P a → P (foldl f a l).
Proof. intros Hf. induction l as [|b l IH]; simpl; eauto. Qed.

Lemma sound_setTile s w tx ty t :
  sound s w → tileOk t → sound s (setTile w tx ty t).
Proof.
  intros [Hok Hs] Ht. split; [|by rewrite shape_setTile].
  intros i j t' [->|H]%tileIx_setTile_inv; eauto.
Qed.

Lemma tileOk_opened t : tileOk (opened t).
Proof. done. Qed.

Lemma sound_openAt s w tx ty : sound s w → sound s (openAt w tx ty).
Proof.
  intros H. unfold openAt. destruct (tileAt w tx ty); [|done].
  apply sound_setTile; [done|apply tileOk_opened].
Qed.

Lemma sound_carveCell s w tx ty : sound s w → sound s (carveCell w tx ty).
Proof.
  intros H. unfold carveCell.
  destruct (isValidTile w tx ty && (10 <=? ty)); auto using sound_openAt.
Qed.

Lemma sound_carveDisk s w x y width :
  sound s w → sound s (carveDisk w x y width).
Proof.
  unfold carveDisk. apply foldl_keeps. intros w1 oy H1.
  revert w1 H1. apply foldl_keeps. intros w2 ox H2.
  destruct (ox * ox + oy * oy <=? width * width); auto using sound_carveCell.
Qed.

Lemma sound_carveTunnel s w x1 y1 x2 y2 width :
  sound s w → sound s (carveTunnel w x1 y1 x2 y2 width).
Proof.
  unfold carveTunnel. intros H.
  destruct (_ =? 0); [done|]. revert w H. apply foldl_keeps.
  intros w1 i H1. by apply sound_carveDisk.
Qed.

Lemma sound_generateCave s w cx cy r noise fade :
  sound s w → sound s (generateCave w cx cy r noise fade).
Proof.
  unfold generateCave. apply foldl_keeps. intros w1 y H1.
  revert w1 H1. apply foldl_keeps. intros w2 x H2.
  repeat (match goal with |- context [if ?b then _ else _] => destruct b end);
    auto using sound_openAt.
Qed.

Lemma sound_startChamber s w : sound s w → sound s (startChamber w).
Proof.
  unfold startChamber. apply foldl_keeps. intros w1 y H1.
  revert w1 H1. apply foldl_keeps. intros w2 x H2.
  destruct (isValidTile w2 x y); auto using sound_openAt.
Qed.

Lemma tileIx_initTiles width height i j t :
  tileIx (initTiles width height) i j = Some t ↔
  (Z.of_nat i < height ∧ Z.of_nat j < width) ∧ t = initTile height (Z.of_nat i).
Proof.
  unfold tileIx, initTiles. rewrite list_lookup_fmap.
  destruct (seqZ 0 height !! i) as [y|] eqn:Hy; simpl.
  - apply lookup_seqZ in Hy as [-> Hlt]. rewrite Z.add_0_l.
    split.
    + intros [-> Hj]%lookup_replicate_1. split; [lia|done].
    + intros [[_ Hj] ->]. apply lookup_replicate_2. lia.
  - split; [done|]. intros [[Hi _] _].
    rewrite lookup_seqZ_lt in Hy by lia. done.
Qed.

Lemma sound_initWorld width height :
  sound (shape (initWorld width height)) (initWorld width height).
Proof.
  split; [|done]. intros i j t [_ ->]%tileIx_initTiles.
  unfold initTile, tileOk. by destruct (_ <? 5).
Qed.

Lemma sound_generateWorld width height script :
  sound (shape (initWorld width height)) (generateWorld width height script).
Proof.
  unfold generateWorld, generateCaveSystems. apply sound_startChamber.
  apply foldl_keeps; [|apply sound_initWorld].
  intros w [x1 y1 x2 y2 wd|cx cy r noise fade] H; simpl;
    auto using sound_carveTunnel, sound_generateCave.
Qed.

Lemma sound_digTile s w px py p : sound s w → sound s (digTile w px py p).1.
Proof.
  intros H. pose proof H as [Hok _].
  destruct (digTile_case w px py p) as [_ E|t Ht Hd _ _ E|t Ht _ _ _ E];
    rewrite E; simpl; [done| |].
  - apply sound_setTile; [done|]. unfold tileOk; simpl. congruence.
  - apply sound_setTile; [done|]. apply tileOk_opened.
Qed.

Lemma sound_digAll s calls : ∀ w, sound s w → sound s (digAll w calls).
Proof.
  induction calls as [|[[px py] p] calls IH]; intros w H; simpl; [done|].
  by apply IH, sound_digTile.
Qed.

Lemma shape_initWorld width height :
  shape (initWorld width height)
  = (width, height, replicate (Z.to_nat height) (Z.to_nat width)).
Proof.
  unfold shape, initWorld, initTiles; simpl. f_equal.
  rewrite <- list_fmap_compose.
  apply list_eq; intros i. rewrite list_lookup_fmap.
  destruct (decide (Z.of_nat i < height)) as [Hlt|Hge].
  - rewrite lookup_seqZ_lt by done; simpl.
    rewrite length_replicate. symmetry. apply lookup_replicate_2. lia.
  - rewrite lookup_seqZ_ge by lia; simpl.
    symmetry. apply lookup_replicate_None. lia.
Qed.

Lemma digRepeat_progress_mono px py ps : ∀ w t,
  Forall (λ p, 0 <= p)%Q ps → getTile w px py = Some t →
  ∃ t', getTile (digRepeat w px py ps).1 px py = Some t'
    ∧ (progressOf t <= progressOf t')%Q.
Proof.
  induction ps as [|p ps IH]; intros w t Hps Ht; simpl.
  { exists t. split; [done|lra]. }
  apply Forall_cons in Hps as [Hp Hps].
  destruct (digTile_progress_mono w px py p t Hp Ht) as (t1 & Ht1 & Hle).
  destruct (digTile w px py p) as [w1 b] eqn:E; simpl in *.
  destruct (IH w1 t1 Hps Ht1) as (t' & Ht' & Hle').
  destruct (digRepeat w1 px py ps) as [w2 bs]; simpl in *.
  exists t'. split; [done|lra].
Qed.

(** ** Digging: the contract of [digTile] *)

(** C1.  A [digTile] call is a no-op returning [false] when the floored
    coordinates are out of bounds (no tile), or the tile is already dug,
    or it is not dirt.  On an undug dirt tile it adds the power to the
    tile's progress and returns [true] exactly when the new progress
    reaches the hardness, in which case the tile is dug and air, and
    otherwise stays undug dirt.  With non-negative powers the progress of
    the tile never decreases, over one call or many.  Over repeated calls
    on one undug dirt tile,
    call [k] returns [true] exactly when the progress accumulated up to
    call [k] is the first to reach the hardness, and the tile is dug
    afterwards exactly when some accumulated progress reached it. *)
Theorem digTile_accumulates_to_breakthrough (w : World) (px py p : Q) :
  ((isValidTile w (Qfloor px) (Qfloor py) = false
    ∨ getTile w px py = None
    ∨ ∃ t, getTile w px py = Some t ∧ (dug t = true ∨ type t ≠ dirt)) →
   digTile w px py p = (w, false))
  ∧ (∀ t, getTile w px py = Some t → dug t = false → type t = dirt →
       ∃ t', getTile (digTile w px py p).1 px py = Some t'
         ∧ digProgress t' = Some (progressOf t + p)%Q
         ∧ hardness t' = hardness t
         ∧ ((digTile w px py p).2 = true
            ↔ ∃ h, hardness t = Some h ∧ (h <= progressOf t + p)%Q)
         ∧ (if (digTile w px py p).2
            then dug t' = true ∧ type t' = air
            else dug t' = false ∧ type t' = dirt))
  ∧ (∀ t, (0 <= p)%Q → getTile w px py = Some t →
       ∃ t', getTile (digTile w px py p).1 px py = Some t'
         ∧ (progressOf t <= progressOf t')%Q)
  ∧ (∀ t ps, Forall (λ q, 0 <= q)%Q ps → getTile w px py = Some t →
       ∃ t', getTile (digRepeat w px py ps).1 px py = Some t'
         ∧ (progressOf t <= progressOf t')%Q)
  ∧ (∀ t h ps, getTile w px py = Some t → dug t = false → type t = dirt →
       hardness t = Some h →
       length (digRepeat w px py ps).2 = length ps
       ∧ (∀ k, (k < length ps)%nat →
            (digRepeat w px py ps).2 !! k = Some true
            ↔ (h <= accumulated (progressOf t) ps k)%Q
              ∧ ∀ j, (j < k)%nat → (accumulated (progressOf t) ps j < h)%Q)
       ∧ ∃ t', getTile (digRepeat w px py ps).1 px py = Some t'
           ∧ (dug t' = true
              ↔ ∃ j, (j < length ps)%nat
                     ∧ (h <= accumulated (progressOf t) ps j)%Q)
           ∧ (if dug t' then type t' = air else type t' = dirt)).
Proof.
  split.
  { intros [Hv|H]; [|by apply digTile_skip].
    unfold digTile. by rewrite Hv. }
  split; [intros t; apply digTile_live|].
  split; [intros t; apply digTile_progress_mono|].
  split; [intros t ps; apply digRepeat_progress_mono|].
  intros t h ps. apply digRepeat_trace.
Qed.

(** On the dirt tile in row 5 of [smallWorld] (hardness 26/32), three
    calls of power 1/2 return [false; true; false], and one call of power
    1/4 raises the progress from 0 to 1/4. *)
Lemma digTile_accumulates_to_breakthrough_witness :
  ((digRepeat smallWorld 0 5 [1 # 2; 1 # 2; 1 # 2]%Q).2 !! 1%nat = Some true
   ↔ (26 # 32 <= accumulated 0 [1 # 2; 1 # 2; 1 # 2] 1)%Q
     ∧ ∀ j, (j < 1)%nat →
         (accumulated 0 [1 # 2; 1 # 2; 1 # 2] j < 26 # 32)%Q)
  ∧ ∃ t', getTile (digTile smallWorld 0 5 (1 # 4)).1 0 5 = Some t'
          ∧ (progressOf (initTile 8 5) <= progressOf t')%Q.
Proof.
  split.
  - destruct (digTile_accumulates_to_breakthrough smallWorld 0 5 0)
      as (_ & _ & _ & _ & H).
    destruct (H (initTile 8 5) (26 # 32)%Q [1 # 2; 1 # 2; 1 # 2]%Q
                eq_refl eq_refl eq_refl eq_refl) as (_ & Hk & _).
    apply (Hk 1%nat). simpl. lia.
  - destruct (digTile_accumulates_to_breakthrough smallWorld 0 5 (1 # 4))
      as (_ & _ & H & _).
    apply (H (initTile 8 5)); [vm_compute; discriminate|reflexivity].
Defined.

(** C10.  A [digTile] call keeps the dimensions of the grid and every
    cell other than the one at the floored coordinates; when those
    coordinates are outside the grid it changes nothing at all; and at
    most one cell turns from undug dirt into dug air. *)
Theorem digTile_touches_one_cell (w : World) (px py p : Q) :
  shape (digTile w px py p).1 = shape w
  ∧ (∀ i j, (i, j) ≠ (Z.to_nat (Qfloor py), Z.to_nat (Qfloor px)) →
       tileIx (tiles (digTile w px py p).1) i j = tileIx (tiles w) i j)
  ∧ (isValidTile w (Qfloor px) (Qfloor py) = false →
     (digTile w px py p).1 = w)
  ∧ (∀ i j i' j',
       flipped w (digTile w px py p).1 i j →
       flipped w (digTile w px py p).1 i' j' → (i, j) = (i', j')).
Proof.
  destruct (digTile_frame w px py p) as [Hs Hf].
  split; [done|]. split; [done|]. split.
  - intros Hv. unfold digTile. by rewrite Hv.
  - assert (Hone : ∀ i j, flipped w (digTile w px py p).1 i j →
                   (i, j) = (Z.to_nat (Qfloor py), Z.to_nat (Qfloor px))).
    { intros i j (t & t' & Ht & Ht' & Hd & _ & Hd' & _).
      destruct (decide ((i, j) = (Z.to_nat (Qfloor py), Z.to_nat (Qfloor px))))
        as [|Hne]; [done|].
      rewrite Hf in Ht' by done. congruence. }
    intros i j i' j' H1 H2. by rewrite (Hone _ _ H1), (Hone _ _ H2).
Qed.

(** A power of 100 on the dirt tile at column 1, row 6 of [smallWorld]
    leaves the tile below it, at row 7, as it was. *)
Lemma digTile_touches_one_cell_witness :
  tileIx (tiles (digTile smallWorld 1 6 100).1) 7 1
  = tileIx (tiles smallWorld) 7 1.
Proof.
  destruct (digTile_touches_one_cell smallWorld 1 6 100) as (_ & H & _).
  apply H. vm_compute. congruence.
Defined.

(** ** The tile invariant over generation and digging *)

(** C2.  In a world produced by [generateWorld] (whatever caves and
    tunnels the generator carves) and then subjected to any sequence of
    [digTile] calls, the grid still has its [height] rows of [width]
    tiles, and every tile whose [dug] flag is set has type air. *)
Theorem dug_tiles_are_air (width height : Z) (script : list CarveOp)
    (calls : list (Q * Q * Q)) :
  shape (digAll (generateWorld width height script) calls)
  = (width, height, replicate (Z.to_nat height) (Z.to_nat width))
  ∧ ∀ i j t,
      tileIx (tiles (digAll (generateWorld width height script) calls)) i j
      = Some t →
      dug t = true → type t = air.
Proof.
  destruct (sound_digAll _ calls _ (sound_generateWorld width height script))
    as [Hok Hs].
  split; [by rewrite Hs, shape_initWorld|]. intros i j t Ht. by apply (Hok i j).
Qed.

(** In [tunnelWorld], after a breakthrough at column 2, row 6, that tile
    is dug and is air. *)
Lemma dug_tiles_are_air_witness :
  ∃ t, tileIx (tiles (digAll tunnelWorld [(2, 6, 1)]%Q)) 6 2 = Some t
       ∧ dug t = true ∧ type t = air.
Proof.
  eexists. split; [vm_compute; reflexivity|]. split; [reflexivity|].
  destruct (dug_tiles_are_air 8 14 [OpTunnel 1 11 5 11 1] [(2, 6, 1)]%Q)
    as [_ H].
  eapply (H 6%nat 2%nat); [vm_compute; reflexivity|reflexivity].
Defined.

(** ** The initial layers of the world *)

Lemma depth_lt_one (height y : Z) :
  y < height → 0 < height → (inject_Z y / inject_Z height < 1)%Q.
Proof.
  intros Hy Hh. apply Qlt_shift_div_r.
  - change 0%Q with (inject_Z 0). by rewrite <- Zlt_Qlt.
  - rewrite Qmult_1_l. by rewrite <- Zlt_Qlt.
Qed.

Lemma depth_mono (height y1 y2 : Z) :
  0 < height → y1 < y2 →
  (inject_Z y1 / inject_Z height < inject_Z y2 / inject_Z height)%Q.
Proof.
  intros Hh Hy. unfold Qdiv. apply Qmult_lt_compat_r.
  - apply Qinv_lt_0_compat. change 0%Q with (inject_Z 0).
    by rewrite <- Zlt_Qlt.
  - by rewrite <- Zlt_Qlt.
Qed.

Lemma rowHardness_mono (height y1 y2 : Z) :
  0 < height → y1 < y2 →
  (rowHardness height y1 < rowHardness height y2)%Q.
Proof.
  intros Hh Hy. unfold rowHardness.
  pose proof (depth_mono height y1 y2 Hh Hy). lra.
Qed.

(** C9, as the code has it.  After the initialisation loop of
    [generateWorld] every cell of a row [>= 5] is undug dirt without
    progress whose hardness is exactly [0.5 + 0.5 * (row / height)], and
    every cell of a row [< 5] is (dug) air.  Underground the hardness
    grows strictly with the row, stays below 1, and is lowest in row 5,
    where it is [0.5 + 2.5 / height], strictly more than 0.5. *)
Theorem initWorld_layers (width height : Z) :
  (∀ i j, Z.of_nat i < height → Z.of_nat j < width →
     ∃ t, tileIx (tiles (initWorld width height)) i j = Some t
       ∧ if Z.of_nat i <? 5 then type t = air ∧ dug t = true
         else type t = dirt ∧ dug t = false ∧ digProgress t = None
              ∧ hardness t = Some (rowHardness height (Z.of_nat i)))
  ∧ (∀ y1 y2, 5 <= y1 → y1 < y2 → y2 < height →
       (rowHardness height y1 < rowHardness height y2)%Q)
  ∧ (∀ y, 5 <= y → y < height →
       (rowHardness height 5 <= rowHardness height y)%Q
       ∧ (rowHardness height y < 1)%Q)
  ∧ (5 < height →
       (rowHardness height 5 == (1 # 2) + (5 # 2) / inject_Z height)%Q
       ∧ (1 # 2 < rowHardness height 5)%Q).
Proof.
  split; [|split; [|split]].
  - intros i j Hi Hj. exists (initTile height (Z.of_nat i)). split.
    + apply tileIx_initTiles. done.
    + unfold initTile. by destruct (Z.of_nat i <? 5).
  - intros y1 y2 H1 H2 H3. apply rowHardness_mono; lia.
  - intros y H1 H2. split.
    + destruct (decide (y = 5)) as [->|Hne]; [lra|].
      apply Qlt_le_weak, rowHardness_mono; lia.
    + unfold rowHardness.
      pose proof (depth_lt_one height y ltac:(lia) ltac:(lia)). lra.
  - intros Hh. split.
    + unfold rowHardness. change (5 # 2)%Q with (inject_Z 5 * (1 # 2))%Q.
      unfold Qdiv. ring.
    + unfold rowHardness.
      pose proof (depth_mono height 0 5 ltac:(lia) ltac:(lia)) as H.
      unfold Qdiv at 1 in H. rewrite Qmult_0_l in H. lra.
Qed.

(** The world of the game is 400 by 300: row 5 is dirt of hardness
    [1/2 + (5/300) / 2]. *)
Lemma initWorld_layers_witness :
  ∃ t, tileIx (tiles (initWorld 400 300)) 5 0 = Some t
    ∧ type t = dirt ∧ dug t = false ∧ digProgress t = None
    ∧ hardness t = Some (rowHardness 300 5).
Proof.
  destruct (initWorld_layers 400 300) as (H & _).
  apply (H 5%nat 0%nat); reflexivity.
Defined.

(** C9 as stated fails in the top underground row: in the 400 by 300
    world the dirt of row 5 has hardness 305/600, which is not 0.5. *)
Lemma initWorld_top_row_harder_than_half :
  ∃ t h, tileAt (initWorld 400 300) 0 5 = Some t
    ∧ type t = dirt ∧ hardness t = Some h
    ∧ (h == 61 # 120)%Q ∧ ¬ (h == 1 # 2)%Q.
Proof.
  exists (initTile 300 5), (rowHardness 300 5).
  split; [by apply tileIx_initTiles|].
  split; [reflexivity|]. split; [reflexivity|].
  split; [reflexivity|]. intros H. discriminate H.
Qed.

(** ** Path finding *)

Lemma canMoveNode_floor w px py :
  canMoveNode w (Qfloor px, Qfloor py) = canMove w px py.
Proof.
  unfold canMoveNode, canMove, getTile; cbn [fst snd]. by rewrite !Qfloor_Z.
Qed.

Lemma nodeEqb_eq (a b : Node) : nodeEqb a b = true ↔ a = b.
Proof.
  destruct a as [a1 a2], b as [b1 b2]. unfold nodeEqb; simpl.
  rewrite andb_true_iff, !Z.eqb_eq. split; [intros [-> ->]|intros [= -> ->]]; done.
Qed.

Lemma search_S n w goal st :
  search (S n) w goal st
  = match expand w goal st with
    | inl r => r
    | inr st' => search n w goal st'
    end.
Proof. reflexivity. Qed.

Lemma walkBack_root fuel cf current path :
  cf !! current = None → walkBack fuel cf current path = Some path.
Proof. intros H. destruct fuel; simpl; by rewrite H. Qed.

(** A node whose own score reads as [Infinity] opens no neighbour. *)
Lemma relax_stuck w goal current st neighbor :
  orInfinity (gScore st !! current) = Inf →
  relax w goal current st neighbor = st.
Proof.
  intros H. unfold relax. destruct (negb _); [done|]. by rewrite H.
Qed.

Lemma relax_all_stuck w goal current st ns :
  orInfinity (gScore st !! current) = Inf →
  foldl (relax w goal current) st ns = st.
Proof.
  intros H. induction ns as [|n ns IH]; simpl; [done|].
  by rewrite relax_stuck.
Qed.

(** The start node is entered with [gScore] 0, and [0 || Infinity] is
    [Infinity]: the first round opens nothing. *)
Lemma expand_start w goal start f :
  expand w goal (mkSearch [start] ∅ {[ start := Fin 0 ]} f)
  = if nodeEqb start goal then inl (Found [center start])
    else inr (mkSearch [] ∅ {[ start := Fin 0 ]} f).
Proof.
  unfold expand. cbn [openSet lowest cameFrom gScore fScore].
  destruct (nodeEqb start goal).
  - unfold reconstructPath. by rewrite walkBack_root by apply lookup_empty.
  - rewrite relax_all_stuck; [done|].
    cbn [gScore]. by rewrite lookup_singleton_eq.
Qed.

(** What [findPath] returns, case by case. *)
Lemma findPath_cases w sx sy ex ey :
  findPath w sx sy ex ey
  = if canMove w sx sy && canMove w ex ey
    then if nodeEqb (Qfloor sx, Qfloor sy) (Qfloor ex, Qfloor ey)
         then Found [center (Qfloor sx, Qfloor sy)]
         else NoPath
    else NoPath.
Proof.
  unfold findPath. rewrite !canMoveNode_floor.
  destruct (canMove w sx sy); cbn [negb orb andb]; [|done].
  destruct (canMove w ex ey); cbn [negb orb andb]; [|done].
  change maxIterations with (S (S 498%nat)).
  rewrite search_S, expand_start.
  destruct (nodeEqb _ _); [done|]. by rewrite search_S.
Qed.

Lemma search_exhausted n w goal : ∀ st st',
  after n w goal st = Some st' → search n w goal st = NoPath.
Proof.
  induction n as [|n IH]; intros st st' H; simpl in *; [done|].
  destruct (expand w goal st) as [r|st1]; [done|]. by eapply IH.
Qed.

(** C6.  [findPath] returns [null] at once when the tile of either end
    point is not passable; the main loop that has made all of its 500
    rounds without returning ends with [null]; and the call always
    returns, a path or [null]. *)
Theorem findPath_null_not_error (w : World) (sx sy ex ey : Q) :
  (canMove w sx sy = false ∨ canMove w ex ey = false →
   findPath w sx sy ex ey = NoPath)
  ∧ (∀ goal st st', after maxIterations w goal st = Some st' →
       search maxIterations w goal st = NoPath)
  ∧ findPath w sx sy ex ey ≠ Diverges.
Proof.
  split; [|split].
  - rewrite findPath_cases. intros [-> | ->]; [done|]. by rewrite andb_false_r.
  - intros goal st st'. apply search_exhausted.
  - rewrite findPath_cases.
    destruct (_ && _); [|done]. by destruct (nodeEqb _ _).
Qed.

(** From [crowded] the loop makes 500 rounds, each taking one node that
    is not the goal, and gives up with one node still open; and from a
    sky tile of [smallWorld] to a dirt tile it does not start at all. *)
Lemma findPath_null_not_error_witness :
  search maxIterations smallWorld (-5, -5) crowded = NoPath
  ∧ findPath smallWorld 0 0 0 6 = NoPath.
Proof.
  destruct (findPath_null_not_error smallWorld 0 0 0 6) as (H1 & H2 & _).
  split.
  - apply (H2 (-5, -5) crowded (mkSearch [(500, 0)] ∅ ∅ ∅)).
    vm_compute. reflexivity.
  - apply H1. right. reflexivity.
Defined.

(** *** What a returned path looks like *)

Lemma walkBack_chain cf : ∀ fuel current rest p,
  walkBack fuel cf current (center <$> (current :: rest)) = Some p →
  links cf (current :: rest) →
  ∃ chain root,
    p = center <$> (chain ++ current :: rest)
    ∧ links cf (chain ++ current :: rest)
    ∧ head (chain ++ current :: rest) = Some root ∧ cf !! root = None.
Proof.
  assert (Hroot : ∀ current rest p,
    cf !! current = None → Some (center <$> (current :: rest)) = Some p →
    links cf (current :: rest) →
    ∃ chain root,
      p = center <$> (chain ++ current :: rest)
      ∧ links cf (chain ++ current :: rest)
      ∧ head (chain ++ current :: rest) = Some root ∧ cf !! root = None).
  { intros current rest p E [= <-] Hl. by exists [], current. }
  induction fuel as [|fuel IH]; intros current rest p H Hl; cbn [walkBack] in H;
    destruct (cf !! current) as [parent|] eqn:E; try done; eauto.
  destruct (IH parent (current :: rest) p H) as (chain & root & -> & Hl' & Hh & Hr).
  { intros [|i] a b Ha Hb; simpl in *.
    - congruence.
    - by eapply (Hl i). }
  exists (chain ++ [parent]), root. by rewrite <- !app_assoc.
Qed.

(** [reconstructPath] returns the centres of a chain of parents that
    starts at a node without parent and ends at the node it is called
    on. *)
Lemma reconstructPath_chain cf goal p :
  reconstructPath cf goal = Some p →
  ∃ chain root,
    p = center <$> chain ∧ links cf chain
    ∧ head chain = Some root ∧ cf !! root = None
    ∧ last chain = Some goal.
Proof.
  intros H. destruct (walkBack_chain cf (size cf) goal [] p H)
    as (chain & root & -> & Hl & Hh & Hr).
  { intros [|i] a b Ha Hb; simpl in *; done. }
  exists (chain ++ [goal]), root. repeat split; try done. apply last_snoc.
Qed.

(** C5.  The code at the input the claim names.  On the fully open 5
    by 5 grid [findPath] from (0,0) to (4,4) returns [null], where a
    path to (4.5, 4.5) exists and is promised: the score 0 of the start
    is read as [Infinity] by [gScore.get(...) || Infinity], so that no
    neighbour of the start is ever opened.  The one kind of call that
    does succeed, with both ends in one tile, returns that tile's centre
    alone; and [reconstructPath] puts the root of the parent chain, the
    start, at the head of the path. *)
Lemma findPath_open_grid_fails :
  findPath openGrid5 0 0 4 4 = NoPath
  ∧ findPath openGrid5 0 0 0 0 = Found [center (0, 0)]
  ∧ reconstructPath {[ ((1, 1) : Node) := ((0, 0) : Node) ]} (1, 1)
    = Some [center (0, 0); center (1, 1)].
Proof. vm_compute. done. Qed.

(** ** Health *)

Lemma takeDamage_dies a d foods :
  (Ant.health a - d <= 0)%Q →
  (takeDamage a d foods).1 = setVitals a 0 false.
Proof.
  intros H. unfold takeDamage. apply Qle_bool_iff in H. by rewrite H.
Qed.

Lemma takeDamage_survives a d foods :
  (0 < Ant.health a - d)%Q →
  takeDamage a d foods = (setVitals a (Ant.health a - d) (Ant.alive a), foods).
Proof.
  intros H. unfold takeDamage. apply Qle_bool_false in H. by rewrite H.
Qed.

Lemma takeDamage_cases a d foods :
  ((Ant.health a - d <= 0)%Q ∧ (takeDamage a d foods).1 = setVitals a 0 false)
  ∨ ((0 < Ant.health a - d)%Q
     ∧ takeDamage a d foods
       = (setVitals a (Ant.health a - d) (Ant.alive a), foods)).
Proof.
  destruct (Qlt_le_dec 0 (Ant.health a - d)) as [H|H].
  - right. split; [done|]. by apply takeDamage_survives.
  - left. split; [done|]. by apply takeDamage_dies.
Qed.

Lemma takeDamage_dead_stays a d foods :
  Ant.alive a = false → Ant.alive (takeDamage a d foods).1 = false.
Proof.
  intros H. destruct (takeDamage_cases a d foods) as [[_ E]|[_ E]];
    rewrite E; done.
Qed.

Lemma takeDamages_dead_stays ds : ∀ a foods,
  Ant.alive a = false → Ant.alive (takeDamages a ds foods).1 = false.
Proof.
  induction ds as [|d ds IH]; intros a foods H; simpl; [done|].
  destruct (takeDamage a d foods) as [a1 foods1] eqn:E.
  apply IH. change a1 with (a1, foods1).1. rewrite <- E.
  by apply takeDamage_dead_stays.
Qed.

Lemma deaths_dead ds : ∀ a foods,
  Ant.alive a = false → deaths a ds foods = 0%nat.
Proof.
  induction ds as [|d ds IH]; intros a foods H; simpl; [done|].
  rewrite H; simpl. apply IH. by apply takeDamage_dead_stays.
Qed.

Lemma deaths_once ds : ∀ a foods, (deaths a ds foods <= 1)%nat.
Proof.
  induction ds as [|d ds IH]; intros a foods; simpl; [lia|].
  destruct (Ant.alive a && negb (Ant.alive (takeDamage a d foods).1)) eqn:E.
  - apply andb_true_iff in E as [_ E%negb_true_iff].
    rewrite deaths_dead by done. lia.
  - specialize (IH (takeDamage a d foods).1 (takeDamage a d foods).2). lia.
Qed.

(** Every ant object is within its health bounds, and is dead exactly
    when its health is 0. *)
Lemma lives_inv a :
  lives a →
  (0 <= Ant.health a <= Ant.maxHealth a)%Q
  ∧ (Ant.alive a = false ↔ (Ant.health a == 0)%Q).
Proof.
  induction 1 as [a Ha Hm Hh|a d foods Hl [Hb Hiff] Hd|a b Hl [Hb Hiff] E1 E2 E3].
  - split; [lra|]. rewrite Ha. split; [done|]. lra.
  - destruct (takeDamage_cases a d foods) as [[Hle E]|[Hlt E]]; rewrite E; simpl.
    + split; [lra|]. split; [reflexivity|done].
    + split; [lra|]. rewrite Hiff. split; lra.
  - by rewrite E1, E2, E3.
Qed.

(** C3.  On an ant whose health lies in [[0, maxHealth]], a call of
    [takeDamage] with a non-negative amount leaves the health in
    [[0, maxHealth]] and kills whenever the health comes out as 0; on a
    living ant, and on every ant object of the game ([lives]), the ant is
    dead after the call if and only if its health is 0.  A dead ant stays
    dead under any further calls, so that a run of calls contains at most
    one death. *)
Theorem takeDamage_clamps_and_kills_once (a : Ant.t) (d : Q)
    (foods : list FoodSource.t) :
  (0 <= Ant.health a <= Ant.maxHealth a)%Q → (0 <= d)%Q →
  (0 <= Ant.health (takeDamage a d foods).1
     <= Ant.maxHealth (takeDamage a d foods).1)%Q
  ∧ ((Ant.health (takeDamage a d foods).1 == 0)%Q →
     Ant.alive (takeDamage a d foods).1 = false)
  ∧ (Ant.alive a = true ∨ lives a →
     (Ant.alive (takeDamage a d foods).1 = false
      ↔ (Ant.health (takeDamage a d foods).1 == 0)%Q))
  ∧ (∀ ds foods',
       Ant.alive (takeDamage a d foods).1 = false →
       Ant.alive (takeDamages (takeDamage a d foods).1 ds foods').1 = false)
  ∧ (∀ b ds foods', (deaths b ds foods' <= 1)%nat).
Proof.
  intros Hb Hd. split; [|split; [|split; [|split]]].
  - destruct (takeDamage_cases a d foods) as [[_ E]|[Hlt E]];
      rewrite E; simpl; lra.
  - destruct (takeDamage_cases a d foods) as [[_ E]|[Hlt E]];
      rewrite E; simpl; [done|lra].
  - intros Hl.
    destruct (takeDamage_cases a d foods) as [[_ E]|[Hlt E]]; rewrite E; simpl.
    + split; [reflexivity|done].
    + destruct Hl as [->|Hl%lives_inv].
      * split; [done|lra].
      * destruct Hl as [_ ->]. split; lra.
  - intros ds foods'. apply takeDamages_dead_stays.
  - intros b ds foods'. apply deaths_once.
Qed.

(** A fresh worker (health 100) hit for 30 twice and then for 60. *)
Lemma takeDamage_clamps_and_kills_once_witness :
  (0 <= Ant.health (takeDamage (newWorkerAnt 0 0 false) 30 []).1
     <= Ant.maxHealth (takeDamage (newWorkerAnt 0 0 false) 30 []).1)%Q
  ∧ (deaths (newWorkerAnt 0 0 false) [30; 30; 60; 5]%Q [] <= 1)%nat.
Proof.
  destruct (takeDamage_clamps_and_kills_once (newWorkerAnt 0 0 false) 30 [])
    as (H1 & _ & _ & _ & H5).
  - vm_compute. split; discriminate.
  - vm_compute. discriminate.
  - split; [exact H1|apply H5].
Defined.

(** ** Food *)

Lemma alter_as_insert {A} (f : A → A) (l : list A) i x :
  l !! i = Some x → alter f i l = <[i := f x]> l.
Proof.
  intros H. apply list_eq; intros j.
  destruct (decide (i = j)) as [<-|Hne].
  - rewrite list_lookup_alter_eq, H.
    by rewrite list_lookup_insert_eq by (by eapply lookup_lt_Some).
  - by rewrite list_lookup_alter_ne, list_lookup_insert_ne.
Qed.

Lemma sumQ_insert {A} (f : A → Q) (l : list A) : ∀ i x y,
  l !! i = Some x →
  (sumQ (f <$> <[i := y]> l) == sumQ (f <$> l) - f x + f y)%Q.
Proof.
  induction l as [|a l IH]; intros [|i] x y H; try done.
  - injection H as ->. change (f y + sumQ (f <$> l)
                               == f x + sumQ (f <$> l) - f x + f y)%Q. lra.
  - change (f a + sumQ (f <$> <[i := y]> l)
            == f a + sumQ (f <$> l) - f x + f y)%Q.
    rewrite (IH i x y H). lra.
Qed.

Lemma workerAt_Some g ci wi me :
  workerAt g ci wi = Some me ↔
  ∃ c, Game.colonies g !! ci = Some c ∧ Colony.workers c !! wi = Some me.
Proof.
  unfold workerAt. destruct (Game.colonies g !! ci) as [c|]; simpl.
  - split; [eauto|]. by intros (? & [= <-] & ?).
  - split; [done|]. by intros (? & ? & ?).
Qed.

Lemma setWorkerAt_colonies g ci wi a c :
  Game.colonies g !! ci = Some c →
  Game.colonies (setWorkerAt g ci wi a)
  = <[ci := setWorkers c (<[wi := a]> (Colony.workers c))]> (Game.colonies g).
Proof.
  intros H. unfold setWorkerAt; simpl.
  by apply (alter_as_insert
              (λ c0, setWorkers c0 (<[wi := a]> (Colony.workers c0)))).
Qed.

Lemma colonyFood_setWorker c wi me a :
  Colony.workers c !! wi = Some me →
  (colonyFood (setWorkers c (<[wi := a]> (Colony.workers c)))
   == colonyFood c - Ant.foodAmount me + Ant.foodAmount a)%Q.
Proof.
  intros H. unfold colonyFood; simpl.
  rewrite (sumQ_insert Ant.foodAmount _ wi me a H). lra.
Qed.

Lemma pickup_spec g ci wi me fi f c :
  Game.colonies g !! ci = Some c → Colony.workers c !! wi = Some me →
  Ant.targetFood me = Some fi → Game.foodSources g !! fi = Some f →
  distLt (FoodSource.x f - Ant.x me) (FoodSource.y f - Ant.y me) 1 = true →
  (0 < FoodSource.amount f)%Q →
  pickup g ci wi
  = setWorkerAt
      (setFoodSources g
         (<[fi := setAmount f (FoodSource.amount f
                               - Qmin carryCapacity (FoodSource.amount f))]>
            (Game.foodSources g)))
      ci wi (loaded me (Qmin carryCapacity (FoodSource.amount f))).
Proof.
  intros Hc Hw Ht Hf Hd Ha. unfold pickup.
  rewrite (proj2 (workerAt_Some g ci wi me)) by eauto.
  rewrite Ht; simpl. rewrite Hf; simpl. rewrite Hd.
  apply Qlt_bool_iff in Ha. by rewrite Ha.
Qed.

Lemma deliver_spec g ci wi me c q :
  Game.colonies g !! ci = Some c → Colony.workers c !! wi = Some me →
  Colony.queen c = Some q →
  distLt (Ant.x (Queen.ant q) - Ant.x me) (Ant.y (Queen.ant q) - Ant.y me)
         (5 # 2) = true →
  deliver g ci wi
  = setColonies g
      (<[ci := setWorkers (setFood c (Colony.food c + Ant.foodAmount me))
                 (<[wi := unloaded me]> (Colony.workers c))]>
         (Game.colonies g)).
Proof.
  intros Hc Hw Hq Hd. unfold deliver. by rewrite Hc, Hw, Hq, Hd.
Qed.

(** C4.  A worker of colony [ci] that carries nothing and stands within
    the pick-up radius of its target source, which holds a positive
    amount, takes exactly [min(5, amount)]: the source loses that much and
    the worker carries exactly that much.  A carrying worker within the
    delivery radius of its queen hands exactly what it carries to the
    stockpile of its colony and carries nothing afterwards.  Both steps
    keep the total of source amounts, carried amounts and stockpiles. *)
Theorem food_transfer_conserves (g : Game.t) (ci wi : nat) (c : Colony.t)
    (me : Ant.t) :
  Game.colonies g !! ci = Some c → Colony.workers c !! wi = Some me →
  (∀ fi f,
     Ant.carryingFood me = false → (Ant.foodAmount me == 0)%Q →
     Ant.targetFood me = Some fi → Game.foodSources g !! fi = Some f →
     distLt (FoodSource.x f - Ant.x me) (FoodSource.y f - Ant.y me) 1 = true →
     (0 < FoodSource.amount f)%Q →
     ∃ f' me',
       Game.foodSources (updateAI_food g ci wi) !! fi = Some f'
       ∧ workerAt (updateAI_food g ci wi) ci wi = Some me'
       ∧ FoodSource.amount f'
         = (FoodSource.amount f - Qmin carryCapacity (FoodSource.amount f))%Q
       ∧ Ant.foodAmount me' = Qmin carryCapacity (FoodSource.amount f)
       ∧ Ant.carryingFood me' = true
       ∧ (totalFood (updateAI_food g ci wi) == totalFood g)%Q)
  ∧ (∀ q,
       Ant.carryingFood me = true → Colony.queen c = Some q →
       distLt (Ant.x (Queen.ant q) - Ant.x me)
              (Ant.y (Queen.ant q) - Ant.y me) (5 # 2) = true →
       ∃ c' me',
         Game.colonies (updateAI_food g ci wi) !! ci = Some c'
         ∧ Colony.workers c' !! wi = Some me'
         ∧ Colony.food c' = (Colony.food c + Ant.foodAmount me)%Q
         ∧ Ant.foodAmount me' = 0%Q
         ∧ Ant.carryingFood me' = false
         ∧ Game.foodSources (updateAI_food g ci wi) = Game.foodSources g
         ∧ (totalFood (updateAI_food g ci wi) == totalFood g)%Q).
Proof.
  intros Hc Hw.
  assert (Hat : workerAt g ci wi = Some me) by (apply workerAt_Some; eauto).
  assert (Hci : (ci < length (Game.colonies g))%nat)
    by (by eapply lookup_lt_Some).
  assert (Hwi : (wi < length (Colony.workers c))%nat)
    by (by eapply lookup_lt_Some).
  split.
  - intros fi f Hcarry Hzero Ht Hf Hd Ha.
    unfold updateAI_food. rewrite Hat, Hcarry.
    rewrite (pickup_spec g ci wi me fi f c) by done.
    set (t := Qmin carryCapacity (FoodSource.amount f)).
    exists (setAmount f (FoodSource.amount f - t)), (loaded me t).
    split; [simpl; apply list_lookup_insert_eq; by eapply lookup_lt_Some|].
    split.
    { apply workerAt_Some. eexists. split.
      - rewrite (setWorkerAt_colonies _ ci wi _ c) by done.
        by apply list_lookup_insert_eq.
      - simpl. by apply list_lookup_insert_eq. }
    repeat (split; [reflexivity|]).
    unfold totalFood. rewrite (setWorkerAt_colonies _ ci wi _ c) by done.
    simpl Game.foodSources. simpl Game.colonies. simpl Game.enemies.
    rewrite (sumQ_insert FoodSource.amount _ fi f _ Hf).
    rewrite (sumQ_insert colonyFood _ ci c _ Hc).
    rewrite (colonyFood_setWorker c wi me _ Hw). simpl. lra.
  - intros q Hcarry Hq Hd.
    unfold updateAI_food. rewrite Hat, Hcarry.
    rewrite (deliver_spec g ci wi me c q) by done.
    eexists _, (unloaded me).
    split; [simpl; by apply list_lookup_insert_eq|].
    split; [simpl; by apply list_lookup_insert_eq|].
    repeat (split; [reflexivity|]).
    unfold totalFood. simpl Game.foodSources. simpl Game.colonies.
    simpl Game.enemies.
    rewrite (sumQ_insert colonyFood _ ci c _ Hc).
    unfold colonyFood at 3. simpl Colony.food. simpl Colony.workers.
    rewrite (sumQ_insert Ant.foodAmount _ wi me _ Hw).
    unfold colonyFood. simpl. lra.
Qed.

(** In [foragingGame] worker 0 takes 5 of the 50 units of its source, and
    worker 1 delivers its 5 units; the total stays 62. *)
Lemma food_transfer_conserves_witness :
  (∃ f' me',
     Game.foodSources (updateAI_food foragingGame 0 0) !! 0%nat = Some f'
     ∧ workerAt (updateAI_food foragingGame 0 0) 0 0 = Some me'
     ∧ FoodSource.amount f' = (50 - Qmin carryCapacity 50)%Q
     ∧ Ant.foodAmount me' = Qmin carryCapacity 50
     ∧ Ant.carryingFood me' = true
     ∧ (totalFood (updateAI_food foragingGame 0 0) == totalFood foragingGame)%Q)
  ∧ (totalFood (updateAI_food foragingGame 0 1) == totalFood foragingGame)%Q.
Proof.
  split.
  - destruct (food_transfer_conserves foragingGame 0 0 _ forager
                eq_refl eq_refl) as [H _].
    apply (H 0%nat (newFoodSource (21 # 2) 10 50)); reflexivity.
  - destruct (food_transfer_conserves foragingGame 0 1 _ porter
                eq_refl eq_refl) as [_ H].
    destruct (H (newQueen 1 1) eq_refl eq_refl eq_refl)
      as (c' & me' & _ & _ & _ & _ & _ & _ & Htot).
    exact Htot.
Defined.

(** ** Spawning *)




(** What the guard of [spawnWorker] does on a dead queen, a call the
    game never makes: the food is spent and no worker appears. *)
Lemma Queen_update_dead_queen dt rnd g ci c q :
  Game.colonies g !! ci = Some c → Colony.queen c = Some q →
  Ant.alive (Queen.ant q) = false →
  (Queen.spawnCooldown q <= default 0 (Queen.spawnTimer q) + dt)%Q →
  (Queen.foodPerWorker q <= Colony.food c)%Q →
  Game.colonies (Queen_update dt rnd g ci) !! ci
  = Some (setQueen (setFood c (Colony.food c - Queen.foodPerWorker q))
                   (setSpawnTimer q 0)).
Proof.
  intros Hc Hq Hd Ht Hf. unfold Queen_update. rewrite Hc, Hq.
  apply Qle_bool_iff in Ht, Hf. rewrite Ht, Hf. cbn [andb].
  unfold Colony_spawnWorker. cbn [setFood Colony.queen]. rewrite Hq, Hd.
  simpl. apply list_lookup_insert_eq. by eapply lookup_lt_Some.
Qed.



(** ** Combat: the scans *)



Lemma scanAnts_sound me isMe l : ∀ i0 i,
  scanAnts me isMe l i0 = Some i →
  ∃ j e, i = (i0 + j)%nat ∧ l !! j = Some e ∧ Ant.alive e = true
         ∧ isMe i = false ∧ inReach me e = true.
Proof.
  induction l as [|e l IH]; intros i0 i H; cbn [scanAnts] in H; [done|].
  destruct (negb (Ant.alive e) || isMe i0) eqn:E1.
  - apply IH in H as (j & e' & -> & H). exists (S j), e'.
    split; [lia|]. by replace (i0 + S j)%nat with (S i0 + j)%nat by lia.
  - destruct (inReach me e && ready me) eqn:E2.
    + injection H as <-. exists 0%nat, e.
      apply orb_false_iff in E1 as [E1%negb_false_iff E1'].
      apply andb_true_iff in E2 as [E2 _].
      rewrite Nat.add_0_r. done.
    + apply IH in H as (j & e' & -> & H). exists (S j), e'.
      split; [lia|]. by replace (i0 + S j)%nat with (S i0 + j)%nat by lia.
Qed.


Lemma scanColonies_sound me ci wi f cs : ∀ cj0 tgt,
  scanColonies me ci wi f cs cj0 = Some tgt →
  match tgt with
  | TEnemy _ => False
  | TWorker cj wj =>
      ∃ j c e, cj = (cj0 + j)%nat ∧ cs !! j = Some c
               ∧ Colony.factionId c ≠ f ∧ Colony.workers c !! wj = Some e
               ∧ Ant.alive e = true ∧ inReach me e = true
  | TQueen cj =>
      ∃ j c q, cj = (cj0 + j)%nat ∧ cs !! j = Some c
               ∧ Colony.factionId c ≠ f ∧ Colony.queen c = Some q
               ∧ Ant.alive (Queen.ant q) = true
               ∧ inReach me (Queen.ant q) = true
  end.
Proof.
  induction cs as [|c cs IH]; intros cj0 tgt H; cbn [scanColonies] in H;
    [done|].
  assert (Hrec : scanColonies me ci wi f cs (S cj0) = Some tgt →
    match tgt with
    | TEnemy _ => False
    | TWorker cj wj =>
        ∃ j c' e, cj = (cj0 + j)%nat ∧ (c :: cs) !! j = Some c'
                 ∧ Colony.factionId c' ≠ f ∧ Colony.workers c' !! wj = Some e
                 ∧ Ant.alive e = true ∧ inReach me e = true
    | TQueen cj =>
        ∃ j c' q, cj = (cj0 + j)%nat ∧ (c :: cs) !! j = Some c'
                 ∧ Colony.factionId c' ≠ f ∧ Colony.queen c' = Some q
                 ∧ Ant.alive (Queen.ant q) = true
                 ∧ inReach me (Queen.ant q) = true
    end).
  { intros H'. apply IH in H'. destruct tgt as [i|cj wj|cj]; [done| |].
    - destruct H' as (j & c' & e & -> & H'). exists (S j), c', e.
      split; [lia|done].
    - destruct H' as (j & c' & q & -> & H'). exists (S j), c', q.
      split; [lia|done]. }
  destruct (Nat.eqb (Colony.factionId c) f) eqn:Ef; [by apply Hrec|].
  apply Nat.eqb_neq in Ef.
  destruct (scanAnts me _ (Colony.workers c) 0) as [wj|] eqn:Ew.
  - injection H as <-.
    apply scanAnts_sound in Ew as (j & e & -> & Hl & Ha & _ & Hr).
    exists 0%nat, c, e. rewrite Nat.add_0_r. done.
  - destruct (Colony.queen c) as [q|] eqn:Eq; [|by apply Hrec].
    destruct (Ant.alive (Queen.ant q) && (inReach me (Queen.ant q) && ready me))
      eqn:E; [|by apply Hrec].
    injection H as <-.
    apply andb_true_iff in E as [Ha [Hr _]%andb_true_iff].
    exists 0%nat, c, q. rewrite Nat.add_0_r. done.
Qed.


(** ** Combat: the blow *)

Lemma firstTarget_hostile g ci wi c me tgt :
  Game.colonies g !! ci = Some c → Colony.workers c !! wi = Some me →
  firstTarget g ci wi = Some tgt →
  hostile g me (Colony.factionId c) tgt ∧ tgt ≠ TWorker ci wi.
Proof.
  intros Hc Hw. unfold firstTarget. rewrite Hc, Hw.
  destruct (scanAnts me _ (Game.enemies g) 0) as [i|] eqn:E.
  - intros [= <-]. split; [|done].
    apply scanAnts_sound in E as (j & e & -> & Hl & Ha & _ & Hr).
    exists e. done.
  - intros H. apply scanColonies_sound in H.
    destruct tgt as [i|cj wj|cj]; [done| |].
    + destruct H as (j & c' & e & -> & Hl & Hf & H). simpl.
      split; [exists c', e; done|].
      intros [= -> _]. congruence.
    + destruct H as (j & c' & q & -> & Hl & Hf & H). simpl.
      split; [exists c', q; done|done].
Qed.


Lemma workerAt_setWorkerAt_eq g ci wi a me :
  workerAt g ci wi = Some me → workerAt (setWorkerAt g ci wi a) ci wi = Some a.
Proof.
  intros (c & Hc & Hw)%workerAt_Some. apply workerAt_Some.
  eexists. rewrite (setWorkerAt_colonies g ci wi a c Hc). split.
  - apply list_lookup_insert_eq. by eapply lookup_lt_Some.
  - simpl. apply list_lookup_insert_eq. by eapply lookup_lt_Some.
Qed.







Lemma workerAt_setFoodSources g fs cj wj :
  workerAt (setFoodSources g fs) cj wj = workerAt g cj wj.
Proof. reflexivity. Qed.






(** * Further properties *)

(** ** The grid of a generated world *)

Lemma shape_tileIx w width height i j :
  shape w = (width, height, replicate (Z.to_nat height) (Z.to_nat width)) →
  (i < Z.to_nat height)%nat → (j < Z.to_nat width)%nat →
  is_Some (tileIx (tiles w) i j).
Proof.
  unfold shape. intros [= _ _ Hs] Hi Hj.
  assert (Hrow : (length <$> tiles w) !! i = Some (Z.to_nat width))
    by (rewrite Hs; by apply lookup_replicate_2).
  rewrite list_lookup_fmap in Hrow. unfold tileIx.
  destruct (tiles w !! i) as [row|]; simpl in *; [|done].
  injection Hrow as Hrow. apply lookup_lt_is_Some. lia.
Qed.

Lemma world_shape width height script calls :
  shape (digAll (generateWorld width height script) calls)
  = (width, height, replicate (Z.to_nat height) (Z.to_nat width)).
Proof.
  destruct (sound_digAll _ calls _ (sound_generateWorld width height script))
    as [_ Hs].
  by rewrite Hs, shape_initWorld.
Qed.

Lemma getTile_floor_eq w a b x y :
  Qfloor a = Qfloor x → Qfloor b = Qfloor y → getTile w a b = getTile w x y.
Proof. unfold getTile. by intros -> ->. Qed.

(** X1.  In a generated world, dug at or not, [getTile] finds a tile
    exactly when the floored coordinates lie inside the grid; outside it
    returns the [null] sentinel, and [canMove] is false there. *)
Theorem getTile_total_in_bounds (width height : Z) (script : list CarveOp)
    (calls : list (Q * Q * Q)) (px py : Q) :
  (is_Some (getTile (digAll (generateWorld width height script) calls) px py)
   ↔ (0 <= Qfloor px < width ∧ 0 <= Qfloor py < height))
  ∧ (¬ (0 <= Qfloor px < width ∧ 0 <= Qfloor py < height) →
     canMove (digAll (generateWorld width height script) calls) px py = false).
Proof.
  pose proof (world_shape width height script calls) as Hs.
  set (w := digAll (generateWorld width height script) calls) in *.
  assert (Hdim : worldWidth w = width ∧ worldHeight w = height).
  { unfold shape in Hs. by injection Hs as -> -> _. }
  destruct Hdim as [Hw Hh].
  assert (Hiff : is_Some (getTile w px py)
                 ↔ 0 <= Qfloor px < width ∧ 0 <= Qfloor py < height).
  { unfold getTile, isValidTile. rewrite Hw, Hh.
    destruct (_ && _) eqn:E.
    - split; [lia|]. intros _. unfold tileAt.
      apply (shape_tileIx w width height); [done|lia|lia].
    - split; [by intros [? ?]|lia]. }
  split; [done|]. intros Hout. unfold canMove.
  destruct (getTile w px py) eqn:E; [|done].
  exfalso. apply Hout, Hiff. eauto.
Qed.

(** ** Digging and passing *)

Lemma getTile_digTile w px py p a b :
  getTile (digTile w px py p).1 a b = getTile w a b
  ∨ (Qfloor a = Qfloor px ∧ Qfloor b = Qfloor py).
Proof.
  destruct (decide (Qfloor a = Qfloor px ∧ Qfloor b = Qfloor py))
    as [|Hne]; [by right|left].
  destruct (digTile_case w px py p) as [_ E|t Ht _ _ _ E|t Ht _ _ _ E];
    rewrite E; [done| |]; cbn [fst];
    apply getTile_Some_inv in Ht as [[? ?]%isValidTile_nonneg _];
    unfold getTile; rewrite isValidTile_setTile;
    destruct (isValidTile w (Qfloor a) (Qfloor b)) eqn:Hv; try done;
    apply isValidTile_nonneg in Hv as [? ?];
    apply tileIx_setTile_ne; intros [= Hrow Hcol];
    apply Hne; split; lia.
Qed.

Lemma canMove_digTile_keeps w px py p a b :
  canMove w a b = true → canMove (digTile w px py p).1 a b = true.
Proof.
  intros Hm. destruct (getTile_digTile w px py p a b) as [E|[Ha Hb]].
  - unfold canMove in *. by rewrite E.
  - assert (Hsame : getTile w px py = getTile w a b)
      by (symmetry; by apply getTile_floor_eq).
    rewrite digTile_skip; [done|]. right.
    unfold canMove in Hm. rewrite <- Hsame in Hm.
    destruct (getTile w px py) as [t|]; [|done].
    exists t. split; [done|].
    destruct (dug t); [by left|right].
    simpl in Hm. by destruct (type t).
Qed.

(** X2.  [digTile] and [canMove] fit together: a call returns [true]
    only on a tile that was impassable and is passable afterwards; a call
    that returns [false] leaves passability at its coordinates as it was;
    and a call on a passable tile does nothing at all. *)
Theorem digTile_opens_what_it_reports (w : World) (px py p : Q) :
  ((digTile w px py p).2 = true →
   canMove w px py = false ∧ canMove (digTile w px py p).1 px py = true)
  ∧ ((digTile w px py p).2 = false →
     canMove (digTile w px py p).1 px py = canMove w px py)
  ∧ (canMove w px py = true → digTile w px py p = (w, false)).
Proof.
  destruct (digTile_case w px py p) as [Hs E|t Ht Hd Hk _ E|t Ht Hd Hk _ E];
    rewrite E; cbn [fst snd].
  - split; [done|]. split; [done|]. done.
  - split; [done|]. split.
    + intros _. unfold canMove.
      rewrite (getTile_setTile w px py _ t Ht), Ht. simpl. by rewrite Hd, Hk.
    + unfold canMove. rewrite Ht, Hd, Hk. done.
  - split.
    + intros _. unfold canMove.
      rewrite (getTile_setTile w px py _ t Ht), Ht. simpl. by rewrite Hd, Hk.
    + split; [done|]. unfold canMove. rewrite Ht, Hd, Hk. done.
Qed.

(** A power of 1 breaks the dirt at column 0, row 5 of [smallWorld]. *)
Lemma digTile_opens_what_it_reports_witness :
  canMove smallWorld 0 5 = false
  ∧ canMove (digTile smallWorld 0 5 1).1 0 5 = true.
Proof.
  destruct (digTile_opens_what_it_reports smallWorld 0 5 1) as (H & _).
  apply H. reflexivity.
Defined.

Lemma canMove_digAll_keeps calls : ∀ w a b,
  canMove w a b = true → canMove (digAll w calls) a b = true.
Proof.
  induction calls as [|[[px py] p] calls IH]; intros w a b H; simpl; [done|].
  by apply IH, canMove_digTile_keeps.
Qed.

(** X3.  Digging never closes a way: a point that is passable stays
    passable under any sequence of [digTile] calls, whatever their
    coordinates and powers. *)
Theorem digging_never_blocks (w : World) (calls : list (Q * Q * Q))
    (a b : Q) :
  canMove w a b = true → canMove (digAll w calls) a b = true.
Proof.
  revert w. induction calls as [|[[px py] p] calls IH]; intros w H; simpl;
    [done|].
  by apply IH, canMove_digTile_keeps.
Qed.

Lemma digging_never_blocks_witness :
  canMove (digAll smallWorld [(0, 5, 1); (0, 0, 7); (1, 5, 1 # 3)]%Q) 0 0
  = true.
Proof.
  apply (digging_never_blocks smallWorld _ 0 0). reflexivity.
Defined.

(** ** What holds of every tile, for ever *)

Lemma foldl_keeps_in {A B} (P : A → Prop) (f : A → B → A) (l : list B) :
  (∀ a b, b ∈ l → P a → P (f a b)) → ∀ a, P a → P (foldl f a l).
Proof.
  induction l as [|b l IH]; intros Hf a Ha; simpl; [done|].
  apply IH.
  - intros a' b' Hb'. apply Hf. by right.
  - apply Hf; [by left|done].
Qed.

Lemma tileIx_setTile_at w tx ty t i j t' :
  tileIx (tiles (setTile w tx ty t)) i j = Some t' →
  (i = Z.to_nat ty ∧ t' = t) ∨ tileIx (tiles w) i j = Some t'.
Proof.
  destruct (decide ((i, j) = (Z.to_nat ty, Z.to_nat tx))) as [[= -> ->]|Hne].
  - intros [->|H]%tileIx_setTile_inv; [by left|by right].
  - rewrite tileIx_setTile_ne by done. by right.
Qed.

Section Cellwise.
Variable P : nat → Tile → Prop.
Hypothesis Hopen : ∀ i t, P i t → P i (opened t).
Hypothesis Hthrough : ∀ i t q, P i t → P i (opened (withProgress t q)).
Hypothesis Hprog : ∀ i t p,
  P i t → dug t = false →
  reaches (progressOf t + p) (hardness t) = false →
  P i (withProgress t (progressOf t + p)).

Lemma cellwise_setTile w tx ty t :
  cellwise P w → P (Z.to_nat ty) t → cellwise P (setTile w tx ty t).
Proof.
  intros Hw Ht i j t' [[-> ->]|H]%tileIx_setTile_at; [done|by eapply Hw].
Qed.

Lemma cellwise_openAt w tx ty : cellwise P w → cellwise P (openAt w tx ty).
Proof.
  intros Hw. unfold openAt. destruct (tileAt w tx ty) as [t|] eqn:E; [|done].
  apply cellwise_setTile; [done|]. apply Hopen. by eapply Hw.
Qed.

Lemma cellwise_carveTunnel w x1 y1 x2 y2 width :
  cellwise P w → cellwise P (carveTunnel w x1 y1 x2 y2 width).
Proof.
  unfold carveTunnel. intros H.
  destruct (_ =? 0); [done|]. revert w H. apply foldl_keeps.
  intros w1 i H1. unfold carveDisk. revert w1 H1. apply foldl_keeps.
  intros w2 oy H2. revert w2 H2. apply foldl_keeps. intros w3 ox H3.
  destruct (ox * ox + oy * oy <=? width * width); [|done].
  unfold carveCell. destruct (_ && _); auto using cellwise_openAt.
Qed.

Lemma cellwise_generateCave w cx cy r noise fade :
  cellwise P w → cellwise P (generateCave w cx cy r noise fade).
Proof.
  unfold generateCave. apply foldl_keeps. intros w1 y H1.
  revert w1 H1. apply foldl_keeps. intros w2 x H2.
  repeat (match goal with |- context [if ?b then _ else _] => destruct b end);
    auto using cellwise_openAt.
Qed.

Lemma cellwise_startChamber w : cellwise P w → cellwise P (startChamber w).
Proof.
  unfold startChamber. apply foldl_keeps. intros w1 y H1.
  revert w1 H1. apply foldl_keeps. intros w2 x H2.
  destruct (isValidTile w2 x y); auto using cellwise_openAt.
Qed.

Lemma cellwise_generateWorld width height script :
  cellwise P (initWorld width height) →
  cellwise P (generateWorld width height script).
Proof.
  intros H. unfold generateWorld, generateCaveSystems.
  apply cellwise_startChamber. revert H. apply foldl_keeps.
  intros w [x1 y1 x2 y2 wd|cx cy r noise fade] H; simpl;
    auto using cellwise_carveTunnel, cellwise_generateCave.
Qed.

Lemma cellwise_digTile w px py p :
  cellwise P w → cellwise P (digTile w px py p).1.
Proof.
  intros H.
  destruct (digTile_case w px py p) as [_ E|t Ht Hd _ Hr E|t Ht _ _ _ E];
    rewrite E; cbn [fst]; [done| |];
    apply getTile_Some_inv in Ht as [_ Ht];
    apply cellwise_setTile; auto; [apply Hprog|apply Hthrough]; auto;
    by eapply H.
Qed.

Lemma cellwise_digAll calls : ∀ w,
  cellwise P w → cellwise P (digAll w calls).
Proof.
  induction calls as [|[[px py] p] calls IH]; intros w H; simpl; [done|].
  by apply IH, cellwise_digTile.
Qed.

Lemma cellwise_world width height script calls :
  cellwise P (initWorld width height) →
  cellwise P (digAll (generateWorld width height script) calls).
Proof. intros H. by apply cellwise_digAll, cellwise_generateWorld. Qed.
End Cellwise.

(** X4.  Hardness is fixed by the row for good: in a generated world,
    after any digging, a tile of a row below 5 has no hardness and a tile
    of a row [i >= 5] has hardness [0.5 + 0.5 * (i / height)], dug or
    not. *)
Theorem hardness_fixed_by_row (width height : Z) (script : list CarveOp)
    (calls : list (Q * Q * Q)) (i j : nat) (t : Tile) :
  tileIx (tiles (digAll (generateWorld width height script) calls)) i j
  = Some t →
  hardness t = if Z.of_nat i <? 5 then None
               else Some (rowHardness height (Z.of_nat i)).
Proof.
  intros Ht.
  assert (H : cellwise (λ i t, hardness t = hardness (initTile height (Z.of_nat i)))
                (digAll (generateWorld width height script) calls)).
  { apply cellwise_world.
    - done.
    - done.
    - done.
    - intros i' j' t' [_ ->]%tileIx_initTiles. done. }
  rewrite (H i j t Ht). unfold initTile. by destruct (_ <? 5).
Qed.

(** The tile that a tunnel has opened at column 2, row 11 of
    [tunnelWorld] still carries the hardness of row 11. *)
Lemma hardness_fixed_by_row_witness :
  ∃ t, tileIx (tiles (digAll tunnelWorld [(2, 6, 1)]%Q)) 11 2 = Some t
       ∧ dug t = true ∧ hardness t = Some (rowHardness 14 11).
Proof.
  eexists. split; [vm_compute; reflexivity|]. split; [reflexivity|].
  apply (hardness_fixed_by_row 8 14 [OpTunnel 1 11 5 11 1] [(2, 6, 1)]%Q
           11 2).
  vm_compute. reflexivity.
Defined.

(** X5.  In a generated world, after any digging, a tile is air exactly
    when it is dug, so that [canMove] at a point is the [dug] flag of the
    tile there. *)
Theorem air_exactly_when_dug (width height : Z) (script : list CarveOp)
    (calls : list (Q * Q * Q)) :
  (∀ i j t,
     tileIx (tiles (digAll (generateWorld width height script) calls)) i j
     = Some t →
     (type t = air ↔ dug t = true))
  ∧ ∀ px py,
      canMove (digAll (generateWorld width height script) calls) px py = true
      ↔ ∃ t, getTile (digAll (generateWorld width height script) calls) px py
             = Some t ∧ dug t = true.
Proof.
  set (w := digAll (generateWorld width height script) calls).
  assert (H1 : cellwise (λ _ t, type t = air → dug t = true) w).
  { apply cellwise_world.
    - done.
    - done.
    - intros _ t p Hp _ _. exact Hp.
    - intros i' j' t' [_ ->]%tileIx_initTiles.
      unfold initTile. by destruct (_ <? 5). }
  destruct (sound_digAll _ calls _ (sound_generateWorld width height script))
    as [H2 _]. fold w in H2.
  assert (Hiff : ∀ i j t, tileIx (tiles w) i j = Some t →
                          (type t = air ↔ dug t = true)).
  { intros i j t Ht. split; [by apply (H1 i j)|by apply (H2 i j)]. }
  split; [done|]. intros px py. unfold canMove.
  destruct (getTile w px py) as [t|] eqn:E.
  - apply getTile_Some_inv in E as [_ E]. unfold tileAt in E.
    specialize (Hiff _ _ _ E). split.
    + intros Hm. exists t. split; [done|].
      destruct (dug t); [done|]. simpl in Hm. apply Hiff.
      by destruct (type t).
    + intros (t' & [= <-] & ->). done.
  - split; [done|]. by intros (? & ? & _).
Qed.

(** X6.  The progress stored on a solid tile is always short of its
    hardness: in a generated world, after any digging, no undug tile
    carries a progress that has reached its hardness. *)
Theorem solid_progress_below_hardness (width height : Z)
    (script : list CarveOp) (calls : list (Q * Q * Q)) (i j : nat)
    (t : Tile) (h q : Q) :
  tileIx (tiles (digAll (generateWorld width height script) calls)) i j
  = Some t →
  dug t = false → hardness t = Some h → digProgress t = Some q →
  (q < h)%Q.
Proof.
  intros Ht.
  assert (H : cellwise (λ _ t, progressBelow t)
                (digAll (generateWorld width height script) calls)).
  { apply cellwise_world.
    - intros _ t0 _ Hd. simpl in Hd. done.
    - intros _ t0 q0 _ Hd. simpl in Hd. done.
    - intros _ t0 p _ _ Hr Hd h0 q0 Hh Hq. simpl in *.
      rewrite Hh in Hr. simpl in Hr. injection Hq as <-.
      by apply Qle_bool_false.
    - intros i' j' t' [_ ->]%tileIx_initTiles.
      unfold initTile, progressBelow. destruct (_ <? 5); simpl; done. }
  intros Hd Hh Hq. by apply (H i j t Ht Hd h q).
Qed.

(** After two calls of power 1/3 the dirt at column 2, row 6 of
    [tunnelWorld] holds progress 2/3, below its hardness. *)
Lemma solid_progress_below_hardness_witness :
  (0 + (1 # 3) + (1 # 3) < rowHardness 14 6)%Q.
Proof.
  apply (solid_progress_below_hardness 8 14 [OpTunnel 1 11 5 11 1]
           [(2, 6, 1 # 3); (2, 6, 1 # 3)]%Q 6 2
           (mkTile dirt false (Some (rowHardness 14 6))
                   (Some (0 + (1 # 3) + (1 # 3))%Q)));
    [vm_compute; reflexivity|reflexivity..].
Defined.

(** The tile a tunnel opened in [tunnelWorld]. *)
Lemma air_exactly_when_dug_witness :
  canMove (digAll tunnelWorld []) 2 11 = true
  ↔ ∃ t, getTile (digAll tunnelWorld []) 2 11 = Some t ∧ dug t = true.
Proof.
  destruct (air_exactly_when_dug 8 14 [OpTunnel 1 11 5 11 1] []) as [_ H].
  apply (H 2%Q 11%Q).
Defined.

Lemma getTile_total_in_bounds_witness :
  canMove (digAll tunnelWorld []) (-1 # 2) 3 = false.
Proof.
  destruct (getTile_total_in_bounds 8 14 [OpTunnel 1 11 5 11 1] []
              (-1 # 2) 3) as [_ H].
  apply H. vm_compute. intros [[H1 _] _]. by apply H1.
Defined.

(** ** The crust: generation carves from row 10 down *)

Lemma sameAbove_openAt w0 w tx ty :
  10 <= ty → sameAbove 10 w0 w → sameAbove 10 w0 (openAt w tx ty).
Proof.
  intros Hty H i j Hi. rewrite <- (H i j Hi).
  unfold openAt. destruct (tileAt w tx ty); [|done].
  apply tileIx_setTile_ne. intros [= -> _]. lia.
Qed.

Lemma sameAbove_carveTunnel w0 w x1 y1 x2 y2 width :
  sameAbove 10 w0 w → sameAbove 10 w0 (carveTunnel w x1 y1 x2 y2 width).
Proof.
  unfold carveTunnel. cbv zeta. destruct (_ =? 0); [done|].
  revert w. apply (foldl_keeps (sameAbove 10 w0)).
  intros w1 k. unfold carveDisk. revert w1.
  apply (foldl_keeps (sameAbove 10 w0)). intros w2 oy. revert w2.
  apply (foldl_keeps (sameAbove 10 w0)). intros w3 ox H3.
  destruct (ox * ox + oy * oy <=? width * width); [|done].
  unfold carveCell. destruct (isValidTile w3 _ _ && (10 <=? _)) eqn:E; [|done].
  apply andb_true_iff in E as [_ E%Z.leb_le]. by apply sameAbove_openAt.
Qed.

Lemma sameAbove_generateCave w0 w cx cy r noise fade :
  sameAbove 10 w0 w → sameAbove 10 w0 (generateCave w cx cy r noise fade).
Proof.
  unfold generateCave. cbv zeta. revert w.
  apply (foldl_keeps (sameAbove 10 w0)). intros w1 y. revert w1.
  apply (foldl_keeps (sameAbove 10 w0)). intros w2 x H2.
  destruct (cell _ x y =? 1); [|done].
  destruct (_ && (10 <=? _)) eqn:E; [|done].
  apply andb_true_iff in E as [_ E%Z.leb_le].
  destruct (fade x y); [|done]. by apply sameAbove_openAt.
Qed.

Lemma sameAbove_startChamber w0 w :
  sameAbove 10 w0 w → sameAbove 10 w0 (startChamber w).
Proof.
  unfold startChamber. cbv zeta. generalize (worldWidth w / 2). intros sx.
  revert w. apply (foldl_keeps_in (sameAbove 10 w0)). intros w1 y Hy.
  apply elem_of_seqZ in Hy. revert w1.
  apply (foldl_keeps (sameAbove 10 w0)). intros w2 x H2.
  destruct (isValidTile w2 x y); [|done]. apply sameAbove_openAt; [lia|done].
Qed.

(** X7.  World generation carves from row 10 down only: whatever caves
    and tunnels it draws, the rows above row 10 are as the initialisation
    loop left them, sky in rows 0 to 4 and a crust of solid, untouched
    dirt in rows 5 to 9. *)
Theorem generation_keeps_crust (width height : Z) (script : list CarveOp)
    (i j : nat) :
  (i < 10)%nat →
  tileIx (tiles (generateWorld width height script)) i j
  = tileIx (tiles (initWorld width height)) i j
  ∧ (Z.of_nat i < height → Z.of_nat j < width →
     tileIx (tiles (generateWorld width height script)) i j
     = Some (initTile height (Z.of_nat i))).
Proof.
  intros Hi.
  assert (H : sameAbove 10 (initWorld width height)
                (generateWorld width height script)).
  { unfold generateWorld, generateCaveSystems. apply sameAbove_startChamber.
    apply (foldl_keeps (sameAbove 10 (initWorld width height))); [|done].
    intros w [x1 y1 x2 y2 wd|cx cy r noise fade] Hw; simpl;
      auto using sameAbove_carveTunnel, sameAbove_generateCave. }
  specialize (H i j Hi).
  split; [done|]. intros Hh Hw. rewrite H. by apply tileIx_initTiles.
Qed.

(** The tunnel of [tunnelWorld] is asked to run along row 11 with width
    1; row 9 above it stays solid dirt. *)
Lemma generation_keeps_crust_witness :
  tileIx (tiles tunnelWorld) 9 2 = Some (initTile 14 9).
Proof.
  destruct (generation_keeps_crust 8 14 [OpTunnel 1 11 5 11 1] 9 2) as [_ H];
    [lia|]. apply H; reflexivity.
Defined.

(** ** The starting chamber and the player's colony *)

Lemma foldl_reaches {A B} (I G : A → Prop) (f : A → B → A) (l : list B) b0 :
  (∀ a b, I a → I (f a b)) → (∀ a b, G a → G (f a b)) →
  (∀ a, I a → G (f a b0)) → b0 ∈ l → ∀ a, I a → G (foldl f a l).
Proof.
  intros HI HG Hb0. induction l as [|b l IH]; intros Hin a Ha; simpl.
  { by apply elem_of_nil in Hin. }
  apply elem_of_cons in Hin as [<-|Hin].
  - apply foldl_keeps; [done|]. by apply Hb0.
  - apply IH; [done|]. by apply HI.
Qed.

Lemma tileAt_openAt w tx ty a b :
  tileAt (openAt w tx ty) a b
  = if decide ((Z.to_nat b, Z.to_nat a) = (Z.to_nat ty, Z.to_nat tx))
    then opened <$> tileAt w a b else tileAt w a b.
Proof.
  unfold openAt. destruct (tileAt w tx ty) as [t|] eqn:E.
  - unfold tileAt in *. case_decide as Hd.
    + injection Hd as -> ->. rewrite E. simpl.
      by eapply tileIx_set_eq.
    + by apply tileIx_setTile_ne.
  - case_decide as Hd; [|done]. unfold tileAt in *.
    injection Hd as -> ->. by rewrite E.
Qed.

Lemma isOpen_openAt_keeps w tx ty a b :
  isOpen w a b → isOpen (openAt w tx ty) a b.
Proof.
  intros (t & Ht & Hd). unfold isOpen. rewrite tileAt_openAt, Ht.
  case_decide; simpl; eauto.
Qed.

Lemma isOpen_openAt w tx ty :
  is_Some (tileAt w tx ty) → isOpen (openAt w tx ty) tx ty.
Proof.
  intros [t Ht]. unfold isOpen. rewrite tileAt_openAt, Ht.
  rewrite decide_True by done. simpl. eauto.
Qed.

Lemma is_Some_openAt w tx ty a b :
  is_Some (tileAt w a b) → is_Some (tileAt (openAt w tx ty) a b).
Proof.
  intros [t Ht]. rewrite tileAt_openAt, Ht. case_decide; simpl; eauto.
Qed.

Lemma isValidTile_openAt w tx ty a b :
  isValidTile (openAt w tx ty) a b = isValidTile w a b.
Proof. unfold openAt. by destruct (tileAt w tx ty). Qed.

Lemma worldWidth_openAt w tx ty : worldWidth (openAt w tx ty) = worldWidth w.
Proof. unfold openAt. by destruct (tileAt w tx ty). Qed.

(** The starting chamber opens every cell of its 7 by 4 block that lies
    in the grid. *)
Lemma startChamber_opens w x y :
  worldWidth w / 2 - 3 <= x <= worldWidth w / 2 + 3 → 10 <= y <= 13 →
  isValidTile w x y = true → is_Some (tileAt w x y) →
  isOpen (startChamber w) x y.
Proof.
  intros Hx Hy Hv Hs. unfold startChamber. cbv zeta.
  set (I := λ w', isValidTile w' x y = true ∧ is_Some (tileAt w' x y)
                  ∧ worldWidth w' = worldWidth w).
  set (step := λ y' w2 x', if isValidTile w2 x' y' then openAt w2 x' y' else w2).
  assert (HstepI : ∀ y' a b, I a → I (step y' a b)).
  { intros y' a b (H1 & H2 & H3). unfold step.
    destruct (isValidTile a b y'); [|done]. split; [|split].
    - by rewrite isValidTile_openAt.
    - by apply is_Some_openAt.
    - by rewrite worldWidth_openAt. }
  assert (HstepG : ∀ y' a b, isOpen a x y → isOpen (step y' a b) x y).
  { intros y' a b H. unfold step. destruct (isValidTile a b y'); [|done].
    by apply isOpen_openAt_keeps. }
  apply (foldl_reaches I (λ w', isOpen w' x y) _ _ y).
  - intros a y' Ha. exact (foldl_keeps I (step y') _ (HstepI y') a Ha).
  - intros a y' Ha.
    exact (foldl_keeps (λ w', isOpen w' x y) (step y') _ (HstepG y') a Ha).
  - intros a Ha.
    apply (foldl_reaches I (λ w', isOpen w' x y) (step y) _ x); auto.
    + intros a' (H1 & H2 & _). unfold step. rewrite H1.
      by apply isOpen_openAt.
    + apply elem_of_seqZ. lia.
  - apply elem_of_seqZ. lia.
  - done.
Qed.

Lemma Qfloor_half (n : Z) : Qfloor (inject_Z n / 2) = n / 2.
Proof.
  unfold Qdiv, Qmult, Qinv, inject_Z, Qfloor; simpl. by rewrite Z.mul_1_r.
Qed.

Lemma Qfloor_half_succ (n : Z) : Qfloor (inject_Z n / 2 + 1) = n / 2 + 1.
Proof.
  unfold Qdiv, Qmult, Qinv, Qplus, inject_Z, Qfloor; simpl.
  rewrite !Z.mul_1_r. replace (n + 2) with (n + 1 * 2) by lia.
  by rewrite Z.div_add.
Qed.

Lemma sound_generateCaveSystems s w script :
  sound s w → sound s (generateCaveSystems w script).
Proof.
  unfold generateCaveSystems. revert w. apply (foldl_keeps (sound s)).
  intros w [x1 y1 x2 y2 wd|cx cy r noise fade] H; simpl;
    auto using sound_carveTunnel, sound_generateCave.
Qed.

Lemma shape_dims w width height l :
  shape w = (width, height, l) → worldWidth w = width ∧ worldHeight w = height.
Proof. unfold shape. by intros [= -> -> _]. Qed.

(** Every cell of the chamber block that lies in the grid is open in a
    generated world. *)
Lemma generateWorld_chamber width height script x y :
  0 <= x < width → width / 2 - 3 <= x <= width / 2 + 3 →
  10 <= y <= 13 → y < height →
  isOpen (generateWorld width height script) x y.
Proof.
  intros Hx Hx' Hy Hy'. unfold generateWorld.
  destruct (sound_generateCaveSystems _ _ script
              (sound_initWorld width height)) as [_ Hs].
  rewrite shape_initWorld in Hs.
  destruct (shape_dims _ _ _ _ Hs) as [Hw1 Hh1].
  apply startChamber_opens; rewrite ?Hw1; try lia.
  - unfold isValidTile. rewrite Hw1, Hh1. lia.
  - apply (shape_tileIx _ width height); [done|lia|lia].
Qed.

Lemma canMove_of_isOpen w width height l px py :
  shape w = (width, height, l) →
  0 <= Qfloor px < width → 0 <= Qfloor py < height →
  isOpen w (Qfloor px) (Qfloor py) → canMove w px py = true.
Proof.
  intros Hs Hx Hy (t & Ht & Hd).
  destruct (shape_dims _ _ _ _ Hs) as [Hw1 Hh1].
  unfold canMove, getTile, isValidTile. rewrite Hw1, Hh1.
  replace ((0 <=? Qfloor px) && (Qfloor px <? width) && (0 <=? Qfloor py)
           && (Qfloor py <? height)) with true by lia.
  rewrite Ht. by rewrite Hd.
Qed.

Lemma half_bounds width : 3 <= width → 0 <= width / 2 ∧ width / 2 + 1 < width.
Proof.
  intros H. split; [apply Z.div_pos; lia|].
  assert (2 * (width / 2) <= width) by (apply Z.mul_div_le; lia).
  destruct (decide (width = 3)) as [->|]; [done|]. lia.
Qed.

(** X8.  The player's colony starts in the open: in a generated world at
    least 3 tiles wide and 13 high, and after any digging, the tile of
    the queen that [createColony] places and the tile of the player's
    worker beside her are both passable. *)
Theorem colony_starts_in_the_open (width height : Z) (script : list CarveOp)
    (calls : list (Q * Q * Q)) (g : Game.t) :
  3 <= width → 13 <= height →
  Game.world g = digAll (generateWorld width height script) calls →
  ∃ c q me,
    last (Game.colonies (createColony g)) = Some c
    ∧ Colony.factionId c = 0%nat ∧ Colony.queen c = Some q
    ∧ Colony.workers c = [me] ∧ Ant.isPlayer me = true
    ∧ canMove (Game.world g) (Ant.x (Queen.ant q)) (Ant.y (Queen.ant q)) = true
    ∧ canMove (Game.world g) (Ant.x me) (Ant.y me) = true.
Proof.
  intros Hw Hh Hg. destruct (half_bounds width Hw) as [H0 H1].
  assert (Hww : worldWidth (Game.world g) = width).
  { rewrite Hg.
    by destruct (shape_dims _ _ _ _ (world_shape width height script calls)). }
  assert (Hmove : ∀ px, width / 2 <= Qfloor px <= width / 2 + 1 →
            canMove (Game.world g) px 12 = true).
  { intros px Hpx. rewrite Hg. apply canMove_digAll_keeps.
    apply (canMove_of_isOpen _ _ _ _ _ _ (world_shape width height script []));
      change (Qfloor 12) with 12; try lia.
    apply generateWorld_chamber; lia. }
  eexists _, _, _. unfold createColony. cbn [setColonies Game.colonies].
  rewrite last_snoc. split; [reflexivity|].
  split; [reflexivity|]. split; [reflexivity|]. split; [reflexivity|].
  split; [reflexivity|]. cbn [newQueen newWorkerAnt Queen.ant Ant.x Ant.y].
  rewrite Hww. split; apply Hmove.
  - rewrite Qfloor_half. lia.
  - rewrite Qfloor_half_succ. lia.
Qed.

(** In [tunnelWorld] (8 by 14) the queen stands at (4, 12) and the
    player at (5, 12). *)
Lemma colony_starts_in_the_open_witness :
  ∃ c q me,
    last (Game.colonies (createColony (Game.mk tunnelWorld [] [] [])))
    = Some c
    ∧ Colony.factionId c = 0%nat ∧ Colony.queen c = Some q
    ∧ Colony.workers c = [me] ∧ Ant.isPlayer me = true
    ∧ canMove tunnelWorld (Ant.x (Queen.ant q)) (Ant.y (Queen.ant q)) = true
    ∧ canMove tunnelWorld (Ant.x me) (Ant.y me) = true.
Proof.
  apply (colony_starts_in_the_open 8 14 [OpTunnel 1 11 5 11 1] []
           (Game.mk tunnelWorld [] [] [])); [lia|lia|reflexivity].
Defined.

(** ** Carving stays local *)









(** ** The cave automaton *)

Lemma cell_smooth size grid x y :
  0 <= x < size → 0 <= y < size →
  cell (smooth size grid) x y
  = if cell grid x y =? 1
    then (if 4 <=? countNeighbors grid x y then 1 else 0)
    else (if 5 <=? countNeighbors grid x y then 1 else 0).
Proof.
  intros Hx Hy. unfold cell at 1, smooth.
  rewrite list_lookup_fmap.
  rewrite (proj2 (lookup_seqZ 0 size (Z.to_nat y) (0 + Z.of_nat (Z.to_nat y))))
    by lia.
  simpl. rewrite list_lookup_fmap.
  rewrite (proj2 (lookup_seqZ 0 size (Z.to_nat x) (0 + Z.of_nat (Z.to_nat x))))
    by lia.
  simpl. by rewrite !Z2Nat.id by lia.
Qed.

Lemma binary_smooth size grid : binary (smooth size grid).
Proof.
  intros x y. unfold cell, smooth. rewrite list_lookup_fmap.
  destruct (seqZ 0 size !! Z.to_nat y) as [y'|]; simpl; [|by left].
  rewrite list_lookup_fmap.
  destruct (seqZ 0 size !! Z.to_nat x) as [x'|]; simpl; [|by left].
  destruct (cell grid x' y' =? 1); destruct (_ <=? _); auto.
Qed.

Lemma countNeighbors_sum grid x y :
  countNeighbors grid x y
  = neighborTerm grid (x + -1) (y + -1) + neighborTerm grid (x + 0) (y + -1)
    + neighborTerm grid (x + 1) (y + -1) + neighborTerm grid (x + -1) (y + 0)
    + neighborTerm grid (x + 1) (y + 0) + neighborTerm grid (x + -1) (y + 1)
    + neighborTerm grid (x + 0) (y + 1) + neighborTerm grid (x + 1) (y + 1).
Proof.
  unfold countNeighbors, neighborTerm. cbn [foldl Z.eqb andb].
  repeat match goal with
         | |- context [if ?c then _ else _] => destruct c
         end; lia.
Qed.

Lemma neighborTerm_bounds grid nx ny :
  binary grid → 0 <= neighborTerm grid nx ny <= 1.
Proof.
  intros Hb. unfold neighborTerm. destruct (_ || _); [lia|].
  destruct (Hb nx ny); lia.
Qed.

Lemma neighborTerm_outside grid nx ny :
  nx < 0 ∨ ny < 0 → neighborTerm grid nx ny = 1.
Proof.
  intros H. unfold neighborTerm.
  by replace ((ny <? 0) || (Z.of_nat (length grid) <=? ny)
              || (nx <? 0) || (gridWidth grid <=? nx)) with true by lia.
Qed.

Lemma countNeighbors_bounds grid x y :
  binary grid → 0 <= countNeighbors grid x y <= 8.
Proof.
  intros Hb. rewrite countNeighbors_sum.
  pose proof (neighborTerm_bounds grid (x + -1) (y + -1) Hb).
  pose proof (neighborTerm_bounds grid (x + 0) (y + -1) Hb).
  pose proof (neighborTerm_bounds grid (x + 1) (y + -1) Hb).
  pose proof (neighborTerm_bounds grid (x + -1) (y + 0) Hb).
  pose proof (neighborTerm_bounds grid (x + 1) (y + 0) Hb).
  pose proof (neighborTerm_bounds grid (x + -1) (y + 1) Hb).
  pose proof (neighborTerm_bounds grid (x + 0) (y + 1) Hb).
  pose proof (neighborTerm_bounds grid (x + 1) (y + 1) Hb).
  lia.
Qed.

(** X11.  One pass of the cave automaton.  [smooth] yields a grid of
    [size] rows of [size] cells, each 0 or 1, whatever grid it is
    given.  On a grid of 0s and 1s the neighbour count lies between 0
    and 8.  Cells outside the grid count as cells that hold 1: a corner
    cell has five such neighbours and is 1 after every pass. *)
Theorem smooth_pass (size : Z) (grid : list (list Z)) :
  (length (smooth size grid) = Z.to_nat size
   ∧ ∀ row, row ∈ smooth size grid → length row = Z.to_nat size)
  ∧ binary (smooth size grid)
  ∧ (binary grid →
     (∀ x y, 0 <= countNeighbors grid x y <= 8)
     ∧ (1 <= size → cell (smooth size grid) 0 0 = 1)).
Proof.
  split; [|split].
  - unfold smooth. rewrite length_fmap, length_seqZ. split; [done|].
    intros row (y & -> & _)%list_elem_of_fmap.
    by rewrite length_fmap, length_seqZ.
  - apply binary_smooth.
  - intros Hb. split; [intros x y; by apply countNeighbors_bounds|].
    intros Hsize. rewrite cell_smooth by lia.
    assert (5 <= countNeighbors grid 0 0).
    { rewrite countNeighbors_sum.
      pose proof (neighborTerm_outside grid (0 + -1) (0 + -1) ltac:(lia)).
      pose proof (neighborTerm_outside grid (0 + 0) (0 + -1) ltac:(lia)).
      pose proof (neighborTerm_outside grid (0 + 1) (0 + -1) ltac:(lia)).
      pose proof (neighborTerm_outside grid (0 + -1) (0 + 0) ltac:(lia)).
      pose proof (neighborTerm_outside grid (0 + -1) (0 + 1) ltac:(lia)).
      pose proof (neighborTerm_bounds grid (0 + 1) (0 + 0) Hb).
      pose proof (neighborTerm_bounds grid (0 + 0) (0 + 1) Hb).
      pose proof (neighborTerm_bounds grid (0 + 1) (0 + 1) Hb).
      lia. }
    destruct (cell grid 0 0 =? 1).
    + by replace (4 <=? countNeighbors grid 0 0) with true by lia.
    + by replace (5 <=? countNeighbors grid 0 0) with true by lia.
Qed.

Lemma smooth_pass_witness :
  cell (smooth 2 [[0; 1]; [1; 0]]) 0 0 = 1.
Proof.
  destruct (smooth_pass 2 [[0; 1]; [1; 0]]) as (_ & _ & H).
  destruct H as [_ H]; [|apply H; lia].
  intros x y. unfold cell.
  destruct (Z.to_nat y) as [|[|?]], (Z.to_nat x) as [|[|?]]; simpl; auto.
Defined.

(** ** Path finding, further *)

(** X12.  What [findPath] can reach.  When both end points are passable
    and lie in one tile the result is the centre of that tile alone; when
    the end points lie in different tiles the result is [null], in every
    world, however open. *)
Theorem findPath_reaches_its_own_tile_only (w : World) (sx sy ex ey : Q) :
  (canMove w sx sy = true → canMove w ex ey = true →
   Qfloor sx = Qfloor ex → Qfloor sy = Qfloor ey →
   findPath w sx sy ex ey = Found [center (Qfloor sx, Qfloor sy)])
  ∧ (Qfloor sx ≠ Qfloor ex ∨ Qfloor sy ≠ Qfloor ey →
     findPath w sx sy ex ey = NoPath).
Proof.
  rewrite findPath_cases. split.
  - intros -> -> Hx Hy. cbn [andb].
    replace (nodeEqb _ _) with true; [done|].
    symmetry. apply nodeEqb_eq. by rewrite Hx, Hy.
  - intros Hne. destruct (_ && _); [|done].
    destruct (nodeEqb _ _) eqn:E; [|done].
    apply nodeEqb_eq in E as [= Hx Hy]. by destruct Hne.
Qed.

Lemma findPath_reaches_its_own_tile_only_witness :
  findPath openGrid5 (1 # 2) (1 # 2) (3 # 2) (1 # 2) = NoPath.
Proof.
  destruct (findPath_reaches_its_own_tile_only openGrid5
              (1 # 2) (1 # 2) (3 # 2) (1 # 2)) as [_ H].
  apply H. left. vm_compute. discriminate.
Defined.

Lemma existsb_nodeEqb n l : existsb (nodeEqb n) l = true ↔ n ∈ l.
Proof.
  rewrite existsb_exists. split.
  - intros (x & Hx & E). apply nodeEqb_eq in E as ->.
    by apply list_elem_of_In.
  - intros H. exists n. split; [by apply list_elem_of_In|by apply nodeEqb_eq].
Qed.

Lemma tidy_relax w goal current st neighbor :
  tidy w st → tidy w (relax w goal current st neighbor).
Proof.
  intros [Hnd Hok]. unfold relax.
  destruct (canMoveNode w neighbor) eqn:Hmove; cbn [negb]; [|done].
  destruct (numLt _ _); [|done].
  destruct (existsb (nodeEqb neighbor) (openSet st)) eqn:E; [done|].
  split; cbn [openSet].
  - apply NoDup_app. split; [done|]. split; [|apply NoDup_singleton].
    intros x Hx ->%list_elem_of_singleton.
    apply existsb_nodeEqb in Hx. congruence.
  - intros n [Hn| ->%list_elem_of_singleton]%elem_of_app; auto.
Qed.

Lemma tidy_expand w goal st st' :
  tidy w st → expand w goal st = inr st' → tidy w st'.
Proof.
  intros [Hnd Hok]. unfold expand.
  destruct (openSet st) as [|first rest] eqn:Hopen; [done|].
  destruct (lowest _ _ _ _ _) as [current currentIdx].
  destruct (nodeEqb current goal); [done|].
  intros H. apply (inj inr) in H. subst st'.
  apply (foldl_keeps (tidy w)); [intros; by apply tidy_relax|].
  split; cbn [openSet].
  - apply (sublist_NoDup _ (first :: rest)); [done|apply sublist_delete].
  - intros n Hn. apply Hok.
    eapply elem_of_sublist; [done|apply sublist_delete].
Qed.

(** X13.  The main loop only ever opens passable tiles, and lists none
    of them twice: both hold of the open set after any number of rounds
    if they hold before. *)
Theorem search_opens_passable_tiles_once (n : nat) (w : World) (goal : Node)
    (st st' : Search) :
  tidy w st → after n w goal st = Some st' → tidy w st'.
Proof.
  revert st. induction n as [|n IH]; intros st Ht; simpl.
  - by intros [= <-].
  - destruct (expand w goal st) as [r|st1] eqn:E; [done|].
    apply IH. by eapply tidy_expand.
Qed.

(** From [underway], two rounds on: the first opens the five passable
    neighbours of (1, 4) and none of the three in the dirt below, the
    second takes (2, 3) from the open set and opens two tiles more,
    none a second time. *)
Lemma search_opens_passable_tiles_once_witness :
  ∃ st', after 2 smallWorld (2, 0) underway = Some st'
         ∧ openSet st' = [(2, 4); (0, 4); (1, 3); (0, 3); (2, 2); (1, 2)]
         ∧ tidy smallWorld st'.
Proof.
  eexists. split; [vm_compute; reflexivity|]. split; [reflexivity|].
  apply (search_opens_passable_tiles_once 2 smallWorld (2, 0) underway).
  - split; cbn [openSet underway].
    + apply NoDup_singleton.
    + intros n ->%list_elem_of_singleton. reflexivity.
  - vm_compute. reflexivity.
Defined.

(** ** The order on scores *)

Lemma numLt_spec a b :
  numLt a b = true
  ↔ match a, b with
    | Fin p, Fin q => (p < q)%Q
    | Fin _, Inf => True
    | Inf, _ => False
    end.
Proof.
  destruct a as [p|], b as [q|]; simpl; try done.
  apply Qlt_bool_iff.
Qed.

Lemma numLt_false a b :
  numLt a b = false
  ↔ match a, b with
    | Fin p, Fin q => (q <= p)%Q
    | Fin _, Inf => False
    | Inf, _ => True
    end.
Proof.
  destruct a as [p|], b as [q|]; simpl; try done.
  apply Qlt_bool_false.
Qed.

Lemma numLe_refl a : numLe a a.
Proof. unfold numLe. apply numLt_false. destruct a; [lra|done]. Qed.

Lemma numLe_trans a b c : numLe a b → numLe b c → numLe a c.
Proof.
  unfold numLe. rewrite !numLt_false.
  destruct a, b, c; try done. lra.
Qed.

Lemma numLt_numLe a b : numLt a b = true → numLe a b.
Proof.
  unfold numLe. rewrite numLt_spec, numLt_false.
  destruct a, b; try done. lra.
Qed.

Lemma numLt_le_trans a b c : numLt a b = true → numLe b c → numLt a c = true.
Proof.
  unfold numLe. rewrite !numLt_spec, numLt_false.
  destruct a, b, c; try done. lra.
Qed.

(** The scan of [lowest], from any point of the loop: [pre] are the
    nodes already seen. *)
Lemma lowest_scan fs : ∀ rest pre current currentIdx,
  pre !! currentIdx = Some current →
  (∀ n, n ∈ pre → numLe (orInfinity (fs !! current)) (orInfinity (fs !! n))) →
  (∀ j n, (j < currentIdx)%nat → pre !! j = Some n →
     numLt (orInfinity (fs !! current)) (orInfinity (fs !! n)) = true) →
  let r := lowest fs rest (length pre) current currentIdx in
  (pre ++ rest) !! r.2 = Some r.1
  ∧ (∀ n, n ∈ pre ++ rest →
       numLe (orInfinity (fs !! r.1)) (orInfinity (fs !! n)))
  ∧ (∀ j n, (j < r.2)%nat → (pre ++ rest) !! j = Some n →
       numLt (orInfinity (fs !! r.1)) (orInfinity (fs !! n)) = true).
Proof.
  induction rest as [|n rest IH]; intros pre current currentIdx Hc Hmin Hfirst.
  - simpl. rewrite app_nil_r. done.
  - cbn [lowest]. cbv zeta.
    replace (pre ++ n :: rest) with ((pre ++ [n]) ++ rest)
      by (by rewrite <- app_assoc).
    replace (S (length pre)) with (length (pre ++ [n]))
      by (rewrite length_app; simpl; lia).
    destruct (numLt (orInfinity (fs !! n)) (orInfinity (fs !! current)))
      eqn:E.
    + apply IH.
      * rewrite lookup_app_r by lia. by rewrite Nat.sub_diag.
      * intros m [Hm| ->%list_elem_of_singleton]%elem_of_app.
        -- eapply numLe_trans; [by apply numLt_numLe|by apply Hmin].
        -- apply numLe_refl.
      * intros j m Hj Hm. rewrite lookup_app_l in Hm by lia.
        eapply numLt_le_trans; [done|]. apply Hmin.
        by eapply list_elem_of_lookup_2.
    + apply IH.
      * rewrite lookup_app_l; [done|]. by eapply lookup_lt_Some.
      * intros m [Hm| ->%list_elem_of_singleton]%elem_of_app; [by apply Hmin|].
        done.
      * intros j m Hj Hm. apply (Hfirst j m Hj).
        rewrite lookup_app_l in Hm; [done|].
        apply lookup_lt_Some in Hc. lia.
Qed.

(** X14.  The scan for the next node picks the first open node of least
    [fScore]: the node it returns stands in the open set at the index
    returned with it, no open node has a lower score, and every node
    before it has a strictly higher one.  A missing score, and the score
    0, count as [Infinity]. *)
Theorem lowest_is_first_minimum (fs : gmap Node Num) (first : Node)
    (rest : list Node) :
  let r := lowest fs rest 1 first 0 in
  (first :: rest) !! r.2 = Some r.1
  ∧ (∀ n, n ∈ first :: rest →
       numLe (orInfinity (fs !! r.1)) (orInfinity (fs !! n)))
  ∧ (∀ j n, (j < r.2)%nat → (first :: rest) !! j = Some n →
       numLt (orInfinity (fs !! r.1)) (orInfinity (fs !! n)) = true).
Proof.
  apply (lowest_scan fs rest [first] first 0%nat).
  - done.
  - intros n ->%list_elem_of_singleton. apply numLe_refl.
  - intros j n Hj. lia.
Qed.

Lemma lowest_is_first_minimum_witness :
  let fs : gmap Node Num :=
    {[ (0, 0) := Fin 3; (1, 0) := Fin 2; (2, 0) := Fin 2 ]} in
  let r := lowest fs [(1, 0); (2, 0)] 1 (0, 0) 0 in
  numLe (orInfinity (fs !! r.1)) (orInfinity (fs !! ((2, 0) : Node))).
Proof.
  intros fs r.
  destruct (lowest_is_first_minimum fs (0, 0) [(1, 0); (2, 0)])
    as (_ & H & _).
  apply (H (2, 0)). do 2 right. left.
Defined.

(** ** The heuristic *)

(** X15.  The heuristic is a distance on tiles: it is never negative, it
    is 0 exactly between a tile and itself, it is symmetric and obeys the
    triangle inequality.  It is not a lower bound of the cost of the
    search: to each of the four diagonal neighbours of a tile it is 2,
    and the search charges 1.4 for that step. *)
Theorem heuristic_is_a_distance (x1 y1 x2 y2 x3 y3 : Z) :
  (0 <= heuristic x1 y1 x2 y2)%Q
  ∧ (heuristic x1 y1 x2 y2 == 0 ↔ x1 = x2 ∧ y1 = y2)%Q
  ∧ heuristic x1 y1 x2 y2 = heuristic x2 y2 x1 y1
  ∧ (heuristic x1 y1 x3 y3 <= heuristic x1 y1 x2 y2 + heuristic x2 y2 x3 y3)%Q
  ∧ (Z.abs (x1 - x2) = 1 → Z.abs (y1 - y2) = 1 →
     (14 # 10 < heuristic x1 y1 x2 y2)%Q).
Proof.
  unfold heuristic. split; [|split; [|split; [|split]]].
  - change 0%Q with (inject_Z 0). rewrite <- Zle_Qle. lia.
  - change 0%Q with (inject_Z 0). rewrite inject_Z_injective. lia.
  - f_equal. lia.
  - rewrite <- inject_Z_plus, <- Zle_Qle. lia.
  - intros -> ->. reflexivity.
Qed.

Lemma heuristic_is_a_distance_witness :
  (14 # 10 < heuristic 3 4 2 5)%Q.
Proof.
  destruct (heuristic_is_a_distance 3 4 2 5 0 0) as (_ & _ & _ & _ & H).
  apply H; reflexivity.
Defined.

(** ** Walking back along the parents *)

Lemma chain_apart cf chain root :
  links cf chain → head chain = Some root → cf !! root = None →
  ∀ i j a, (i < j)%nat → chain !! i = Some a → chain !! j = Some a → False.
Proof.
  intros Hl Hh Hr. induction i as [|i IH]; intros j a Hij Hi Hj.
  - destruct j as [|j]; [lia|].
    assert (a = root) as ->.
    { destruct chain; simpl in *; congruence. }
    destruct (lookup_lt_is_Some_2 chain j) as [b Hb].
    { apply lookup_lt_Some in Hj. lia. }
    specialize (Hl j b root Hb Hj). congruence.
  - destruct j as [|j]; [lia|].
    destruct (lookup_lt_is_Some_2 chain i) as [b Hb].
    { apply lookup_lt_Some in Hi. lia. }
    destruct (lookup_lt_is_Some_2 chain j) as [b' Hb'].
    { apply lookup_lt_Some in Hj. lia. }
    pose proof (Hl i b a Hb Hi). pose proof (Hl j b' a Hb' Hj).
    apply (IH j b); [lia|done|congruence].
Qed.

Lemma chain_short cf chain root :
  links cf chain → head chain = Some root → cf !! root = None →
  (length chain <= S (size cf))%nat.
Proof.
  intros Hl Hh Hr.
  assert (Hnd : NoDup chain).
  { apply NoDup_alt. intros i j a Hi Hj.
    destruct (Nat.lt_trichotomy i j) as [Hlt|[Heq|Hgt]]; [|done|].
    - by destruct (chain_apart cf chain root Hl Hh Hr i j a).
    - by destruct (chain_apart cf chain root Hl Hh Hr j i a). }
  destruct chain as [|c0 chain]; [simpl; lia|]. simpl.
  apply NoDup_cons in Hnd as [_ Hnd].
  assert (Hsub : list_to_set chain ⊆ dom cf).
  { intros n Hn%elem_of_list_to_set.
    apply list_elem_of_lookup_1 in Hn as [i Hi].
    destruct (lookup_lt_is_Some_2 (c0 :: chain) i) as [b Hb].
    { apply lookup_lt_Some in Hi. simpl. lia. }
    apply elem_of_dom. exists b. by apply (Hl i b n). }
  apply subseteq_size in Hsub.
  rewrite size_list_to_set, size_dom in Hsub by done. lia.
Qed.

Lemma walkBack_follow cf : ∀ chain current rest fuel root,
  links cf (chain ++ [current]) → head (chain ++ [current]) = Some root →
  cf !! root = None → (length chain <= fuel)%nat →
  walkBack fuel cf current (center <$> current :: rest)
  = Some (center <$> chain ++ current :: rest).
Proof.
  induction chain as [|parent chain IH] using rev_ind;
    intros current rest fuel root Hl Hh Hr Hfuel.
  - simpl in Hh. injection Hh as ->.
    destruct fuel; simpl; by rewrite Hr.
  - assert (Hp : cf !! current = Some parent).
    { apply (Hl (length chain) parent current).
      - rewrite <- app_assoc. by apply list_lookup_middle.
      - rewrite lookup_app_r by (rewrite length_app; simpl; lia).
        rewrite length_app. simpl.
        by replace (S (length chain) - (length chain + 1))%nat with 0%nat
          by lia. }
    rewrite length_app in Hfuel. simpl in Hfuel.
    destruct fuel as [|fuel]; [lia|]. cbn [walkBack]. rewrite Hp.
    change (center parent :: (center <$> current :: rest))
      with (center <$> parent :: current :: rest).
    rewrite (IH parent (current :: rest) fuel root).
    + by rewrite <- app_assoc.
    + intros i a b Ha Hb. apply (Hl i a b).
      * rewrite lookup_app_l; [done|]. by eapply lookup_lt_Some.
      * rewrite lookup_app_l; [done|]. by eapply lookup_lt_Some.
    + rewrite <- Hh. by destruct chain.
    + done.
    + lia.
Qed.

(** X16.  [reconstructPath] returns exactly when the parents of the
    node lead back to a node without parent, and then lists the centres
    of that chain, the parentless node first and the node itself last.
    A chain of parents cannot be longer than the map has entries, which
    is why the walk needs no more rounds than that. *)
Theorem reconstructPath_follows_parents (cf : gmap Node Node)
    (current : Node) :
  (∀ chain root,
     links cf chain → head chain = Some root → cf !! root = None →
     last chain = Some current →
     reconstructPath cf current = Some (center <$> chain))
  ∧ (∀ p, reconstructPath cf current = Some p →
       ∃ chain root,
         p = center <$> chain ∧ links cf chain
         ∧ head chain = Some root ∧ cf !! root = None
         ∧ last chain = Some current).
Proof.
  split; [|apply reconstructPath_chain].
  intros chain root Hl Hh Hr Hlast.
  destruct chain as [|c chain] using rev_ind; [done|]. clear IHchain.
  rewrite last_snoc in Hlast. injection Hlast as ->.
  unfold reconstructPath.
  change [center current] with (center <$> current :: []).
  apply (walkBack_follow cf chain current [] (size cf) root); try done.
  pose proof (chain_short cf _ root Hl Hh Hr) as Hlen.
  rewrite length_app in Hlen. simpl in Hlen. lia.
Qed.

Lemma reconstructPath_follows_parents_witness :
  reconstructPath {[ ((1, 1) : Node) := ((0, 0) : Node);
                     ((2, 1) : Node) := ((1, 1) : Node) ]} (2, 1)
  = Some (center <$> [(0, 0); (1, 1); (2, 1)]).
Proof.
  destruct (reconstructPath_follows_parents
              {[ ((1, 1) : Node) := ((0, 0) : Node);
                 ((2, 1) : Node) := ((1, 1) : Node) ]} (2, 1)) as [H _].
  apply (H [(0, 0); (1, 1); (2, 1)] (0, 0)); try reflexivity.
  intros [|[|[|i]]] a b Ha Hb; simpl in Ha, Hb; try done;
    injection Ha as <-; injection Hb as <-; reflexivity.
Defined.

(** ** The choice of a food source *)

Lemma nearestScan_spec sqrt me : ∀ rest pre nearest nd,
  nearestOk sqrt me pre nearest →
  nd = match nearest with
       | Some i => default Inf (Fin ∘ distTo sqrt me <$> pre !! i)
       | None => Inf
       end →
  nearestOk sqrt me (pre ++ rest)
            (nearestScan sqrt me rest (length pre) nearest nd).
Proof.
  induction rest as [|food rest IH]; intros pre nearest nd Hok Hnd.
  { simpl. by rewrite app_nil_r. }
  cbn [nearestScan].
  replace (pre ++ food :: rest) with ((pre ++ [food]) ++ rest)
    by (by rewrite <- app_assoc).
  replace (S (length pre)) with (length (pre ++ [food]))
    by (rewrite length_app; simpl; lia).
  assert (Hkeep : (FoodSource.amount food <= 0)%Q ∨
            (∃ i f, nearest = Some i ∧ pre !! i = Some f
                    ∧ (distTo sqrt me f <= distTo sqrt me food)%Q) →
          nearestOk sqrt me (pre ++ [food]) nearest
          ∧ nd = match nearest with
                 | Some i => default Inf (Fin ∘ distTo sqrt me
                                            <$> (pre ++ [food]) !! i)
                 | None => Inf
                 end).
  { intros Hcase. destruct nearest as [i|]; simpl in Hok |- *.
    - destruct Hok as (f & Hf & Hpos & Hmin & Hfirst).
      assert (Hi : (i < length pre)%nat) by (by eapply lookup_lt_Some).
      split.
      + exists f. rewrite lookup_app_l by done.
        split; [done|]. split; [done|]. split.
        * intros j f' Hj Hp.
          destruct (decide (j < length pre)%nat) as [Hlt|Hge].
          -- rewrite lookup_app_l in Hj by done. by eapply Hmin.
          -- rewrite lookup_app_r in Hj by lia.
             apply list_lookup_singleton_Some in Hj as [_ <-].
             destruct Hcase as [Hc|(i' & f0 & [= <-] & Hf0 & Hle)]; [lra|].
             congruence.
        * intros j f' Hj Hl Hp. rewrite lookup_app_l in Hl by lia.
          by eapply Hfirst.
      + by rewrite lookup_app_l.
    - split; [|done]. intros f [Hin| ->%list_elem_of_singleton]%elem_of_app.
      + by apply Hok.
      + destruct Hcase as [Hc|(i' & f0 & [=] & _)]. done. }
  destruct (Qlt_bool 0 (FoodSource.amount food)) eqn:Epos.
  - apply Qlt_bool_iff in Epos.
    fold (distTo sqrt me food).
    destruct (numLt (Fin (distTo sqrt me food)) nd) eqn:Elt.
    + apply IH.
      * simpl. exists food.
        rewrite lookup_app_r by lia. rewrite Nat.sub_diag.
        split; [done|]. split; [done|].
        assert (Hbefore : ∀ j f', (j < length pre)%nat → pre !! j = Some f' →
                  (0 < FoodSource.amount f')%Q →
                  (distTo sqrt me food < distTo sqrt me f')%Q).
        { intros j f' Hj Hl Hp. destruct nearest as [i|]; simpl in Hok.
          - destruct Hok as (f & Hf & Hpos & Hmin & _).
            rewrite Hf in Hnd. simpl in Hnd. subst nd.
            apply numLt_spec in Elt. specialize (Hmin j f' Hl Hp). lra.
          - apply list_elem_of_lookup_2 in Hl. specialize (Hok f' Hl). lra. }
        split.
        -- intros j f' Hl Hp.
           destruct (decide (j < length pre)%nat) as [Hlt|Hge].
           ++ rewrite lookup_app_l in Hl by done.
              specialize (Hbefore j f' Hlt Hl Hp). lra.
           ++ rewrite lookup_app_r in Hl by lia.
              apply list_lookup_singleton_Some in Hl as [_ <-]. lra.
        -- intros j f' Hj Hl Hp. rewrite lookup_app_l in Hl by done.
           by eapply Hbefore.
      * rewrite lookup_app_r by lia. by rewrite Nat.sub_diag.
    + apply numLt_false in Elt.
      destruct Hkeep as [H1 H2]; [|by apply IH].
      right. destruct nearest as [i|]; simpl in Hok.
      * destruct Hok as (f & Hf & _). rewrite Hf in Hnd. simpl in Hnd.
        subst nd. eauto.
      * by subst nd.
  - apply Qlt_bool_false in Epos.
    destruct Hkeep as [H1 H2]; [by left|by apply IH].
Qed.

(** X17.  The target an idle worker chooses is the nearest source that
    holds food, the first in list order among equally near ones; it
    chooses none exactly when no source holds food.  This holds for
    whatever values [Math.sqrt] returns. *)
Theorem nearestFood_is_nearest (sqrt : Q → Q) (me : Ant.t)
    (foods : list FoodSource.t) :
  nearestOk sqrt me foods (nearestFood sqrt me foods)
  ∧ (nearestFood sqrt me foods = None
     ↔ ∀ f, f ∈ foods → (FoodSource.amount f <= 0)%Q).
Proof.
  assert (H : nearestOk sqrt me foods (nearestFood sqrt me foods)).
  { apply (nearestScan_spec sqrt me foods [] None Inf); [|done].
    intros f Hf. by apply elem_of_nil in Hf. }
  split; [done|]. destruct (nearestFood sqrt me foods) as [i|]; simpl in H.
  - split; [done|]. intros Hall. destruct H as (f & Hf & Hpos & _).
    apply list_elem_of_lookup_2 in Hf. specialize (Hall f Hf). lra.
  - done.
Qed.

Lemma nearestFood_is_nearest_witness :
  nearestFood (λ q, q) (newWorkerAnt 0 0 false)
              [newFoodSource 3 0 0; newFoodSource 1 1 0] = None.
Proof.
  destruct (nearestFood_is_nearest (λ q, q) (newWorkerAnt 0 0 false)
              [newFoodSource 3 0 0; newFoodSource 1 1 0]) as [_ [_ H]].
  apply H. intros f Hf.
  repeat (apply elem_of_cons in Hf as [->|Hf]);
    [vm_compute; discriminate..|by apply elem_of_nil in Hf].
Defined.

(** ** The player's hands *)

Lemma firstInRange_spec me : ∀ foods i0 fi,
  firstInRange me foods i0 = Some fi →
  ∃ k f, fi = (i0 + k)%nat ∧ foods !! k = Some f ∧ takeable me f
         ∧ ∀ j f', (j < k)%nat → foods !! j = Some f' → ¬ takeable me f'.
Proof.
  induction foods as [|food rest IH]; intros i0 fi H; cbn [firstInRange] in H;
    [done|].
  destruct (distLt _ _ _ && Qlt_bool 0 (FoodSource.amount food)) eqn:E.
  - injection H as <-. exists 0%nat, food. rewrite Nat.add_0_r.
    apply andb_true_iff in E as [E1 E2%Qlt_bool_iff].
    split; [done|]. split; [done|]. split; [done|]. intros j f' Hj. lia.
  - apply IH in H as (k & f & -> & Hk & Ht & Hfirst).
    exists (S k), f. split; [lia|]. split; [done|]. split; [done|].
    intros [|j] f' Hj Hl.
    + injection Hl as <-. intros [H1 H2%Qlt_bool_iff].
      by rewrite H1, H2 in E.
    + apply (Hfirst j f'); [lia|done].
Qed.

Lemma firstInRange_first me : ∀ foods i0 fi f,
  foods !! fi = Some f → takeable me f →
  (∀ j f', (j < fi)%nat → foods !! j = Some f' → ¬ takeable me f') →
  firstInRange me foods i0 = Some (i0 + fi)%nat.
Proof.
  induction foods as [|food rest IH]; intros i0 [|fi] f Hf Ht Hfirst;
    cbn [firstInRange]; try done.
  - injection Hf as ->. destruct Ht as [-> ->%Qlt_bool_iff].
    by rewrite Nat.add_0_r.
  - destruct (distLt _ _ _ && Qlt_bool 0 (FoodSource.amount food)) eqn:E.
    + apply andb_true_iff in E as [E1 E2%Qlt_bool_iff].
      by destruct (Hfirst 0%nat food ltac:(lia) eq_refl).
    + rewrite (IH (S i0) fi f Hf Ht); [f_equal; lia|].
      intros j f' Hj Hl. apply (Hfirst (S j) f'); [lia|done].
Qed.

(** What [playerPickup] does, case by case. *)
Lemma playerPickup_cases g ci wi :
  playerPickup g ci wi = g
  ∨ ∃ c me fi f,
      Game.colonies g !! ci = Some c ∧ Colony.workers c !! wi = Some me
      ∧ Ant.carryingFood me = false
      ∧ Game.foodSources g !! fi = Some f ∧ takeable me f
      ∧ (∀ j f', (j < fi)%nat → Game.foodSources g !! j = Some f' →
           ¬ takeable me f')
      ∧ playerPickup g ci wi
        = setWorkerAt
            (setFoodSources g
               (<[fi := setAmount f
                    (FoodSource.amount f
                     - Qmin playerCapacity (FoodSource.amount f))]>
                  (Game.foodSources g)))
            ci wi
            (setCarried me true (Qmin playerCapacity (FoodSource.amount f))).
Proof.
  unfold playerPickup.
  destruct (workerAt g ci wi) as [me|] eqn:Hat; [|by left].
  destruct (Ant.carryingFood me) eqn:Hcarry; [by left|].
  destruct (firstInRange me (Game.foodSources g) 0) as [fi|] eqn:Hfi;
    [|by left].
  apply firstInRange_spec in Hfi as (k & f & -> & Hk & Ht & Hfirst).
  simpl. rewrite Hk. right.
  apply workerAt_Some in Hat as (c & Hc & Hw).
  exists c, me, k, f. done.
Qed.

(** What [playerDeliver] does, case by case. *)
Lemma playerDeliver_cases g ci wi :
  playerDeliver g ci wi = g
  ∨ ∃ c me q,
      Game.colonies g !! ci = Some c ∧ Colony.workers c !! wi = Some me
      ∧ Colony.queen c = Some q ∧ Ant.carryingFood me = true
      ∧ distLt (Ant.x (Queen.ant q) - Ant.x me)
               (Ant.y (Queen.ant q) - Ant.y me) (5 # 2) = true
      ∧ playerDeliver g ci wi
        = setColonies g
            (<[ci := setWorkers
                       (setFood c (Colony.food c + Ant.foodAmount me))
                       (<[wi := setCarried me false 0]> (Colony.workers c))]>
               (Game.colonies g)).
Proof.
  unfold playerDeliver.
  destruct (Game.colonies g !! ci) as [c|] eqn:Hc; [|by left].
  destruct (Colony.workers c !! wi) as [me|] eqn:Hw; [|by left].
  destruct (Colony.queen c) as [q|] eqn:Hq; [|by left].
  destruct (Ant.carryingFood me && _) eqn:E; [|by left].
  apply andb_true_iff in E as [E1 E2]. right. exists c, me, q. done.
Qed.

Lemma totalFood_playerPickup g ci wi :
  (∀ me, workerAt g ci wi = Some me → tidyLoad me) →
  (totalFood (playerPickup g ci wi) == totalFood g)%Q.
Proof.
  intros Htidy.
  destruct (playerPickup_cases g ci wi)
    as [->|(c & me & fi & f & Hc & Hw & Hcarry & Hf & _ & _ & ->)]; [done|].
  assert (Hat : workerAt g ci wi = Some me) by (apply workerAt_Some; eauto).
  destruct (Htidy me Hat) as [_ Hzero]. specialize (Hzero Hcarry).
  unfold totalFood. rewrite (setWorkerAt_colonies _ ci wi _ c) by done.
  simpl Game.foodSources. simpl Game.colonies. simpl Game.enemies.
  rewrite (sumQ_insert FoodSource.amount _ fi f _ Hf).
  rewrite (sumQ_insert colonyFood _ ci c _ Hc).
  rewrite (colonyFood_setWorker c wi me _ Hw). simpl. lra.
Qed.

Lemma totalFood_playerDeliver g ci wi :
  (totalFood (playerDeliver g ci wi) == totalFood g)%Q.
Proof.
  destruct (playerDeliver_cases g ci wi)
    as [->|(c & me & q & Hc & Hw & Hq & Hcarry & _ & ->)]; [done|].
  unfold totalFood. simpl Game.foodSources. simpl Game.colonies.
  simpl Game.enemies.
  rewrite (sumQ_insert colonyFood _ ci c _ Hc).
  unfold colonyFood at 3. simpl Colony.food. simpl Colony.workers.
  rewrite (sumQ_insert Ant.foodAmount _ wi me _ Hw).
  unfold colonyFood. simpl. lra.
Qed.

(** X18.  The player takes from the first source, in the order of
    [game.foodSources], that lies within 1.5 and holds food, not from
    the nearest: when the player carries nothing and [f], at index [fi],
    is that source, the pick-up loop takes [min(15, amount)] from it,
    the player carries exactly that, and every other source is left as
    it was. *)
Theorem player_takes_first_source_in_reach (g : Game.t) (ci wi fi : nat)
    (c : Colony.t) (me : Ant.t) (f : FoodSource.t) :
  Game.colonies g !! ci = Some c → Colony.workers c !! wi = Some me →
  Ant.carryingFood me = false →
  Game.foodSources g !! fi = Some f → takeable me f →
  (∀ j f', (j < fi)%nat → Game.foodSources g !! j = Some f' →
     ¬ takeable me f') →
  let taken := Qmin playerCapacity (FoodSource.amount f) in
  (0 < taken <= playerCapacity)%Q
  ∧ workerAt (playerPickup g ci wi) ci wi = Some (setCarried me true taken)
  ∧ Game.foodSources (playerPickup g ci wi)
    = <[fi := setAmount f (FoodSource.amount f - taken)]> (Game.foodSources g)
  ∧ (0 <= FoodSource.amount f - taken)%Q.
Proof.
  intros Hc Hw Hcarry Hf Ht Hfirst taken.
  assert (Hat : workerAt g ci wi = Some me) by (apply workerAt_Some; eauto).
  assert (Htaken : (0 < taken <= playerCapacity)%Q
                   ∧ (0 <= FoodSource.amount f - taken)%Q).
  { destruct Ht as [_ Hpos]. unfold taken.
    pose proof (Q.le_min_l playerCapacity (FoodSource.amount f)).
    pose proof (Q.le_min_r playerCapacity (FoodSource.amount f)).
    destruct (Q.min_spec playerCapacity (FoodSource.amount f))
      as [[_ E]|[_ E]]; rewrite E; unfold playerCapacity in *; lra. }
  destruct Htaken as [H1 H2]. split; [done|].
  assert (E : playerPickup g ci wi
    = setWorkerAt
        (setFoodSources g
           (<[fi := setAmount f (FoodSource.amount f - taken)]>
              (Game.foodSources g)))
        ci wi (setCarried me true taken)).
  { unfold playerPickup. rewrite Hat, Hcarry.
    rewrite (firstInRange_first me _ 0 fi f Hf Ht Hfirst). simpl.
    by rewrite Hf. }
  rewrite E. split; [|split; [done|done]].
  eapply workerAt_setWorkerAt_eq. by rewrite workerAt_setFoodSources.
Qed.

Lemma player_takes_first_source_in_reach_witness :
  workerAt (playerPickup pantry 0 0) 0 0
  = Some (setCarried (newWorkerAnt 0 0 true) true (Qmin playerCapacity 40)).
Proof.
  destruct (player_takes_first_source_in_reach pantry 0 0 1 _
              (newWorkerAnt 0 0 true) (newFoodSource 1 0 40)
              eq_refl eq_refl eq_refl eq_refl) as (_ & H & _).
  - split; [reflexivity|]. vm_compute. reflexivity.
  - intros [|j] f' Hj Hl; [|lia]. injection Hl as <-.
    intros [H _]. vm_compute in H. discriminate.
  - exact H.
Defined.

(** X19.  The two food statements of [updatePlayer] move food and
    neither make nor lose any: whatever the player does or does not pick
    up and deliver in an update, the total of the source amounts, the
    carried amounts and the stockpiles is the same afterwards, and the
    player still holds nothing unless carrying, and never more than 15
    after a pick-up. *)
Theorem updatePlayer_food_conserves (g : Game.t) (ci wi : nat) (me : Ant.t) :
  workerAt g ci wi = Some me → tidyLoad me →
  (totalFood (updatePlayer_food g ci wi) == totalFood g)%Q
  ∧ ∃ me', workerAt (updatePlayer_food g ci wi) ci wi = Some me'
      ∧ tidyLoad me'
      ∧ (Ant.carryingFood me = false →
         (Ant.foodAmount me' <= playerCapacity)%Q).
Proof.
  intros Hat Htidy. unfold updatePlayer_food.
  assert (Hp : ∃ me1, workerAt (playerPickup g ci wi) ci wi = Some me1
             ∧ tidyLoad me1
             ∧ (Ant.carryingFood me = false →
                (Ant.foodAmount me1 <= playerCapacity)%Q)).
  { destruct (playerPickup_cases g ci wi)
      as [->|(c & me0 & fi & f & Hc & Hw & Hcarry & Hf & Ht & _ & ->)].
    - exists me. split; [done|]. split; [done|].
      intros Hc. destruct Htidy as [_ Hz]. rewrite (Hz Hc).
      by unfold playerCapacity.
    - assert (me0 = me) as ->.
      { apply workerAt_Some in Hat as (c' & Hc' & Hw'). congruence. }
      eexists. split.
      { eapply workerAt_setWorkerAt_eq. by rewrite workerAt_setFoodSources. }
      destruct Ht as [_ Hpos].
      pose proof (Q.le_min_l playerCapacity (FoodSource.amount f)).
      assert (0 < Qmin playerCapacity (FoodSource.amount f))%Q.
      { destruct (Q.min_spec playerCapacity (FoodSource.amount f))
          as [[_ E]|[_ E]]; rewrite E; [by unfold playerCapacity|done]. }
      split; [|done]. split; simpl; [lra|done]. }
  destruct Hp as (me1 & Hat1 & Htidy1 & Hcap).
  split.
  { rewrite totalFood_playerDeliver. apply totalFood_playerPickup.
    intros me0 H0. by replace me0 with me by congruence. }
  destruct (playerDeliver_cases (playerPickup g ci wi) ci wi)
    as [->|(c & me2 & q & Hc & Hw & Hq & Hcarry & _ & ->)].
  - exists me1. done.
  - exists (setCarried me2 false 0). split.
    + apply workerAt_Some. eexists. simpl. split.
      * apply list_lookup_insert_eq. by eapply lookup_lt_Some.
      * simpl. apply list_lookup_insert_eq. by eapply lookup_lt_Some.
    + split; [split; simpl; [lra|done]|]. intros _. simpl.
      by unfold playerCapacity.
Qed.

Lemma updatePlayer_food_conserves_witness :
  (totalFood (updatePlayer_food pantry 0 0) == totalFood pantry)%Q.
Proof.
  destruct (updatePlayer_food_conserves pantry 0 0 (newWorkerAnt 0 0 true)
              eq_refl) as [H _]; [|exact H].
  split; [vm_compute; discriminate|reflexivity].
Defined.

(** ** Combat: one update of a worker *)








(** ** Movement *)

Lemma stepOrDig_stepsOrDigs w me dirX dirY speed dt diag main :
  stepsOrDigs w me (stepOrDig w me dirX dirY speed dt diag main).
Proof.
  unfold stepOrDig. cbv zeta.
  destruct (canMove w _ _) eqn:Hm.
  - left. by cbn [fst snd setPos Ant.x Ant.y].
  - right. split; [done|]. cbn [fst].
    destruct (Qlt_bool (1 # 10) (Qabs dirX) && Qlt_bool (1 # 10) (Qabs dirY)).
    + exists [ ((Ant.x me + dirX * (6 # 10))%Q, Ant.y me, (dt * diag)%Q);
               (Ant.x me, (Ant.y me + dirY * (6 # 10))%Q, (dt * diag)%Q);
               ((Ant.x me + dirX * (6 # 10))%Q,
                (Ant.y me + dirY * (6 # 10))%Q, (dt * main)%Q) ].
      split; [simpl; lia|done].
    + exists [ ((Ant.x me + dirX * (6 # 10))%Q,
                (Ant.y me + dirY * (6 # 10))%Q, (dt * main)%Q) ].
      split; [simpl; lia|done].
Qed.

Lemma stepsOrDigs_stay w me : stepsOrDigs w me (w, me).
Proof. right. split; [done|]. exists []. split; [simpl; lia|done]. Qed.

Lemma stepsOrDigs_safe w me r :
  stepsOrDigs w me r →
  (canMove w (Ant.x me) (Ant.y me) = true →
   canMove r.1 (Ant.x r.2) (Ant.y r.2) = true)
  ∧ (∀ a b, canMove w a b = true → canMove r.1 a b = true)
  ∧ shape r.1 = shape w.
Proof.
  intros [(-> & _ & Hm)|(-> & calls & _ & ->)].
  - done.
  - split; [apply canMove_digAll_keeps|].
    split; [intros a b; apply canMove_digAll_keeps|].
    clear. revert w.
    induction calls as [|[[px py] p] calls IH]; intros w; simpl; [done|].
    rewrite IH. by destruct (digTile_frame w px py p).
Qed.

(** X20.  An ant steps or digs, never both, and never walks into the
    rock.  Each of the three movement statements (the player's, a
    worker's [moveTowards] and an enemy ant's) either moves the ant to a
    tile that [canMove] accepts and leaves the world alone, or leaves
    the ant where it is and makes at most three [digTile] calls.  An ant
    that stands on a passable tile stands on one afterwards, every tile
    that was passable still is, and the grid keeps its dimensions.  This
    holds for whatever values [Math.sqrt] returns. *)
Theorem movement_steps_or_digs (sqrt : Q → Q) (w : World) (me : Ant.t)
    (input : Q * Q) (targetX targetY dt : Q) (r : World * Ant.t) :
  r = updatePlayer_move w me input dt
  ∨ r = moveTowards sqrt w me targetX targetY dt
  ∨ r = EnemyAnt_moveTowards sqrt w me targetX targetY dt →
  stepsOrDigs w me r
  ∧ (canMove w (Ant.x me) (Ant.y me) = true →
     canMove r.1 (Ant.x r.2) (Ant.y r.2) = true)
  ∧ (∀ a b, canMove w a b = true → canMove r.1 a b = true)
  ∧ shape r.1 = shape w.
Proof.
  intros Hr.
  assert (H : stepsOrDigs w me r).
  { destruct Hr as [->|[->| ->]].
    - unfold updatePlayer_move.
      destruct (_ || _); auto using stepOrDig_stepsOrDigs, stepsOrDigs_stay.
    - unfold moveTowards. cbv zeta.
      destruct (Qlt_bool _ _);
        auto using stepOrDig_stepsOrDigs, stepsOrDigs_stay.
    - unfold EnemyAnt_moveTowards. cbv zeta.
      destruct (Qlt_bool _ _);
        auto using stepOrDig_stepsOrDigs, stepsOrDigs_stay. }
  split; [done|]. by apply stepsOrDigs_safe.
Qed.

(** The player pushes down from (1/2, 49/10) in [smallWorld], against
    the dirt of row 5: it stays where it is, digs, and stands on open
    ground as before. *)
Lemma movement_steps_or_digs_witness :
  let r := updatePlayer_move smallWorld (newWorkerAnt (1 # 2) (49 # 10) true)
                             (0, 1)%Q (1 # 10) in
  canMove r.1 (Ant.x r.2) (Ant.y r.2) = true.
Proof.
  destruct (movement_steps_or_digs (λ q, q) smallWorld
              (newWorkerAnt (1 # 2) (49 # 10) true) (0, 1)%Q 0 0 (1 # 10) _
              (or_introl eq_refl)) as (_ & H & _).
  apply H. reflexivity.
Defined.

(** ** Food in combat *)

Lemma sumQ_snoc {A} (f : A → Q) (l : list A) x :
  (sumQ (f <$> l ++ [x]) == sumQ (f <$> l) + f x)%Q.
Proof.
  induction l as [|a l IH].
  - change (f x + 0 == 0 + f x)%Q. lra.
  - change (f a + sumQ (f <$> l ++ [x]) == f a + sumQ (f <$> l) + f x)%Q.
    rewrite IH. lra.
Qed.

(** A blow on a living ant moves its load to the ground when it kills,
    and moves nothing otherwise. *)
Lemma takeDamage_liveLoad v d fs :
  Ant.alive v = true → tidyLoad v →
  (liveLoad (takeDamage v d fs).1
   + sumQ (FoodSource.amount <$> (takeDamage v d fs).2)
   == liveLoad v + sumQ (FoodSource.amount <$> fs))%Q.
Proof.
  intros Ha [Hpos Hzero]. unfold takeDamage. cbv zeta.
  destruct (Qle_bool (Ant.health v - d) 0).
  - cbn [fst snd]. unfold liveLoad at 1 2. rewrite Ha. cbn [setVitals Ant.alive].
    destruct (Ant.carryingFood v) eqn:Hc; cbn [andb].
    + destruct (Qlt_bool 0 (Ant.foodAmount v)) eqn:E.
      * rewrite sumQ_snoc. simpl. lra.
      * apply Qlt_bool_false in E. lra.
    + rewrite (Hzero eq_refl). lra.
  - cbn [fst snd]. unfold liveLoad. simpl. by rewrite Ha.
Qed.

Lemma colonyLiveFood_setWorker c wi me a :
  Colony.workers c !! wi = Some me →
  (colonyLiveFood (setWorkers c (<[wi := a]> (Colony.workers c)))
   == colonyLiveFood c - liveLoad me + liveLoad a)%Q.
Proof.
  intros H. unfold colonyLiveFood; simpl.
  rewrite (sumQ_insert liveLoad _ wi me a H). lra.
Qed.

Lemma liveFood_setWorkerAt g ci wi c me a :
  Game.colonies g !! ci = Some c → Colony.workers c !! wi = Some me →
  (liveFood (setWorkerAt g ci wi a) == liveFood g - liveLoad me + liveLoad a)%Q.
Proof.
  intros Hc Hw. unfold liveFood.
  rewrite (setWorkerAt_colonies g ci wi a c Hc).
  simpl Game.foodSources. simpl Game.enemies.
  rewrite (sumQ_insert colonyLiveFood _ ci c _ Hc).
  rewrite (colonyLiveFood_setWorker c wi me a Hw). lra.
Qed.

Lemma liveFood_rearm g ci wi : (liveFood (rearm g ci wi) == liveFood g)%Q.
Proof.
  unfold rearm. destruct (workerAt g ci wi) as [me|] eqn:Hat; [|done].
  apply workerAt_Some in Hat as (c & Hc & Hw).
  rewrite (liveFood_setWorkerAt g ci wi c me _ Hc Hw).
  unfold liveLoad. simpl. lra.
Qed.

Lemma liveFood_damageAt g tgt d v :
  antAt g tgt = Some v → Ant.alive v = true → tidyLoad v →
  (liveFood (damageAt g tgt d) == liveFood g)%Q.
Proof.
  intros Hv Ha Ht.
  pose proof (takeDamage_liveLoad v d (Game.foodSources g) Ha Ht) as Hd.
  destruct tgt as [i|cj wj|cj]; cbn [antAt damageAt] in Hv |- *.
  - rewrite Hv. unfold liveFood. simpl Game.foodSources. simpl Game.colonies.
    simpl Game.enemies.
    rewrite (sumQ_insert liveLoad _ i v _ Hv). lra.
  - rewrite Hv. apply workerAt_Some in Hv as (c & Hc & Hw).
    unfold liveFood at 1. simpl Game.foodSources.
    change (Game.colonies (setFoodSources ?g0 _)) with (Game.colonies g0).
    change (Game.enemies (setFoodSources ?g0 _)) with (Game.enemies g0).
    pose proof (liveFood_setWorkerAt g cj wj c v
                  (takeDamage v d (Game.foodSources g)).1 Hc Hw) as Hs.
    unfold liveFood in Hs |- *.
    change (Game.foodSources (setWorkerAt g cj wj ?a))
      with (Game.foodSources g) in Hs.
    lra.
  - destruct (Game.colonies g !! cj) as [c|] eqn:Hc; simpl in Hv; [|done].
    destruct (Colony.queen c) as [q|] eqn:Hq; simpl in Hv; [|done].
    injection Hv as <-.
    unfold liveFood. simpl Game.foodSources. simpl Game.colonies.
    simpl Game.enemies.
    rewrite (sumQ_insert colonyLiveFood _ cj c _ Hc).
    unfold colonyLiveFood at 2 3. rewrite Hq. simpl. lra.
Qed.

(** X21.  Fighting neither makes nor loses food.  When every ant holds
    no food unless it carries, a [checkCombat] call leaves the total of
    the source amounts, the stockpiles and the loads of the living as it
    was: the load of an ant that dies lies as a new source where it
    died. *)
Theorem combat_conserves_food (g : Game.t) (ci wi : nat) :
  (∀ r a, antAt g r = Some a → tidyLoad a) →
  (liveFood (checkCombat g ci wi) == liveFood g)%Q.
Proof.
  intros Htidy. unfold checkCombat.
  destruct (workerAt g ci wi) as [me|] eqn:Hat; [|done].
  destruct (firstTarget g ci wi) as [tgt|] eqn:Ht; [|done].
  rewrite liveFood_rearm.
  apply workerAt_Some in Hat as (c & Hc & Hw).
  destruct (firstTarget_hostile g ci wi c me tgt Hc Hw Ht) as [Hh _].
  assert (Hv : ∃ v, antAt g tgt = Some v ∧ Ant.alive v = true).
  { destruct tgt as [i|cj wj|cj]; cbn [hostile antAt] in Hh |- *.
    - destruct Hh as (e & -> & Ha & _). eauto.
    - destruct Hh as (c' & e & Hl & _ & Hwj & Ha & _). exists e.
      split; [|done]. apply workerAt_Some. eauto.
    - destruct Hh as (c' & q & Hl & _ & Hq & Ha & _). exists (Queen.ant q).
      rewrite Hl. simpl. by rewrite Hq. }
  destruct Hv as (v & Hv & Ha).
  apply (liveFood_damageAt g tgt _ v); eauto.
Qed.

Lemma combat_conserves_food_witness :
  (liveFood (checkCombat raid 0 0) == liveFood raid)%Q.
Proof.
  apply (combat_conserves_food raid 0 0).
  intros [i|[|[|cj]] [|wj]|[|[|cj]]] a Ha; vm_compute in Ha;
    try discriminate; injection Ha as <-;
    (split; [vm_compute; discriminate|]); cbn; intros; try discriminate;
    reflexivity.
Defined.

(** ** The sweeps *)

Lemma sumQ_filter {A} (f : A → Q) (P : A → Prop) `{∀ x, Decision (P x)}
    (l : list A) :
  (∀ x, x ∈ l → ¬ P x → (f x == 0)%Q) →
  (sumQ (f <$> filter P l) == sumQ (f <$> l))%Q.
Proof.
  induction l as [|a l IH]; intros Hz; [done|].
  assert (IH' : (sumQ (f <$> filter P l) == sumQ (f <$> l))%Q).
  { apply IH. intros x Hx. apply Hz. by right. }
  rewrite filter_cons. destruct (decide (P a)) as [Hp|Hn].
  - change (f a + sumQ (f <$> filter P l) == f a + sumQ (f <$> l))%Q.
    by rewrite IH'.
  - change (sumQ (f <$> filter P l) == f a + sumQ (f <$> l))%Q.
    rewrite IH', (Hz a) by (done || by left). lra.
Qed.

Lemma filter_all {A} (P : A → Prop) `{∀ x, Decision (P x)} (l : list A) :
  (∀ x, x ∈ l → P x) → filter P l = l.
Proof.
  induction l as [|a l IH]; intros Hall; [done|].
  rewrite filter_cons, decide_True by (apply Hall; by left).
  f_equal. apply IH. intros x Hx. apply Hall. by right.
Qed.

Lemma liveLoad_dead a : Ant.alive a ≠ true → (liveLoad a == 0)%Q.
Proof. unfold liveLoad. by destruct (Ant.alive a). Qed.

(** X22.  Sweeping the dead away loses no food.  The filter that ends
    [Colony.update] leaves the colony's stock and the loads of its
    living workers as they were, and keeps only living workers.  The
    filters that end [Game.update] keep only living enemies and sources
    that hold food; when no source holds a negative amount and every
    colony has a living queen they keep every colony and leave the total
    of sources, stocks and loads of the living as it was.  Sweeping
    twice is sweeping once. *)
Theorem sweeps_lose_no_food (c : Colony.t) (g : Game.t) :
  ((colonyLiveFood (sweepWorkers c) == colonyLiveFood c)%Q
   ∧ ∀ a, a ∈ Colony.workers (sweepWorkers c) → Ant.alive a = true)
  ∧ ((∀ e, e ∈ Game.enemies (sweepGame g) → Ant.alive e = true)
     ∧ (∀ f, f ∈ Game.foodSources (sweepGame g) → (0 < FoodSource.amount f)%Q))
  ∧ ((∀ f, f ∈ Game.foodSources g → (0 <= FoodSource.amount f)%Q) →
     (∀ c', c' ∈ Game.colonies g →
        ∃ q, Colony.queen c' = Some q ∧ Ant.alive (Queen.ant q) = true) →
     Game.colonies (sweepGame g) = Game.colonies g
     ∧ (liveFood (sweepGame g) == liveFood g)%Q)
  ∧ sweepGame (sweepGame g) = sweepGame g.
Proof.
  split; [|split; [|split]].
  - split.
    + unfold colonyLiveFood, sweepWorkers. cbn [setWorkers Colony.food
        Colony.workers Colony.queen].
      rewrite (sumQ_filter liveLoad); [done|].
      intros a _. apply liveLoad_dead.
    + intros a Ha. cbn [sweepWorkers setWorkers Colony.workers] in Ha.
      by apply list_elem_of_filter in Ha as [Ha _].
  - split.
    + intros e He. cbn [sweepGame Game.enemies] in He.
      by apply list_elem_of_filter in He as [He _].
    + intros f Hf. cbn [sweepGame Game.foodSources] in Hf.
      apply list_elem_of_filter in Hf as [Hf _]. by apply Qlt_bool_iff.
  - intros Hpos Hq.
    assert (Hcs : Game.colonies (sweepGame g) = Game.colonies g).
    { cbn [sweepGame Game.colonies]. apply filter_all.
      intros c' Hc'. destruct (Hq c' Hc') as (q & -> & Ha). simpl.
      by rewrite Ha. }
    split; [done|]. unfold liveFood. rewrite Hcs.
    cbn [sweepGame Game.enemies Game.foodSources].
    rewrite (sumQ_filter liveLoad) by (intros a _; apply liveLoad_dead).
    rewrite (sumQ_filter FoodSource.amount); [done|].
    intros f Hf Hn. specialize (Hpos f Hf).
    assert (¬ (0 < FoodSource.amount f)%Q) by (by rewrite <- Qlt_bool_iff).
    lra.
  - unfold sweepGame. cbn [Game.world Game.colonies Game.enemies
      Game.foodSources]. f_equal; apply filter_all; intros x Hx;
      by apply list_elem_of_filter in Hx as [Hx _].
Qed.

Lemma sweeps_lose_no_food_witness :
  Game.colonies (sweepGame duel) = Game.colonies duel
  ∧ (liveFood (sweepGame duel) == liveFood duel)%Q.
Proof.
  destruct (sweeps_lose_no_food (Colony.mk 0 true None [] 0) duel)
    as (_ & _ & H & _).
  apply H.
  - intros f Hf. by apply elem_of_nil in Hf.
  - intros c Hc.
    repeat (apply elem_of_cons in Hc as [->|Hc]);
      [eexists; split; reflexivity..|by apply elem_of_nil in Hc].
Defined.

(** ** No negative amounts *)

Lemma frugal_setWorker c wi a :
  frugal c → (0 <= Ant.foodAmount a)%Q →
  frugal (setWorkers c (<[wi := a]> (Colony.workers c))).
Proof. intros [H1 H2] Ha. split; [done|]. by apply Forall_insert. Qed.

Lemma stocked_setWorkerAt g ci wi a :
  stocked g → (0 <= Ant.foodAmount a)%Q → stocked (setWorkerAt g ci wi a).
Proof.
  intros (Hf & Hc & He) Ha. split; [done|]. split; [|done].
  cbn [setWorkerAt setColonies Game.colonies].
  apply Forall_alter; [done|]. intros c _ Hcol. by apply frugal_setWorker.
Qed.

Lemma stocked_worker g ci wi me :
  stocked g → workerAt g ci wi = Some me → (0 <= Ant.foodAmount me)%Q.
Proof.
  intros (_ & Hc & _) (c & Hci & Hwi)%workerAt_Some.
  destruct (Forall_lookup_1 _ _ _ _ Hc Hci) as [_ Hw].
  by apply (Forall_lookup_1 _ _ _ _ Hw Hwi).
Qed.

Lemma Qmin_taken cap amount :
  (0 < cap)%Q → (0 < amount)%Q →
  (0 < Qmin cap amount)%Q ∧ (0 <= amount - Qmin cap amount)%Q.
Proof.
  intros Hc Ha. pose proof (Q.le_min_r cap amount).
  destruct (Q.min_spec cap amount) as [[_ E]|[_ E]]; rewrite E; lra.
Qed.

Lemma stocked_pickup g ci wi : stocked g → stocked (pickup g ci wi).
Proof.
  intros Hs. unfold pickup.
  destruct (workerAt g ci wi) as [me|]; [|done].
  destruct (Ant.targetFood me ≫= _) as [[fi f]|]; [|done].
  destruct (distLt _ _ _ && Qlt_bool 0 (FoodSource.amount f)) eqn:E; [|done].
  apply andb_true_iff in E as [_ E%Qlt_bool_iff].
  destruct (Qmin_taken carryCapacity (FoodSource.amount f)) as [H1 H2];
    [done|done|].
  cbv zeta. apply stocked_setWorkerAt; [|simpl; lra].
  destruct Hs as (Hf & Hc & He). split; [|done].
  cbn [setFoodSources Game.foodSources]. by apply Forall_insert.
Qed.

Lemma stocked_deliver_with g ci c wi me a :
  stocked g → Game.colonies g !! ci = Some c →
  Colony.workers c !! wi = Some me → (0 <= Ant.foodAmount a)%Q →
  stocked (setColonies g
             (<[ci := setWorkers
                        (setFood c (Colony.food c + Ant.foodAmount me))
                        (<[wi := a]> (Colony.workers c))]>
                (Game.colonies g))).
Proof.
  intros (Hf & Hc & He) Hci Hwi Ha. split; [done|]. split; [|done].
  cbn [setColonies Game.colonies]. apply Forall_insert; [done|].
  destruct (Forall_lookup_1 _ _ _ _ Hc Hci) as [H1 H2].
  pose proof (Forall_lookup_1 _ _ _ _ H2 Hwi) as H3. simpl in H3.
  split; simpl; [lra|]. by apply Forall_insert.
Qed.

Lemma stocked_deliver g ci wi : stocked g → stocked (deliver g ci wi).
Proof.
  intros Hs. unfold deliver.
  destruct (Game.colonies g !! ci) as [c|] eqn:Hci; [|done].
  destruct (Colony.workers c !! wi) as [me|] eqn:Hwi; [|done].
  destruct (Colony.queen c) as [q|]; [|done].
  destruct (distLt _ _ _); [|done].
  exact (stocked_deliver_with g ci c wi me (unloaded me) Hs Hci Hwi
           (Qle_refl 0)).
Qed.

Lemma stocked_playerPickup g ci wi :
  stocked g → stocked (playerPickup g ci wi).
Proof.
  intros Hs. destruct (playerPickup_cases g ci wi)
    as [->|(c & me & fi & f & _ & _ & _ & _ & [_ Hpos] & _ & ->)]; [done|].
  destruct (Qmin_taken playerCapacity (FoodSource.amount f)) as [H1 H2];
    [done|done|].
  apply stocked_setWorkerAt; [|simpl; lra].
  destruct Hs as (Hf & Hc & He). split; [|done].
  cbn [setFoodSources Game.foodSources]. by apply Forall_insert.
Qed.

Lemma stocked_playerDeliver g ci wi :
  stocked g → stocked (playerDeliver g ci wi).
Proof.
  intros Hs. destruct (playerDeliver_cases g ci wi)
    as [->|(c & me & q & Hci & Hwi & _ & _ & _ & ->)]; [done|].
  exact (stocked_deliver_with g ci c wi me (setCarried me false 0) Hs Hci Hwi
           (Qle_refl 0)).
Qed.

Lemma frugal_spawnWorker rnd w c :
  frugal c → frugal (Colony_spawnWorker rnd w c).
Proof.
  intros [H1 H2]. unfold Colony_spawnWorker.
  destruct (Colony.queen c) as [q|]; [|done].
  destruct (negb _); [done|]. split; [done|]. cbn [setWorkers Colony.workers].
  apply Forall_app. split; [done|]. by apply Forall_singleton.
Qed.

Lemma stocked_Queen_update dt rnd g ci :
  stocked g → stocked (Queen_update dt rnd g ci).
Proof.
  intros Hs. unfold Queen_update.
  destruct (Game.colonies g !! ci) as [c|] eqn:Hci; [|done].
  destruct (Colony.queen c) as [q|]; [|done].
  destruct Hs as (Hf & Hc & He).
  destruct (Forall_lookup_1 _ _ _ _ Hc Hci) as [H1 H2]. cbv zeta.
  destruct (Qle_bool _ _ && Qle_bool (Queen.foodPerWorker q) (Colony.food c))
    eqn:E.
  - apply andb_true_iff in E as [_ E%Qle_bool_iff].
    split; [done|]. split; [|done].
    cbn [setColonies Game.colonies]. apply Forall_insert; [done|].
    destruct (frugal_spawnWorker rnd (Game.world g)
                (setFood c (Colony.food c - Queen.foodPerWorker q)))
      as [H3 H4]; [split; simpl; [lra|done]|].
    by split.
  - split; [done|]. split; [|done].
    cbn [setColonies Game.colonies]. apply Forall_insert; [done|]. by split.
Qed.

Lemma takeDamage_stocked v d fs :
  Forall (λ f, 0 <= FoodSource.amount f)%Q fs →
  Ant.foodAmount (takeDamage v d fs).1 = Ant.foodAmount v
  ∧ Forall (λ f, 0 <= FoodSource.amount f)%Q (takeDamage v d fs).2.
Proof.
  intros Hfs. unfold takeDamage. cbv zeta. destruct (Qle_bool _ 0); [|done].
  split; [done|]. cbn [snd].
  destruct (Ant.carryingFood v && Qlt_bool 0 (Ant.foodAmount v)) eqn:E;
    [|done].
  apply andb_true_iff in E as [_ E%Qlt_bool_iff].
  apply Forall_app. split; [done|]. apply Forall_singleton. simpl. lra.
Qed.

Lemma stocked_damageAt g tgt d : stocked g → stocked (damageAt g tgt d).
Proof.
  intros Hs. pose proof Hs as (Hf & Hc & He).
  destruct tgt as [i|cj wj|cj]; cbn [damageAt].
  - destruct (Game.enemies g !! i) as [e|] eqn:Hi; [|done]. cbv zeta.
    destruct (takeDamage_stocked e d _ Hf) as [H1 H2].
    split; [done|]. split; [done|].
    cbn [setFoodSources setEnemies Game.enemies].
    apply Forall_insert; [done|]. rewrite H1.
    by apply (Forall_lookup_1 _ _ _ _ He Hi).
  - destruct (workerAt g cj wj) as [e|] eqn:Hat; [|done]. cbv zeta.
    destruct (takeDamage_stocked e d _ Hf) as [H1 H2].
    destruct (stocked_setWorkerAt g cj wj (takeDamage e d (Game.foodSources g)).1 Hs)
      as (_ & Hc' & He').
    { rewrite H1. by eapply stocked_worker. }
    by split.
  - destruct (Game.colonies g !! cj) as [c|] eqn:Hci; [|done].
    destruct (Colony.queen c) as [q|]; [|done]. cbv zeta.
    destruct (takeDamage_stocked (Queen.ant q) d _ Hf) as [_ H2].
    split; [done|]. split; [|done].
    cbn [setFoodSources setColonies Game.colonies].
    apply Forall_insert; [done|].
    by destruct (Forall_lookup_1 _ _ _ _ Hc Hci).
Qed.

Lemma stocked_rearm g ci wi : stocked g → stocked (rearm g ci wi).
Proof.
  intros Hs. unfold rearm. destruct (workerAt g ci wi) as [me|] eqn:Hat;
    [|done].
  apply stocked_setWorkerAt; [done|]. simpl. by eapply stocked_worker.
Qed.

Lemma Forall_filter_keeps {A} (P : A → Prop) (R : A → Prop)
    `{∀ x, Decision (R x)} (l : list A) :
  Forall P l → Forall P (filter R l).
Proof.
  rewrite !Forall_forall. intros Hall x [_ Hx]%list_elem_of_filter.
  by apply Hall.
Qed.

(** X23.  No amount of food ever turns negative.  If no source, no
    stockpile and no ant holds a negative amount, the same is true after
    a queen's update (a spawn is paid from a stock that covers it),
    after the food statements of an AI worker and of the player (a
    source gives no more than it holds), after a [checkCombat] call (a
    dying ant drops a positive amount or nothing) and after the sweeps
    of [Game.update]. *)
Theorem food_never_negative (g : Game.t) (ci wi : nat) (dt : Q)
    (rnd : nat → Q * Q) :
  stocked g →
  stocked (Colony_updateQueen dt rnd g ci)
  ∧ stocked (updateAI_food g ci wi)
  ∧ stocked (updatePlayer_food g ci wi)
  ∧ stocked (checkCombat g ci wi)
  ∧ stocked (sweepGame g).
Proof.
  intros Hs. split; [|split; [|split; [|split]]].
  - unfold Colony_updateQueen.
    destruct (_ ≫= _) as [q|]; [|done].
    destruct (Ant.alive _); [|done]. by apply stocked_Queen_update.
  - unfold updateAI_food. destruct (workerAt g ci wi) as [me|]; [|done].
    destruct (Ant.carryingFood me);
      auto using stocked_pickup, stocked_deliver.
  - by apply stocked_playerDeliver, stocked_playerPickup.
  - unfold checkCombat. destruct (workerAt g ci wi) as [me|]; [|done].
    destruct (firstTarget g ci wi) as [tgt|]; [|done].
    by apply stocked_rearm, stocked_damageAt.
  - destruct Hs as (Hf & Hc & He).
    split; [|split]; cbn [sweepGame Game.foodSources Game.colonies
                          Game.enemies]; by apply Forall_filter_keeps.
Qed.

Lemma food_never_negative_witness :
  stocked (checkCombat raid 0 0).
Proof.
  destruct (food_never_negative raid 0 0 0 (λ _, (0, 0)%Q))
    as (_ & _ & _ & H & _); [|exact H].
  split; [|split]; repeat constructor; vm_compute; discriminate.
Defined.

(** ** Placing food and nests *)

Lemma randomIndex_lt d n : (0 <= d < 1)%Q → (0 < n)%nat → (randomIndex d n < n)%nat.
Proof.
  intros [H0 H1] Hn. unfold randomIndex.
  assert (Hq : (0 < inject_Z (Z.of_nat n))%Q).
  { change 0%Q with (inject_Z 0). rewrite <- Zlt_Qlt. lia. }
  assert (Hlo : 0 <= Qfloor (d * inject_Z (Z.of_nat n))).
  { change 0 with (Qfloor 0). apply Qfloor_resp_le. nra. }
  assert (Hhi : Qfloor (d * inject_Z (Z.of_nat n)) < Z.of_nat n).
  { rewrite Zlt_Qlt.
    eapply Qle_lt_trans; [apply Qfloor_le|]. nra. }
  lia.
Qed.

Lemma Qfloor_centre (x : Z) : Qfloor (inject_Z x + (1 # 2)) = x.
Proof.
  unfold Qfloor, Qplus, inject_Z; simpl.
  change (Z.pos (1 * 2)) with 2.
  replace (x * 2 + 1 * 1) with (1 + x * 2) by lia.
  by rewrite Z.div_add.
Qed.

Lemma centre_inj (x x' : Z) :
  (inject_Z x + (1 # 2))%Q = (inject_Z x' + (1 # 2))%Q → x = x'.
Proof. intros H. by rewrite <- (Qfloor_centre x), H, Qfloor_centre. Qed.

(** A cave spot is the centre of a dug tile of the grid, in rows 12 to
    [height - 6] and columns 5 to [width - 6], more than 5 columns from
    the middle. *)
Lemma caveSpots_spec w spot :
  spot ∈ caveSpots w →
  ∃ x y tile,
    spot = ((inject_Z x + (1 # 2))%Q, (inject_Z y + (1 # 2))%Q)
    ∧ 5 <= x < worldWidth w - 5 ∧ 12 <= y < worldHeight w - 5
    ∧ tileAt w x y = Some tile ∧ dug tile = true ∧ type tile = air
    ∧ 8 < openCount w x y 2
    ∧ (5 < Qabs (inject_Z x - inject_Z (worldWidth w) / 2))%Q.
Proof.
  unfold caveSpots. intros (y & H & Hy%elem_of_seqZ)%list_elem_of_bind.
  apply list_elem_of_bind in H as (x & H & Hx%elem_of_seqZ).
  destruct (tileAt w x y) as [tile|] eqn:Ht; [|by apply elem_of_nil in H].
  destruct (dug tile && isAir (type tile) && (8 <? openCount w x y 2)
            && Qlt_bool 5 (Qabs (inject_Z x - inject_Z (worldWidth w) / 2)))
    eqn:E; [|by apply elem_of_nil in H].
  apply list_elem_of_singleton in H.
  apply andb_true_iff in E as [E E4%Qlt_bool_iff].
  apply andb_true_iff in E as [E E3%Z.ltb_lt].
  apply andb_true_iff in E as [E1 E2].
  exists x, y, tile. repeat split; try done; try lia.
  by destruct (type tile).
Qed.

Lemma caveSpots_canMove w spot :
  spot ∈ caveSpots w → canMove w spot.1 spot.2 = true.
Proof.
  intros (x & y & tile & -> & Hx & Hy & Ht & Hd & _)%caveSpots_spec.
  unfold canMove, getTile. cbn [fst snd]. rewrite !Qfloor_centre.
  unfold isValidTile.
  replace ((0 <=? x) && (x <? worldWidth w) && (0 <=? y)
           && (y <? worldHeight w)) with true by lia.
  by rewrite Ht, Hd.
Qed.

Lemma caveSpots_NoDup w : NoDup (caveSpots w).
Proof.
  unfold caveSpots. apply NoDup_bind; [| |apply NoDup_seqZ].
  - intros y1 y2 s _ _ (x1 & H1 & _)%list_elem_of_bind
      (x2 & H2 & _)%list_elem_of_bind.
    destruct (tileAt w x1 y1); [|by apply elem_of_nil in H1].
    destruct (_ && _); [|by apply elem_of_nil in H1].
    destruct (tileAt w x2 y2); [|by apply elem_of_nil in H2].
    destruct (_ && _); [|by apply elem_of_nil in H2].
    apply list_elem_of_singleton in H1, H2. subst s.
    apply centre_inj. exact (f_equal snd H2).
  - intros y _. apply NoDup_bind; [| |apply NoDup_seqZ].
    + intros x1 x2 s _ _ H1 H2.
      destruct (tileAt w x1 y); [|by apply elem_of_nil in H1].
      destruct (_ && _); [|by apply elem_of_nil in H1].
      destruct (tileAt w x2 y); [|by apply elem_of_nil in H2].
      destruct (_ && _); [|by apply elem_of_nil in H2].
      apply list_elem_of_singleton in H1, H2. subst s.
      apply centre_inj. exact (f_equal fst H2).
    + intros x _. destruct (tileAt w x y); [|apply NoDup_nil_2].
      destruct (_ && _); [apply NoDup_singleton|apply NoDup_nil_2].
Qed.

Lemma NoDup_of_submseteq {A} (l k : list A) : l ⊆+ k → NoDup k → NoDup l.
Proof.
  intros (k' & E)%submseteq_Permutation Hk. rewrite E in Hk.
  by apply NoDup_app in Hk as [? _].
Qed.

Lemma spawnFoodLoop_spec rnd :
  (∀ i, unitDraw (rnd i)) →
  ∀ left spots i foods, (left <= length spots)%nat →
  ∃ new,
    spawnFoodLoop spots rnd i left foods = foods ++ new
    ∧ length new = left
    ∧ place <$> new ⊆+ spots
    ∧ ∀ f, f ∈ new →
        ∃ k, 0 <= k <= 99
             ∧ FoodSource.amount f = (50 + inject_Z k)%Q
             ∧ FoodSource.maxAmount f = FoodSource.amount f.
Proof.
  intros Hrnd. induction left as [|left IH]; intros spots i foods Hlen.
  { exists []. simpl. rewrite app_nil_r.
    split; [done|]. split; [done|]. split; [apply submseteq_nil_l|].
    intros f Hf. by apply elem_of_nil in Hf. }
  cbn [spawnFoodLoop]. cbv zeta.
  destruct (Hrnd i) as [Hd1 Hd2].
  pose proof (randomIndex_lt (rnd i).1 (length spots) Hd1 ltac:(lia)) as Hk.
  destruct (lookup_lt_is_Some_2 spots _ Hk) as [spot Hspot].
  rewrite Hspot.
  destruct (IH (delete (randomIndex (rnd i).1 (length spots)) spots) (S i)
              (foods ++ [newFoodSource spot.1 spot.2
                           (50 + inject_Z (Qfloor ((rnd i).2 * 100)))%Q]))
    as (new & E & Hnew & Hsub & Hamt).
  { rewrite length_delete by eauto. lia. }
  exists (newFoodSource spot.1 spot.2
            (50 + inject_Z (Qfloor ((rnd i).2 * 100)))%Q :: new).
  split; [by rewrite E, <- app_assoc|]. split; [simpl; lia|]. split.
  - rewrite fmap_cons. rewrite (delete_Permutation spots _ spot Hspot).
    replace (place (newFoodSource spot.1 spot.2 _)) with spot
      by (by destruct spot).
    by apply submseteq_skip.
  - intros f [->|Hf]%elem_of_cons; [|by apply Hamt].
    exists (Qfloor ((rnd i).2 * 100)). destruct Hd2 as [H0 H1].
    split; [|done]. split.
    + change 0 with (Qfloor 0). apply Qfloor_resp_le. lra.
    + assert (Qfloor ((rnd i).2 * 100) < 100); [|lia].
      rewrite Zlt_Qlt. eapply Qle_lt_trans; [apply Qfloor_le|].
      change (inject_Z 100) with 100%Q. lra.
Qed.

(** X24.  Food is placed in the open, and never twice in one place.
    With draws in [0, 1), [spawnFoodInCaves(count)] appends exactly
    [min(count, n)] sources to those there are, [n] being the number of
    cave spots its scan finds.  The new sources lie on pairwise
    different cave spots, each the centre of a tile that [canMove]
    accepts, and each holds a whole amount from 50 to 149. *)
Theorem spawnFoodInCaves_places_food (w : World) (count : nat)
    (rnd : nat → Q * Q) (foods : list FoodSource.t) :
  (∀ i, unitDraw (rnd i)) →
  ∃ new,
    spawnFoodInCaves w count rnd foods = foods ++ new
    ∧ length new = Nat.min count (length (caveSpots w))
    ∧ NoDup (place <$> new)
    ∧ ∀ f, f ∈ new →
        place f ∈ caveSpots w
        ∧ canMove w (FoodSource.x f) (FoodSource.y f) = true
        ∧ ∃ k, 0 <= k <= 99
               ∧ FoodSource.amount f = (50 + inject_Z k)%Q
               ∧ FoodSource.maxAmount f = FoodSource.amount f.
Proof.
  intros Hrnd. unfold spawnFoodInCaves. cbv zeta.
  destruct (spawnFoodLoop_spec rnd Hrnd
              (Nat.min count (length (caveSpots w))) (caveSpots w) 0 foods)
    as (new & E & Hlen & Hsub & Hamt); [lia|].
  exists new. split; [done|]. split; [done|]. split.
  - eapply NoDup_of_submseteq; [done|apply caveSpots_NoDup].
  - intros f Hf.
    assert (Hin : place f ∈ caveSpots w).
    { eapply elem_of_submseteq; [|done]. by apply list_elem_of_fmap_2. }
    split; [done|]. split; [|by apply Hamt].
    by apply (caveSpots_canMove w (place f)).
Qed.

Lemma spawnFoodInCaves_places_food_witness :
  ∃ new,
    spawnFoodInCaves caveWorld 2 (λ i, (1 # 2, 1 # 4)%Q) [] = [] ++ new
    ∧ length new = Nat.min 2 (length (caveSpots caveWorld))
    ∧ NoDup (place <$> new)
    ∧ ∀ f, f ∈ new →
        place f ∈ caveSpots caveWorld
        ∧ canMove caveWorld (FoodSource.x f) (FoodSource.y f) = true
        ∧ ∃ k, 0 <= k <= 99
               ∧ FoodSource.amount f = (50 + inject_Z k)%Q
               ∧ FoodSource.maxAmount f = FoodSource.amount f.
Proof.
  apply (spawnFoodInCaves_places_food caveWorld 2 (λ i, (1 # 2, 1 # 4)%Q) []).
  intros i. split; split; vm_compute; (discriminate || reflexivity).
Defined.

Lemma half_step (n i : nat) :
  (i < n)%nat → ((n - i + 1) / 2 = S ((n - 1 - S i + 1) / 2))%nat.
Proof.
  intros Hlt. destruct (Nat.eq_dec (n - i)%nat 1%nat) as [E|E].
  - replace (n - 1 - S i)%nat with 0%nat by lia. by rewrite E.
  - replace (n - i + 1)%nat with ((n - 1 - S i + 1) + 1 * 2)%nat by lia.
    rewrite Nat.div_add by lia. lia.
Qed.

Lemma spawnEnemyLoop_spec rnd :
  (∀ i, (0 <= (rnd i).1 < 1)%Q) →
  ∀ left spots i colonies,
  ∃ new,
    spawnEnemyLoop spots rnd i left colonies = colonies ++ new
    ∧ length new = Nat.min left ((length spots - i + 1) / 2)
    ∧ seat <$> new ⊆+ spots
    ∧ ∀ j c, new !! j = Some c →
        Colony.factionId c = (i + j + 1)%nat ∧ Colony.isPlayer c = false
        ∧ Colony.food c = 0%Q
        ∧ Colony.queen c = Some (newQueen (seat c).1 (seat c).2)
        ∧ Colony.workers c
          = [newWorkerAnt
               ((seat c).1 + ((rnd (i + j)%nat).2.1 - (1 # 2)) * 4)%Q
               ((seat c).2 + ((rnd (i + j)%nat).2.2 - (1 # 2)) * 4)%Q
               false].
Proof.
  intros Hrnd. induction left as [|left IH]; intros spots i colonies.
  { exists []. simpl. rewrite app_nil_r.
    split; [done|]. split; [done|]. split; [apply submseteq_nil_l|]. done. }
  cbn [spawnEnemyLoop]. cbv zeta.
  destruct (Nat.ltb_spec i (length spots)) as [Hlt|Hge].
  - pose proof (randomIndex_lt (rnd i).1 (length spots) (Hrnd i)
                  ltac:(lia)) as Hk.
    destruct (lookup_lt_is_Some_2 spots _ Hk) as [spot Hspot].
    rewrite Hspot.
    set (c0 := Colony.mk (i + 1) false (Some (newQueen spot.1 spot.2))
                 [newWorkerAnt (spot.1 + ((rnd i).2.1 - (1 # 2)) * 4)%Q
                               (spot.2 + ((rnd i).2.2 - (1 # 2)) * 4)%Q
                               false] 0).
    destruct (IH (delete (randomIndex (rnd i).1 (length spots)) spots) (S i)
                (colonies ++ [c0])) as (new & E & Hlen & Hsub & Hcol).
    exists (c0 :: new).
    split; [by rewrite E, <- app_assoc|]. split.
    { cbn [length]. rewrite Hlen, length_delete by eauto.
      rewrite (half_step (length spots) i Hlt). lia. }
    split.
    { rewrite fmap_cons. rewrite (delete_Permutation spots _ spot Hspot).
      replace (seat c0) with spot by (by destruct spot).
      by apply submseteq_skip. }
    intros [|j] c Hc.
    + injection Hc as <-. rewrite Nat.add_0_r. done.
    + destruct (Hcol j c Hc) as (H1 & H2 & H3 & H4 & H5).
      split; [lia|]. split; [done|]. split; [done|]. split; [done|].
      by replace (i + S j)%nat with (S i + j)%nat by lia.
  - exists []. rewrite app_nil_r. split; [done|]. split.
    { replace (length spots - i)%nat with 0%nat by lia. simpl. lia. }
    split; [apply submseteq_nil_l|]. done.
Qed.

(** X25.  The nest loop tests its counter against a list that it
    shortens.  With draws in [0, 1), the loop
    [for (i = 0; i < Math.min(count, nestSpots.length); i++)], which
    takes one spot from [nestSpots] in every round, founds exactly
    [min(count, ceil(n / 2))] colonies on [n] different spots, not
    [min(count, n)].  The colonies founded have the factions 1, 2, ...
    in order and no stock; their queens sit on pairwise different
    spots, and each has one worker, within 2 of its queen on either
    axis. *)
Theorem spawnEnemies_founds_half (spots : list (Q * Q))
    (rnd : nat → Q * (Q * Q)) (count : nat) (colonies : list Colony.t) :
  NoDup spots →
  (∀ i, (0 <= (rnd i).1 < 1)%Q ∧ unitDraw (rnd i).2) →
  ∃ new,
    spawnEnemyLoop spots rnd 0 count colonies = colonies ++ new
    ∧ length new = Nat.min count ((length spots + 1) / 2)
    ∧ NoDup (seat <$> new)
    ∧ ∀ j c, new !! j = Some c →
        Colony.factionId c = (j + 1)%nat ∧ Colony.isPlayer c = false
        ∧ Colony.food c = 0%Q ∧ seat c ∈ spots
        ∧ ∃ q wk,
            Colony.queen c = Some q ∧ Colony.workers c = [wk]
            ∧ Ant.alive (Queen.ant q) = true ∧ Ant.alive wk = true
            ∧ (Qabs (Ant.x wk - Ant.x (Queen.ant q)) <= 2)%Q
            ∧ (Qabs (Ant.y wk - Ant.y (Queen.ant q)) <= 2)%Q.
Proof.
  intros Hnd Hrnd.
  destruct (spawnEnemyLoop_spec rnd (λ i, proj1 (Hrnd i)) count spots 0
              colonies) as (new & E & Hlen & Hsub & Hcol).
  exists new. split; [done|].
  split; [by rewrite Hlen, Nat.sub_0_r|].
  split; [by eapply NoDup_of_submseteq|].
  intros j c Hj. destruct (Hcol j c Hj) as (H1 & H2 & H3 & H4 & H5).
  split; [done|]. split; [done|]. split; [done|]. split.
  { eapply elem_of_submseteq; [|done].
    apply list_elem_of_fmap_2. by eapply list_elem_of_lookup_2. }
  eexists _, _. split; [done|]. split; [done|].
  split; [done|]. split; [done|].
  destruct (Hrnd j) as [_ [[Ha Hb] [Hc Hd]]].
  cbn [newQueen newWorkerAnt Queen.ant Ant.x Ant.y].
  split; apply Qabs_Qle_condition; split; simpl (0 + j)%nat; lra.
Qed.

Lemma spawnEnemies_founds_half_witness :
  ∃ new,
    spawnEnemyLoop [(1, 1); (2, 2); (3, 3); (4, 4)]%Q
                   (λ i, (1 # 2, (1 # 2, 1 # 2))%Q) 0 3 []
    = [] ++ new
    ∧ length new = 2%nat.
Proof.
  destruct (spawnEnemies_founds_half [(1, 1); (2, 2); (3, 3); (4, 4)]%Q
              (λ i, (1 # 2, (1 # 2, 1 # 2))%Q) 3 [])
    as (new & H1 & H2 & _).
  - rewrite !NoDup_cons. repeat split; try apply NoDup_nil_2; intros H;
      repeat (apply elem_of_cons in H as [H|H]; [discriminate H|]);
      by apply elem_of_nil in H.
  - intros i. split; [|split]; split; vm_compute;
      (discriminate || reflexivity).
  - exists new. split; [exact H1|exact H2].
Defined.
